(** * Evolutionary optimisation (neurolib/optimize/evolution/evolution.py)

    A shallow embedding of the [Evolution] class: individuals live in a
    store of mutable objects, populations are lists of references into that
    store, and the methods of the class are computations in a state monad
    that can raise Python exceptions.  State written before an exception is
    raised is kept, as in Python.

    Numbers.  A Python float is an IEEE 754 binary64 number.  It is modelled
    by [float], the [spec_float] of the Standard Library with the binary64
    parameters: products and quotients are rounded to nearest (ties to
    even), overflow to an infinity, and zeros are signed.  NaN has no
    payload.  Fitness values and weights are taken to be Python floats, for
    which a division by zero raises ZeroDivisionError. *)

From Stdlib Require Import ZArith SpecFloat.
From stdpp Require Import base list gmap strings numbers sorting.

#[local] Set Warnings "-clear-no-such-hyp".

Local Open Scope Z_scope.

(** ** Floats *)

Abbreviation float := spec_float (only parsing).
Abbreviation NaN := S754_nan (only parsing).
Abbreviation Inf := S754_infinity (only parsing).

(** The parameters of binary64. *)
Definition prec : Z := 53.
Definition emax : Z := 1024.

#[global] Instance float_eq_dec : EqDecision float.
Proof. solve_decision. Defined.

(** The float nearest to an integer ([float(z)]). *)
Definition float_of_Z (z : Z) : float := binary_normalize prec emax z 0 false.

(** [np.isnan], [np.isinf] on one component. *)
Definition isnan (x : float) : bool :=
  match x with S754_nan => true | _ => false end.

Definition isinf (x : float) : bool :=
  match x with S754_infinity _ => true | _ => false end.

(** [np.isfinite]: what [np.ma.masked_invalid] keeps unmasked. *)
Definition isfinite (x : float) : bool :=
  match x with S754_zero _ | S754_finite _ _ _ => true | _ => false end.

(** [x == 0.0] *)
Definition is_zero (x : float) : bool :=
  match x with S754_zero _ => true | _ => false end.

(** [operator.mul] on floats.  It never raises: a product too large for a
    float is an infinity. *)
Definition fmul (x y : float) : float := SFmul prec emax x y.

(** The IEEE 754 quotient: what numpy computes for [float64 / float64],
    and Python for [x / y] when [y] is not zero. *)
Definition fdiv (x y : float) : float := SFdiv prec emax x y.

(** The IEEE 754 sum. *)
Definition fadd (x y : float) : float := SFadd prec emax x y.

(** A weight that is a finite, non-zero number. *)
Definition proper_weight (w : float) : bool :=
  match w with
  | S754_finite _ _ _ => true
  | _ => false
  end.

(** ** numpy

    [ndarray.sum()] of a one-dimensional float64 array.  The order in which
    numpy adds the components is its own (from left to right for a short
    array, pairwise in blocks for a long one), and floating-point addition
    is not associative; the code under study only calls it.  So the sum is
    an operation of the interface to numpy, with the additions from left to
    right as an instance. *)
Class Numpy := { np_sum : list float → float }.

Definition sequential_sum : Numpy :=
  {| np_sum := foldl fadd (S754_zero false) |}.

(** [np.ma.masked_invalid(a)] masks the components that are NaN or Inf.
    [MaskedArray.sum()] is the sum of the array with the masked components
    filled with 0, and is the constant [np.ma.masked] when every component
    is masked; arithmetic on [np.ma.masked] gives [np.ma.masked] again. *)

Inductive Score := Masked | Unmasked (x : float).

#[global] Instance Score_eq_dec : EqDecision Score.
Proof. solve_decision. Defined.

(** One component of [a.filled(0)] for [a = np.ma.masked_invalid(xs)]. *)
Definition filled0 (x : float) : float :=
  if isfinite x then x else S754_zero false.

(** [np.ma.masked_invalid(xs).sum() / len(xs)]: a float64 divided by an
    integer, which numpy converts to float64. *)
Definition masked_invalid_sum_div_len `{Numpy} (xs : list float) : Score :=
  if forallb (λ x, negb (isfinite x)) xs
  then Masked
  else Unmasked (fdiv (np_sum (filled0 <$> xs)) (float_of_Z (Z.of_nat (length xs)))).

(** ** Python ranges *)

(** [range(lo, hi)] *)
Definition py_range (lo hi : Z) : list Z :=
  (λ i : nat, lo + Z.of_nat i) <$> seq 0 (Z.to_nat (hi - lo)).

(** [range(1, n, 2)] over list positions. *)
Definition odd_positions (n : nat) : list nat :=
  (λ j : nat, (2 * j + 1)%nat) <$> seq 0 (n / 2).

(** ** Exceptions *)

Inductive PyError :=
  | AssertionError (msg : string)
  | IndexError
  | AttributeError (attr : string)
  | TypeError
  | ZeroDivisionError
  | DanglingReference.

#[global] Instance PyError_eq_dec : EqDecision PyError.
Proof. solve_decision. Defined.

Inductive Outcome (A : Type) :=
  | Returned (a : A)
  | Raised (e : PyError).
Arguments Returned {A} a.
Arguments Raised {A} e.

(** ** Individuals, the toolbox and the state of an [Evolution] object *)

(** A reference to an individual: its position in the store. *)
Abbreviation loc := nat (only parsing).

(** What the evaluation function packs for one run: a tuple.  The code
    asserts its length is 2 and takes it apart as (fitness, outputs). *)
Inductive Packed (Out : Type) :=
  | Pack2 (fitnessesResult : list float) (returnedOutputs : Out)
  | PackOther (n : nat).   (* a tuple of any other length: 0, 1, 3, 4, ... *)
Arguments Pack2 {Out} fitnessesResult returnedOutputs.
Arguments PackOther {Out} n.

Definition packed_len {Out} (p : Packed Out) : nat :=
  match p with
  | Pack2 _ _ => 2%nat
  | PackOther n => if decide (n < 2)%nat then n else S n
  end.

(** [operator.truediv] on Python floats. *)
Definition truediv (x y : float) : Outcome float :=
  if is_zero y then Raised ZeroDivisionError else Returned (fdiv x y).

(** [tuple(map(truediv, xs, ys))] *)
Fixpoint map_truediv (xs ys : list float) : Outcome (list float) :=
  match xs, ys with
  | x :: xs', y :: ys' =>
      match truediv x y with
      | Returned q =>
          match map_truediv xs' ys' with
          | Returned qs => Returned (q :: qs)
          | Raised e => Raised e
          end
      | Raised e => Raised e
      end
  | _, _ => Returned []
  end.

Definition key_le (a b : Z * list loc) : Prop := a.1 ≤ b.1.

#[global] Instance key_le_dec a b : Decision (key_le a b).
Proof. unfold key_le. apply _. Defined.

Section Evolution.

Context {Out R : Type} {numpy : Numpy}.

(** A [deap.creator.Individual]: a list of genes with attributes set on it
    as the run goes.  An attribute that has not been set is [None].  The
    fitness object is owned by the individual; DEAP stores in it the
    weighted values only, [()] when the fitness is not set, and the
    evaluation adds the attribute [score] to it. *)
Record Individual := mkIndividual {
  genes : list float;
  ind_id : option Z;
  ind_gIdx : option Z;
  simulation_stored : option bool;
  params : option (list (string * float));
  parentIds : option (Z * Z);
  outputs : option Out;
  fitness_wvalues : list float;
  fitness_score : option Score;
}.

Definition set_genes (g : list float) (i : Individual) : Individual :=
  mkIndividual g (ind_id i) (ind_gIdx i) (simulation_stored i) (params i)
    (parentIds i) (outputs i) (fitness_wvalues i) (fitness_score i).
Definition set_id (x : option Z) (i : Individual) : Individual :=
  mkIndividual (genes i) x (ind_gIdx i) (simulation_stored i) (params i)
    (parentIds i) (outputs i) (fitness_wvalues i) (fitness_score i).
Definition set_gIdx (x : option Z) (i : Individual) : Individual :=
  mkIndividual (genes i) (ind_id i) x (simulation_stored i) (params i)
    (parentIds i) (outputs i) (fitness_wvalues i) (fitness_score i).
Definition set_simulation_stored (x : option bool) (i : Individual) : Individual :=
  mkIndividual (genes i) (ind_id i) (ind_gIdx i) x (params i)
    (parentIds i) (outputs i) (fitness_wvalues i) (fitness_score i).
Definition set_params (x : option (list (string * float))) (i : Individual) : Individual :=
  mkIndividual (genes i) (ind_id i) (ind_gIdx i) (simulation_stored i) x
    (parentIds i) (outputs i) (fitness_wvalues i) (fitness_score i).
Definition set_parentIds (x : option (Z * Z)) (i : Individual) : Individual :=
  mkIndividual (genes i) (ind_id i) (ind_gIdx i) (simulation_stored i) (params i)
    x (outputs i) (fitness_wvalues i) (fitness_score i).
Definition set_outputs (x : option Out) (i : Individual) : Individual :=
  mkIndividual (genes i) (ind_id i) (ind_gIdx i) (simulation_stored i) (params i)
    (parentIds i) x (fitness_wvalues i) (fitness_score i).
Definition set_wvalues (x : list float) (i : Individual) : Individual :=
  mkIndividual (genes i) (ind_id i) (ind_gIdx i) (simulation_stored i) (params i)
    (parentIds i) (outputs i) x (fitness_score i).
Definition set_score (x : option Score) (i : Individual) : Individual :=
  mkIndividual (genes i) (ind_id i) (ind_gIdx i) (simulation_stored i) (params i)
    (parentIds i) (outputs i) (fitness_wvalues i) x.

(** [creator.Individual(genes)]: no attribute set, fitness not set. *)
Definition new_Individual (g : list float) : Individual :=
  mkIndividual g None None None None None None [] None.

(** The constructor arguments that the methods under study read. *)
Record Config := mkConfig {
  weightList : list float;
  NGEN : Z;
  POP_SIZE : Z;
  paramNames : list string;     (* parameterSpace.named_tuple._fields *)
  POP_INIT_SIZE : Z;
}.

(** The DEAP toolbox: the pluggable operators and the execution backend.
    Operators are random, so each threads a generator state [R].  A
    selection operator returns members of the population it is given (here:
    their positions in it); mating and mutation rewrite genes in place, as
    [deap.tools.cxBlend] does.  [map_evaluate] is [toolbox.map(
    toolbox.evaluate)]: pypet runs the evaluation function on the runs
    explored for this generation and returns (run index, packed return)
    pairs. *)
Record Toolbox := mkToolbox {
  individualGenerator : R → list float * R;
  selectParents : list Individual → Z → R → list nat * R;
  mate : list float → list float → R → (list float * list float) * R;
  mutate : list float → R → list float * R;
  select : list Individual → Z → R → list nat * R;
  selBest : list Individual → Z → list nat;
  map_evaluate : Z → list (Z * list float) → R → list (Z * Packed Out) * R;
}.

(** The fields of [self] that the methods read or write, the store of
    individuals, and what has been handed to the pypet trajectory. *)
Record Evolution := mkEvolution {
  heap : list Individual;
  pop : list loc;
  gIdx : option Z;
  last_id : Z;
  evaluationCounter : Z;
  history : gmap Z (list loc);
  best_ind : option loc;
  initialPopulationSimulated : bool;
  rng : R;
  traj_runs : list (Z * Z * list float);
  traj_generations : list (Z * list (list float * option Score));
  tree : gmap Z (option (Z * Z));
  id_genx : gmap Z Z;
  id_score : gmap Z Score;
}.

Definition set_heap (x : list Individual) (s : Evolution) : Evolution :=
  mkEvolution x (pop s) (gIdx s) (last_id s) (evaluationCounter s) (history s)
    (best_ind s) (initialPopulationSimulated s) (rng s) (traj_runs s)
    (traj_generations s) (tree s) (id_genx s) (id_score s).
Definition set_pop (x : list loc) (s : Evolution) : Evolution :=
  mkEvolution (heap s) x (gIdx s) (last_id s) (evaluationCounter s) (history s)
    (best_ind s) (initialPopulationSimulated s) (rng s) (traj_runs s)
    (traj_generations s) (tree s) (id_genx s) (id_score s).
Definition set_self_gIdx (x : option Z) (s : Evolution) : Evolution :=
  mkEvolution (heap s) (pop s) x (last_id s) (evaluationCounter s) (history s)
    (best_ind s) (initialPopulationSimulated s) (rng s) (traj_runs s)
    (traj_generations s) (tree s) (id_genx s) (id_score s).
Definition set_last_id (x : Z) (s : Evolution) : Evolution :=
  mkEvolution (heap s) (pop s) (gIdx s) x (evaluationCounter s) (history s)
    (best_ind s) (initialPopulationSimulated s) (rng s) (traj_runs s)
    (traj_generations s) (tree s) (id_genx s) (id_score s).
Definition set_evaluationCounter (x : Z) (s : Evolution) : Evolution :=
  mkEvolution (heap s) (pop s) (gIdx s) (last_id s) x (history s)
    (best_ind s) (initialPopulationSimulated s) (rng s) (traj_runs s)
    (traj_generations s) (tree s) (id_genx s) (id_score s).
Definition set_history (x : gmap Z (list loc)) (s : Evolution) : Evolution :=
  mkEvolution (heap s) (pop s) (gIdx s) (last_id s) (evaluationCounter s) x
    (best_ind s) (initialPopulationSimulated s) (rng s) (traj_runs s)
    (traj_generations s) (tree s) (id_genx s) (id_score s).
Definition set_best_ind (x : option loc) (s : Evolution) : Evolution :=
  mkEvolution (heap s) (pop s) (gIdx s) (last_id s) (evaluationCounter s) (history s)
    x (initialPopulationSimulated s) (rng s) (traj_runs s)
    (traj_generations s) (tree s) (id_genx s) (id_score s).
Definition set_initialPopulationSimulated (x : bool) (s : Evolution) : Evolution :=
  mkEvolution (heap s) (pop s) (gIdx s) (last_id s) (evaluationCounter s) (history s)
    (best_ind s) x (rng s) (traj_runs s)
    (traj_generations s) (tree s) (id_genx s) (id_score s).
Definition set_rng (x : R) (s : Evolution) : Evolution :=
  mkEvolution (heap s) (pop s) (gIdx s) (last_id s) (evaluationCounter s) (history s)
    (best_ind s) (initialPopulationSimulated s) x (traj_runs s)
    (traj_generations s) (tree s) (id_genx s) (id_score s).
Definition set_traj_runs (x : list (Z * Z * list float)) (s : Evolution) : Evolution :=
  mkEvolution (heap s) (pop s) (gIdx s) (last_id s) (evaluationCounter s) (history s)
    (best_ind s) (initialPopulationSimulated s) (rng s) x
    (traj_generations s) (tree s) (id_genx s) (id_score s).
Definition set_traj_generations
    (x : list (Z * list (list float * option Score))) (s : Evolution) : Evolution :=
  mkEvolution (heap s) (pop s) (gIdx s) (last_id s) (evaluationCounter s) (history s)
    (best_ind s) (initialPopulationSimulated s) (rng s) (traj_runs s)
    x (tree s) (id_genx s) (id_score s).
Definition set_genealogy (t : gmap Z (option (Z * Z))) (g : gmap Z Z)
    (sc : gmap Z Score) (s : Evolution) : Evolution :=
  mkEvolution (heap s) (pop s) (gIdx s) (last_id s) (evaluationCounter s) (history s)
    (best_ind s) (initialPopulationSimulated s) (rng s) (traj_runs s)
    (traj_generations s) t g sc.

(** [Evolution.__init__]: empty history, counters at 0. *)
Definition init_Evolution (r : R) : Evolution :=
  mkEvolution [] [] None 0 0 ∅ None false r [] [] ∅ ∅ ∅.

(** ** The monad: state of [self] and the store, with exceptions *)

Definition M (A : Type) : Type := Evolution → Outcome A * Evolution.

#[global] Instance M_ret : MRet M := λ A a s, (Returned a, s).

#[global] Instance M_bind : MBind M := λ A B f m s,
  match m s with
  | (Returned a, s') => f a s'
  | (Raised e, s') => (Raised e, s')
  end.

Definition raise {A} (e : PyError) : M A := λ s, (Raised e, s).

(** The outcome of a computation that does not touch the state. *)
Definition of_outcome {A} (o : Outcome A) : M A := λ s, (o, s).

Definition get_self : M Evolution := λ s, (Returned s, s).

Definition modify (f : Evolution → Evolution) : M unit := λ s, (Returned (), f s).

(** [assert b, msg] *)
Definition py_assert (b : bool) (msg : string) : M unit :=
  if b then mret () else raise (AssertionError msg).

(** Reading the object behind a reference.  Python has no dangling
    reference; the model raises on one instead of inventing an object. *)
Definition deref (l : loc) : M Individual := λ s,
  match heap s !! l with
  | Some x => (Returned x, s)
  | None => (Raised DanglingReference, s)
  end.

(** In-place update of the object behind a reference. *)
Definition update (l : loc) (f : Individual → Individual) : M unit :=
  modify (λ s, set_heap (alter f l (heap s)) s).

(** A new object, at a fresh address. *)
Definition alloc (x : Individual) : M loc := λ s,
  (Returned (length (heap s)), set_heap (heap s ++ [x]) s).

(** [xs[i]] *)
Definition index {A} (xs : list A) (i : nat) : M A :=
  match xs !! i with
  | Some x => mret x
  | None => raise IndexError
  end.

(** [x.<attr>] for an attribute that may not have been set. *)
Definition getattr {A} (name : string) (field : Individual → option A)
    (l : loc) : M A :=
  x ← deref l;
  match field x with
  | Some a => mret a
  | None => raise (AttributeError name)
  end.

(** A call of a random operator of the toolbox. *)
Definition with_rng {A} (f : R → A * R) : M A := λ s,
  let '(a, r) := f (rng s) in (Returned a, set_rng r s).

(** [for x in xs: body(x)] *)
Fixpoint for_each {A} (xs : list A) (body : A → M unit) : M unit :=
  match xs with
  | [] => mret ()
  | x :: xs' => body x;; for_each xs' body
  end.

(** [[f(x) for x in xs]] *)
Fixpoint list_comp {A B} (f : A → M B) (xs : list A) : M (list B) :=
  match xs with
  | [] => mret []
  | x :: xs' => y ← f x; ys ← list_comp f xs'; mret (y :: ys)
  end.

(** [[x for x in xs if test(x)]] *)
Fixpoint list_comp_if {A} (test : A → M bool) (xs : list A) : M (list A) :=
  match xs with
  | [] => mret []
  | x :: xs' =>
      b ← test x;
      ys ← list_comp_if test xs';
      mret (if (b : bool) then x :: ys else ys)
  end.

(** [enumerate(xs)] *)
Definition enumerate {A} (xs : list A) : list (nat * A) := imap pair xs.

Variable cfg : Config.
Variable toolbox : Toolbox.

(** ** DEAP's [Fitness] *)

(** [fitness.values] (getter): [tuple(map(truediv, self.wvalues,
    self.weights))], the weighted values divided by the weights, as far as
    the shorter of the two goes.  The first zero weight that is reached
    raises ZeroDivisionError. *)
Definition fitness_values (x : Individual) : Outcome (list float) :=
  map_truediv (fitness_wvalues x) (weightList cfg).

(** [fitness.values = vals] (setter): stores [vals] times the weights. *)
Definition set_fitness_values (vals : list float) (x : Individual) : Individual :=
  set_wvalues (zip_with fmul vals (weightList cfg)) x.

(** [del fitness.values]: the weighted values become [()]. *)
Definition del_fitness_values (x : Individual) : Individual :=
  set_wvalues [] x.

(** ** Methods of [Evolution] *)

(** [np.isnan(p.fitness.values).any() or np.isinf(p.fitness.values).any()] *)
Definition invalid_fitness (x : Individual) : Outcome bool :=
  match fitness_values x with
  | Returned vals => Returned (existsb isnan vals || existsb isinf vals)
  | Raised e => Raised e
  end.

Definition getValidPopulation (pop : list loc) : M (list loc) :=
  list_comp_if (λ p, x ← deref p;
                     invalid ← of_outcome (invalid_fitness x);
                     mret (negb invalid)) pop.

Definition getInvalidPopulation (pop : list loc) : M (list loc) :=
  list_comp_if (λ p, x ← deref p; of_outcome (invalid_fitness x)) pop.

(** [individualToDict]: the first [len(self.paramInterval)] genes are passed
    to the named-tuple constructor [self.ParametersInterval], which needs one
    argument per field, and the tuple is turned into a dictionary. *)
Definition individualToDict (x : Individual) : M (list (string * float)) :=
  let args := take (length (paramNames cfg)) (genes x) in
  if bool_decide (length args = length (paramNames cfg))
  then mret (zip (paramNames cfg) args)
  else raise TypeError.

(** The body of the loop of [tagPopulation].  The parameters set as
    attributes for easy access are kept in [params]; parameter names are
    taken to differ from the names of the bookkeeping attributes. *)
Definition tagIndividual (ind : loc) : M unit :=
  x ← deref ind;
  py_assert (bool_decide (ind_id x = None))
    "Individual has an id already, will not overwrite it!";;
  self ← get_self;
  update ind (set_id (Some (last_id self)));;
  g ← (match gIdx self with Some g => mret g | None => raise (AttributeError "gIdx") end);
  update ind (set_gIdx (Some g));;
  update ind (set_simulation_stored (Some false));;
  x ← deref ind;
  ind_dict ← individualToDict x;
  update ind (set_params (Some ind_dict));;
  modify (λ s, set_last_id (last_id s + 1) s).

Definition tagPopulation (pop : list loc) : M (list loc) :=
  for_each pop tagIndividual;;
  mret pop.

(** The body of the loop over the results in [evalPopulationUsingPypet]. *)
Definition storeResult (pop : list loc) (ir : nat * (Z * Packed Out)) : M unit :=
  let '(idx, (runIndex, packedReturnFromEvalFunction)) := ir in
  py_assert (bool_decide (packed_len packedReturnFromEvalFunction = 2%nat))
    "Evaluation function must return tuple with shape (fitness, output_data)";;
  match packedReturnFromEvalFunction with
  | Pack2 fitnessesResult returnedOutputs =>
      p ← index pop idx;
      update p (set_outputs (Some returnedOutputs));;
      p ← index pop idx;
      update p (set_fitness_values fitnessesResult);;
      p ← index pop idx;
      x ← deref p;
      update p (set_score (Some (masked_invalid_sum_div_len (fitness_wvalues x))))
  | PackOther _ => raise TypeError
  end.

Definition evalPopulationUsingPypet (pop : list loc) (gIdx : Z) : M (list loc) :=
  ids ← list_comp (getattr "id" ind_id) pop;
  individuals ← list_comp (λ p, x ← deref p; mret (genes x)) pop;
  modify (λ s, set_traj_runs
    (traj_runs s ++ ((λ r, (gIdx, r.1, r.2)) <$> zip ids individuals)) s);;
  modify (λ s, set_evaluationCounter
    (evaluationCounter s + Z.of_nat (length pop)) s);;
  evolutionResult ← with_rng (map_evaluate toolbox gIdx (zip ids individuals));
  py_assert (bool_decide (0 < length evolutionResult)%nat)
    "No results returned from simulations.";;
  for_each (enumerate evolutionResult) (storeResult pop);;
  mret pop.

(** [toolbox.individual()]: a new individual with generated genes. *)
Definition toolbox_individual : M loc :=
  g ← with_rng (individualGenerator toolbox);
  alloc (new_Individual g).

(** [deap.tools.initRepeat(list, func, n)] *)
Fixpoint initRepeat {A} (func : M A) (n : nat) : M (list A) :=
  match n with
  | O => mret []
  | S n' => x ← func; xs ← initRepeat func n'; mret (x :: xs)
  end.

(** [toolbox.population(n=n)] *)
Definition toolbox_population (n : Z) : M (list loc) :=
  initRepeat toolbox_individual (Z.to_nat n).

(** [copy.deepcopy] of an individual: the genes and the attributes are
    copied; the fitness is copied by [deap.base.Fitness.__deepcopy__], which
    makes a new fitness object and copies the weighted values only, so the
    copy has no [score]. *)
Definition deepcopy (x : Individual) : Individual :=
  set_score None x.

(** [toolbox.clone(x)]: a deep copy, a new object. *)
Definition toolbox_clone (p : loc) : M loc :=
  x ← deref p;
  alloc (deepcopy x).

(** A call [op(pop, k)] of a selection operator: the operator sees the
    individuals and returns some of them. *)
Definition call_selection (op : list Individual → Z → R → list nat * R)
    (pop : list loc) (k : Z) : M (list loc) :=
  xs ← list_comp deref pop;
  chosen ← with_rng (op xs k);
  mret (omap (λ i : nat, pop !! i) chosen).

(** Modelled from the spec: [eu.saveToPypet] (evolutionaryUtils is not among
    the sources).  The spec's Persist step: "hand generation g's genomes and
    scores to the PersistenceAdapter", which the core never reads back; the
    population is returned as it was given. *)
Definition saveToPypet (pop : list loc) (gIdx : Z) : M (list loc) :=
  rows ← list_comp (λ p, x ← deref p; mret (genes x, fitness_score x)) pop;
  modify (λ s, set_traj_generations (traj_generations s ++ [(gIdx, rows)]) s);;
  mret pop.

(** Modelled from the spec: [du.mutateUntilValid] (deapUtils is not among the
    sources).  The spec's Mutate step: "apply the mutation operator to every
    offspring", the operator being retried until the genome is within
    bounds; [mutate] of the toolbox stands for the operator with its
    retries.  It rewrites the genes of the offspring and nothing else. *)
Definition mutateUntilValid (offspring : list loc) : M unit :=
  for_each offspring (λ o,
    x ← deref o;
    g ← with_rng (mutate toolbox (genes x));
    update o (set_genes g)).

(** [del x.id] *)
Definition del_id (p : loc) : M unit :=
  _ ← getattr "id" ind_id p;
  update p (set_id None).

(** The body of the cross-over loop of [runEvolution], for one [i] of
    [range(1, len(offspring), 2)].  The mating operator rewrites the genes of
    its two arguments and returns them, so [offspring[i-1]] and
    [offspring[i]] keep referring to the same two objects. *)
Definition crossover (offspring : list loc) (i : nat) : M unit :=
  a ← index offspring (i - 1);
  b ← index offspring i;
  xa ← deref a;
  xb ← deref b;
  children ← with_rng (mate toolbox (genes xa) (genes xb));
  update a (set_genes children.1);;
  update b (set_genes children.2);;
  (* delete fitness inherited from parents *)
  update a del_fitness_values;;
  update b del_fitness_values;;
  (* assign parent IDs to new offspring *)
  ida ← getattr "id" ind_id a;
  idb ← getattr "id" ind_id b;
  update a (set_parentIds (Some (ida, idb)));;
  ida ← getattr "id" ind_id a;
  idb ← getattr "id" ind_id b;
  update b (set_parentIds (Some (ida, idb)));;
  (* delete id originally set from parents *)
  del_id a;;
  del_id b.

(** [self.<attr>] for an attribute of [self] that may not have been set. *)
Definition self_attr {A} (name : string) (field : Evolution → option A) : M A :=
  self ← get_self;
  match field self with
  | Some a => mret a
  | None => raise (AttributeError name)
  end.

Definition runInitial : M unit :=
  pop ← toolbox_population (POP_INIT_SIZE cfg);
  modify (set_pop pop);;
  modify (set_self_gIdx (Some 0));;
  pop ← tagPopulation pop;
  modify (set_pop pop);;
  pop ← evalPopulationUsingPypet pop 0;
  modify (set_pop pop);;
  pop ← saveToPypet pop 0;
  modify (set_pop pop);;
  pop ← call_selection (select toolbox) pop (POP_SIZE cfg);
  modify (set_pop pop);;
  modify (set_initialPopulationSimulated true);;
  modify (λ s, set_history (<[0 := pop]> (history s)) s).

(** The body of the loop of [runEvolution] for generation [g] (a run that
    is not verbose: [self.verbose] is [False] as constructed). *)
Definition generation (g : Z) : M unit :=
  modify (set_self_gIdx (Some g));;
  self ← get_self;
  validpop ← getValidPopulation (pop self);
  invalidpop ← getInvalidPopulation (pop self);
  newpop ← toolbox_population (Z.of_nat (length invalidpop));
  newpop ← tagPopulation newpop;
  (* select parents and clone them *)
  parents ← call_selection (selectParents toolbox) (pop self) (POP_SIZE cfg);
  offspring ← list_comp toolbox_clone parents;
  for_each (odd_positions (length offspring)) (crossover offspring);;
  mutateUntilValid offspring;;
  offspring ← tagPopulation offspring;
  (* evaluate next generation *)
  modify (set_pop (offspring ++ newpop));;
  _ ← evalPopulationUsingPypet (offspring ++ newpop) g;
  (* log individuals *)
  modify (λ s, set_history (<[g := validpop ++ offspring ++ newpop]> (history s)) s);;
  (* select next generation *)
  pop ← call_selection (select toolbox) (validpop ++ offspring ++ newpop) (POP_SIZE cfg);
  modify (set_pop pop);;
  pop ← saveToPypet pop g;
  modify (set_pop pop);;
  (* select best individual for logging *)
  best ← call_selection (λ xs k r, (selBest toolbox xs k, r)) pop 1;
  best_ind ← index best 0;
  modify (set_best_ind (Some best_ind));;
  _ ← getattr "score" fitness_score best_ind;
  mret ().

(** Python dictionaries iterate in insertion order; [history] is filled in
    increasing order of generation. *)
Definition history_items (h : gmap Z (list loc)) : list (Z * list loc) :=
  merge_sort key_le (map_to_list h).

Definition buildEvolutionTree : M unit :=
  modify (set_genealogy ∅ ∅ ∅);;
  self ← get_self;
  for_each (history_items (history self)) (λ '(gen, pop),
    for_each pop (λ p,
      x ← deref p;
      i ← getattr "id" ind_id p;
      modify (λ s, set_genealogy (<[i := parentIds x]> (tree s)) (id_genx s) (id_score s) s);;
      g ← getattr "gIdx" ind_gIdx p;
      modify (λ s, set_genealogy (tree s) (<[i := g]> (id_genx s)) (id_score s) s);;
      sc ← getattr "score" fitness_score p;
      modify (λ s, set_genealogy (tree s) (id_genx s) (<[i := sc]> (id_score s)) s))).

Definition runEvolution : M unit :=
  g0 ← self_attr "gIdx" gIdx;
  for_each (py_range (g0 + 1) (g0 + NGEN cfg)) generation;;
  _ ← self_attr "best_ind" best_ind;
  buildEvolutionTree.

Definition run : M unit :=
  self ← get_self;
  (if initialPopulationSimulated self then mret () else runInitial);;
  runEvolution.

(** [self.pop].  The attribute is first assigned at the start of
    [runInitial], together with [self.gIdx]; the record holds the population
    as a plain list, so the attribute is taken to exist when [gIdx] does. *)
Definition self_pop : M (list loc) :=
  self ← get_self;
  match gIdx self with
  | Some _ => mret (pop self)
  | None => raise (AttributeError "pop")
  end.

(** The argument of [getIndividualFromTraj]: an individual, or a pypet
    trajectory with the attributes [individual] and [id] of one run. *)
Inductive TrajArg :=
  | ArgIndividual (p : loc)
  | ArgTraj (individual : list float) (id : Z).

(** What [getIndividualFromTraj] returns: an individual, or the list of
    matches when that list is empty. *)
Inductive Lookup :=
  | AnIndividual (p : loc)
  | EmptyList.

Definition getIndividualFromTraj (traj : TrajArg) : M Lookup :=
  match traj with
  | ArgIndividual p => mret (AnIndividual p)
  | ArgTraj _ traj_id =>
      pop ← self_pop;
      individual ← list_comp_if
        (λ p, i ← getattr "id" ind_id p; mret (bool_decide (i = traj_id))) pop;
      match individual with
      | p :: _ => mret (AnIndividual p)
      | [] => mret EmptyList
      end
  end.

(** [d.update(other)], for [other] given in its iteration order. *)
Definition dict_update {V} (of_float : float → V) (d : gmap string V)
    (other : list (string * float)) : gmap string V :=
  foldl (λ m kv, <[kv.1 := of_float kv.2]> m) d other.

(** [getModelFromTraj].  [self.model] is the model given to the constructor
    ([None] by default).  Its parameter dictionary is passed in and the
    updated dictionary is returned: the method updates [self.model.params]
    in place and returns [self.model].  The entries of the dictionary have
    any type [V]; the genes enter it as floats.  The empty list that
    [getIndividualFromTraj] may return is sliced and unpacked like an
    individual. *)
Definition getModelFromTraj {V} (of_float : float → V)
    (model : option (gmap string V)) (traj : TrajArg) : M (gmap string V) :=
  model_params ← (match model with
                  | Some d => mret d
                  | None => raise (AttributeError "params")
                  end);
  individual ← getIndividualFromTraj traj;
  ind_dict ← (match individual with
              | AnIndividual p => x ← deref p; individualToDict x
              | EmptyList => individualToDict (new_Individual [])
              end);
  mret (dict_update of_float model_params ind_dict).

(** [getScores]: the entries of the array that is returned, as they are
    stored on the individuals (what [np.array] makes of the masked constant
    is outside the model). *)
Definition getScores : M (list Score) :=
  pop ← self_pop;
  validPop ← getValidPopulation pop;
  list_comp (λ i : nat, p ← index validPop i; getattr "score" fitness_score p)
    (seq 0 (length validPop)).

(** ** Specifications

    [wp m Q E s]: run from [s], the computation [m] either returns a value
    and a state that satisfy [Q], or raises an exception in a state that
    satisfies [E]. *)
Definition wp {A} (m : M A) (Q : A → Evolution → Prop)
    (E : PyError → Evolution → Prop) (s : Evolution) : Prop :=
  match m s with
  | (Returned a, s') => Q a s'
  | (Raised e, s') => E e s'
  end.

(** The exceptional postcondition of a computation that must return. *)
Definition no_raise : PyError → Evolution → Prop := λ _ _, False.

(** The exceptional postcondition that says nothing: used for what holds
    whenever a computation returns. *)
Definition may_raise : PyError → Evolution → Prop := λ _ _, True.

(** The validity test of the triage, for an individual whose fitness
    values can be read. *)
Definition is_invalid (x : Individual) : bool :=
  match invalid_fitness x with Returned b => b | Raised _ => false end.

Definition is_valid (x : Individual) : bool :=
  match invalid_fitness x with Returned b => negb b | Raised _ => false end.

(** The same on a reference into a store. *)
Definition invalid_at (h : list Individual) (p : loc) : bool :=
  from_option is_invalid false (h !! p).

Definition valid_at (h : list Individual) (p : loc) : bool :=
  from_option is_valid false (h !! p).

(** The individuals of [pop] exist and their fitness values can be read:
    no zero weight is met by a stored component. *)
Definition readable_at (h : list Individual) (p : loc) : bool :=
  from_option
    (λ x, match fitness_values x with Returned _ => true | Raised _ => false end)
    false (h !! p).

Definition readable (h : list Individual) (pop : list loc) : Prop :=
  Forall (λ p, readable_at h p) pop.

#[global] Instance readable_dec h pop : Decision (readable h pop).
Proof. unfold readable. apply _. Defined.

(** What one evaluation result makes of an individual. *)
Definition evaluated (fitnessesResult : list float) (returnedOutputs : Out)
    (x : Individual) : Individual :=
  let x1 := set_fitness_values fitnessesResult (set_outputs (Some returnedOutputs) x) in
  set_score (Some (masked_invalid_sum_div_len (fitness_wvalues x1))) x1.

(** Following the spec's words: "score = mean(maskedInvalidAsZero(fitness .*
    objectiveWeights))", the mean being over the configured objectives. *)
Definition spec_weighted_score (fitness : list float) : Score :=
  Unmasked (fdiv (np_sum (filled0 <$> zip_with fmul fitness (weightList cfg)))
              (float_of_Z (Z.of_nat (length (weightList cfg))))).

(** The message of the assertion of [tagPopulation]. *)
Definition already_tagged : string :=
  "Individual has an id already, will not overwrite it!".

(** What tagging with id [i] in generation [g] makes of an individual. *)
Definition tagged (i g : Z) (x : Individual) : Individual :=
  set_params (Some (zip (paramNames cfg) (take (length (paramNames cfg)) (genes x))))
    (set_simulation_stored (Some false) (set_gIdx (Some g) (set_id (Some i) x))).

(** The id of the individual behind a reference, if it has one. *)
Definition id_at (h : list Individual) (p : loc) : option Z :=
  h !! p ≫= ind_id.

(** A population that [tagPopulation] accepts: no individual in it twice,
    none with an id. *)
Definition taggable (h : list Individual) (pop : list loc) : Prop :=
  NoDup pop ∧ Forall (λ p, id_at h p = None) pop.

(** The individuals of [pop] exist and have a gene for every parameter. *)
Definition decodable (h : list Individual) (pop : list loc) : Prop :=
  Forall (λ p, ∃ x, h !! p = Some x ∧
                 (length (paramNames cfg) ≤ length (genes x))%nat) pop.

(** The state [s'] that tagging the population [pop] in generation [g]
    leaves, from the state [s]: the counter has advanced by the size of the
    population, the k-th individual is tagged with the k-th next counter
    value, no other individual is touched, and only the store and the
    counter have changed. *)
Definition tag_post (s : Evolution) (g : Z) (pop : list loc) (s' : Evolution) : Prop :=
  last_id s' = last_id s + Z.of_nat (length pop) ∧
  length (heap s') = length (heap s) ∧
  (∀ (k : nat) p x, pop !! k = Some p → heap s !! p = Some x →
     heap s' !! p = Some (tagged (last_id s + Z.of_nat k) g x)) ∧
  (∀ l, l ∉ pop → heap s' !! l = heap s !! l) ∧
  s' = set_last_id (last_id s') (set_heap (heap s') s).

(** Every id in the store was drawn from the counter, below [n]. *)
Definition ids_below (h : list Individual) (n : Z) : Prop :=
  ∀ l i, id_at h l = Some i → i < n.

(** No two individuals of the store have the same id. *)
Definition ids_distinct (h : list Individual) : Prop :=
  ∀ l1 l2 i, id_at h l1 = Some i → id_at h l2 = Some i → l1 = l2.

(** The messages of the assertions of [evalPopulationUsingPypet]. *)
Definition no_results : string := "No results returned from simulations.".
Definition bad_shape : string :=
  "Evaluation function must return tuple with shape (fitness, output_data)".

(** A population that can be submitted: its individuals exist and have ids. *)
Definition submittable (h : list Individual) (pop : list loc) : Prop :=
  Forall (λ p, ∃ x i, h !! p = Some x ∧ ind_id x = Some i) pop.

(** [[x.id for x in pop]] and [[list(x) for x in pop]] on a store. *)
Definition ids_of (h : list Individual) (pop : list loc) : list Z :=
  omap (id_at h) pop.
Definition genomes_of (h : list Individual) (pop : list loc) : list (list float) :=
  omap (λ p, genes <$> h !! p) pop.

(** What the backend answers to the submission of [pop] in generation [g],
    from the state [s]. *)
Definition backend_results (g : Z) (pop : list loc) (s : Evolution)
    : list (Z * Packed Out) :=
  (map_evaluate toolbox g (zip (ids_of (heap s) pop) (genomes_of (heap s) pop))
     (rng s)).1.

(** The state in which the loop over the results starts. *)
Definition submitted (g : Z) (pop : list loc) (s : Evolution) : Evolution :=
  let sub := zip (ids_of (heap s) pop) (genomes_of (heap s) pop) in
  set_rng (map_evaluate toolbox g sub (rng s)).2
    (set_evaluationCounter (evaluationCounter s + Z.of_nat (length pop))
       (set_traj_runs (traj_runs s ++ ((λ r, (g, r.1, r.2)) <$> sub)) s)).

(** Every result is a (fitness, outputs) pair. *)
Definition well_packed (rs : list (Z * Packed Out)) : Prop :=
  Forall (λ r, ∃ f o, r.2 = Pack2 f o) rs.

(** The store after the loop over the results [rs], entered at position [k]
    of the population, has run until its end or until it raised. *)
Fixpoint written (pop : list loc) (k : nat) (rs : list (Z * Packed Out))
    (h : list Individual) : list Individual :=
  match rs with
  | [] => h
  | (_, Pack2 f o) :: rs' =>
      match pop !! k with
      | Some p => written pop (S k) rs' (alter (evaluated f o) p h)
      | None => h
      end
  | (_, PackOther _) :: _ => h
  end.

(** What the cross-over loop makes of a child: the genes the mating operator
    gave it, no fitness values, the ids of the two parents of its pair as
    [parentIds], and no id of its own. *)
Definition crossed (g : list float) (ida idb : Z) (x : Individual) : Individual :=
  set_id None (set_parentIds (Some (ida, idb)) (del_fitness_values (set_genes g x))).

(** The state [s'] that the cross-over loop over [offspring] leaves, from
    the state [s]. *)
Definition crossover_post (offspring : list loc) (s s' : Evolution) : Prop :=
  length (heap s') = length (heap s) ∧
  s' = set_rng (rng s') (set_heap (heap s') s) ∧
  (∀ l, l ∉ take (2 * (length offspring / 2)) offspring →
     heap s' !! l = heap s !! l) ∧
  (∀ (j : nat) a b xa xb ida idb,
     offspring !! (2 * j)%nat = Some a →
     offspring !! (2 * j + 1)%nat = Some b →
     heap s !! a = Some xa → heap s !! b = Some xb →
     ind_id xa = Some ida → ind_id xb = Some idb →
     ∃ r, let children := (mate toolbox (genes xa) (genes xb) r).1 in
          heap s' !! a = Some (crossed children.1 ida idb xa) ∧
          heap s' !! b = Some (crossed children.2 ida idb xb)).

(** What no evaluation changes in an individual. *)
Definition keeps_identity (x x' : Individual) : Prop :=
  ind_id x' = ind_id x ∧ parentIds x' = parentIds x ∧
  ind_gIdx x' = ind_gIdx x ∧ genes x' = genes x.

(** The state [s'] that an evaluation of [pop] leaves, from the state [s],
    whatever the backend returned: the individuals keep their identity,
    those outside [pop] are untouched, and of [self] only the evaluation
    counter, the generator state and the explored runs have changed. *)
Definition eval_post (pop : list loc) (s s' : Evolution) : Prop :=
  length (heap s') = length (heap s) ∧
  (∃ tr ec r, s' = set_heap (heap s')
                     (set_rng r (set_evaluationCounter ec (set_traj_runs tr s)))) ∧
  ∀ l x, heap s !! l = Some x →
    ∃ x', heap s' !! l = Some x' ∧ keeps_identity x x' ∧ (l ∉ pop → x' = x).

(** The state [s'] that a generation [g] that returns leaves, from the state
    [s]: with [base] the size of the store, the replacements are the new
    objects at [base, base + number of invalid individuals), the offspring
    are the new objects after them, and
    - the history entry of [g] and the pool given to the survivor selection
      are the valid individuals of the population, then the offspring, then
      the replacements;
    - the new population is drawn from that pool and is tagged;
    - the objects that existed before are as they were;
    - the replacements have no [parentIds] and generated genes;
    - one generation has been handed to the trajectory;
    - ids are still below the counter and pairwise distinct. *)
Definition generation_post (g : Z) (s s' : Evolution) : Prop :=
  let base := length (heap s) in
  let validpop := filter (λ p, valid_at (heap s) p) (pop s) in
  let invalidpop := filter (λ p, invalid_at (heap s) p) (pop s) in
  ∃ n_off : nat,
    let newpop := seq base (length invalidpop) in
    let offspring := seq (base + length invalidpop) n_off in
    history s' = <[g := validpop ++ offspring ++ newpop]> (history s) ∧
    pop s' ⊆ validpop ++ offspring ++ newpop ∧
    submittable (heap s') (pop s') ∧
    length (heap s') = (base + length invalidpop + n_off)%nat ∧
    (∀ l x, heap s !! l = Some x → heap s' !! l = Some x) ∧
    (∀ p, p ∈ newpop →
       ∃ x, heap s' !! p = Some x ∧ parentIds x = None ∧
            ind_gIdx x = Some g ∧ is_Some (ind_id x) ∧
            ∃ r, genes x = (individualGenerator toolbox r).1) ∧
    (∀ p, p ∈ offspring →
       ∃ x, heap s' !! p = Some x ∧ ind_gIdx x = Some g ∧ is_Some (ind_id x)) ∧
    gIdx s' = Some g ∧
    (∃ rows, traj_generations s' = traj_generations s ++ [(g, rows)]) ∧
    (ids_below (heap s) (last_id s) → ids_distinct (heap s) →
       ids_below (heap s') (last_id s') ∧ ids_distinct (heap s')).

(** The computation [m] writes no entry of the history but that of [g],
    whether it returns or raises. *)
Definition keeps_history (g : Z) {A} (m : M A) : Prop :=
  ∀ s, wp m (λ _ s', ∀ k, k ≠ g → history s' !! k = history s !! k)
            (λ _ s', ∀ k, k ≠ g → history s' !! k = history s !! k) s.

(** The computation [m] leaves the observation [f] of the state as it is,
    whether it returns or raises. *)
Definition preserves {X A} (f : Evolution → X) (m : M A) : Prop :=
  ∀ s, wp m (λ _ s', f s' = f s) (λ _ s', f s' = f s) s.

(** What [runInitial] writes last: the flag and the history. *)
Definition bootstrap_record (s : Evolution) : bool * gmap Z (list loc) :=
  (initialPopulationSimulated s, history s).

End Evolution.

#[global] Existing Instance sequential_sum.

(** * A small run, for examples

    Out = Z; the state of the "random" operators is the script of what the
    backend will answer, call after call.  The operators are deterministic:
    every generated genome is [1.0]; parents are the first [k] individuals;
    mating and mutation leave the genes as they are; the survivors are the
    last [k] candidates (the newest); the best is the first individual. *)

Abbreviation Script := (list (list (Z * Packed Z))) (only parsing).

Definition demo_first (k : Z) : list nat := seq 0 (Z.to_nat k).

Definition demo_last (len : nat) (k : Z) : list nat :=
  seq (len - Z.to_nat k) (Z.to_nat k).

Definition demo_toolbox : @Toolbox Z Script :=
  mkToolbox
    (λ r, ([float_of_Z 1], r))
    (λ xs k r, (demo_first k, r))
    (λ a b r, ((a, b), r))
    (λ a r, (a, r))
    (λ xs k r, (demo_last (length xs) k, r))
    (λ xs k, demo_first k)
    (λ g submission r, match r with [] => ([], []) | x :: r' => (x, r') end).

(** One objective, to be maximised; populations of 4 then 2; one parameter. *)
Definition demo_cfg (ngen : Z) : Config :=
  mkConfig [float_of_Z 1] ngen 2 ["a"%string] 4.

(** A result with a finite fitness, and one with a NaN fitness. *)
Definition demo_ok (runIndex v : Z) : Z * Packed Z :=
  (runIndex, Pack2 [float_of_Z v] (100 + runIndex)).
Definition demo_nan (runIndex : Z) : Z * Packed Z :=
  (runIndex, Pack2 [NaN] (100 + runIndex)).

(** A tagged population of [n] new individuals (the first steps of
    [runInitial]), with the given script for the backend. *)
Definition demo_tagged (n : Z) (script : Script) : @Evolution Z Script :=
  ((pop ← toolbox_population demo_toolbox n;
    modify (set_pop pop);;
    modify (set_self_gIdx (Some 0));;
    tagPopulation (demo_cfg 3) pop) (init_Evolution script)).2.

(** The script of a run of three generations: one NaN among the four
    initial individuals, one NaN among the offspring of generation 1. *)
Definition demo_script : Script :=
  [ [demo_ok 0 1; demo_ok 1 2; demo_nan 2; demo_ok 3 4];
    [demo_ok 4 5; demo_nan 5; demo_ok 6 6];
    [demo_ok 7 7; demo_ok 8 8; demo_ok 9 9] ].

(** The state after [runInitial], and after the first generation. *)
Definition demo_initial : @Evolution Z Script := Eval vm_compute in
    (runInitial (demo_cfg 3) demo_toolbox (init_Evolution demo_script)).2.

Definition demo_generation1 : @Evolution Z Script := Eval vm_compute in
    (generation (demo_cfg 3) demo_toolbox 1 demo_initial).2.

(** The state at the end of the run. *)
Definition demo_final : @Evolution Z Script := Eval vm_compute in
    (runEvolution (demo_cfg 3) demo_toolbox demo_initial).2.


(** Two tagged individuals whose results come back in the other order. *)
Definition demo_swapped : @Evolution Z Script := Eval vm_compute in
    demo_tagged 2 [ [demo_ok 1 5; demo_ok 0 7] ].

(** Four tagged individuals and three results. *)
Definition demo_short : @Evolution Z Script := Eval vm_compute in
    demo_tagged 4 [ [demo_ok 0 1; demo_ok 1 2; demo_ok 2 3] ].

(** One tagged individual whose only fitness component is NaN. *)
Definition demo_all_nan : @Evolution Z Script := Eval vm_compute in
    demo_tagged 1 [ [demo_nan 0] ].

(** The three of them after their evaluation. *)
Definition demo_swapped_evaluated : @Evolution Z Script := Eval vm_compute in
    (evalPopulationUsingPypet (demo_cfg 3) demo_toolbox (pop demo_swapped) 0
       demo_swapped).2.

Definition demo_short_evaluated : @Evolution Z Script := Eval vm_compute in
    (evalPopulationUsingPypet (demo_cfg 3) demo_toolbox (pop demo_short) 0
       demo_short).2.

Definition demo_all_nan_evaluated : @Evolution Z Script := Eval vm_compute in
    (evalPopulationUsingPypet (demo_cfg 3) demo_toolbox (pop demo_all_nan) 0
       demo_all_nan).2.

(** A run of two generations and a second run after it: the script
    answers the bootstrap (four individuals) and two later generations (two
    offspring each). *)
Definition demo_script2 : Script :=
  [ [demo_ok 0 1; demo_ok 1 2; demo_ok 2 3; demo_ok 3 4];
    [demo_ok 4 5; demo_ok 5 6];
    [demo_ok 6 7; demo_ok 7 8] ].

Definition demo_run1 : @Evolution Z Script := Eval vm_compute in
    (run (demo_cfg 2) demo_toolbox (init_Evolution demo_script2)).2.

Definition demo_run2 : @Evolution Z Script := Eval vm_compute in
    (run (demo_cfg 2) demo_toolbox demo_run1).2.

(** Two tagged individuals; the second result is a tuple of three. *)
Definition demo_malformed : @Evolution Z Script := Eval vm_compute in
    demo_tagged 2 [ [demo_ok 0 1; (1, PackOther 3)] ].

(** Two tagged individuals and a backend that returns nothing. *)
Definition demo_unanswered : @Evolution Z Script := Eval vm_compute in
    demo_tagged 2 [].

(** One objective with the weight [0.0], and one tagged individual
    evaluated with the fitness [5.0] under it. *)
Definition demo_cfg_zero : Config :=
  mkConfig [float_of_Z 0] 3 2 ["a"%string] 4.

Definition demo_zero_weight : @Evolution Z Script := Eval vm_compute in
    demo_tagged 1 [ [demo_ok 0 5] ].

Definition demo_zero_weight_evaluated : @Evolution Z Script := Eval vm_compute in
    (evalPopulationUsingPypet demo_cfg_zero demo_toolbox (pop demo_zero_weight) 0
       demo_zero_weight).2.


(** * Proofs *)

Section Proofs.

Context {Out R : Type} {numpy : Numpy}.
Variable cfg : Config.
Variable toolbox : @Toolbox Out R.

Implicit Types (s : @Evolution Out R) (x : @Individual Out) (p l : loc).
Implicit Types (pop : list loc) (h : list (@Individual Out)).

(** ** Rules of the specification logic *)

Lemma wp_ret {A} (a : A) Q E s : wp (mret a) Q E s ↔ Q a s.
Proof. reflexivity. Qed.

Lemma wp_bind {A B} (m : M A) (f : A → M B) Q E s :
  wp (m ≫= f) Q E s ↔ wp m (λ a s', wp (f a) Q E s') E s.
Proof. unfold wp, mbind, M_bind. by destruct (m s) as [[a|e] s']. Qed.

Lemma wp_mono {A} (m : M A) (Q Q' : A → Evolution → Prop) (E E' : PyError → Evolution → Prop) s :
  wp m Q E s →
  (∀ a s', Q a s' → Q' a s') →
  (∀ e s', E e s' → E' e s') →
  wp m Q' E' s.
Proof. unfold wp. destruct (m s) as [[a|e] s']; auto. Qed.

Lemma wp_raise {A} e (Q : A → Evolution → Prop) E s : wp (raise e) Q E s ↔ E e s.
Proof. reflexivity. Qed.

Lemma wp_get_self Q E s : wp get_self Q E s ↔ Q s s.
Proof. reflexivity. Qed.

Lemma wp_modify f Q E s : wp (modify f) Q E s ↔ Q () (f s).
Proof. reflexivity. Qed.

Lemma wp_assert b msg Q E s :
  wp (py_assert b msg) Q E s ↔ if b then Q () s else E (AssertionError msg) s.
Proof. by destruct b. Qed.

Lemma wp_deref l Q E s :
  wp (deref l) Q E s ↔
  match heap s !! l with Some x => Q x s | None => E DanglingReference s end.
Proof. unfold wp, deref. by destruct (heap s !! l). Qed.

Lemma wp_update l f Q E s :
  wp (update l f) Q E s ↔ Q () (set_heap (alter f l (heap s)) s).
Proof. reflexivity. Qed.

Lemma wp_alloc x Q E s :
  wp (alloc x) Q E s ↔ Q (length (heap s)) (set_heap (heap s ++ [x]) s).
Proof. reflexivity. Qed.

Lemma wp_index {A} (xs : list A) i Q E s :
  wp (index xs i) Q E s ↔
  match xs !! i with Some a => Q a s | None => E IndexError s end.
Proof. unfold wp, index. by destruct (xs !! i). Qed.

Lemma wp_getattr {A} name (field : Individual → option A) l Q E s :
  wp (getattr name field l) Q E s ↔
  match heap s !! l with
  | Some x =>
      match field x with
      | Some a => Q a s
      | None => E (AttributeError name) s
      end
  | None => E DanglingReference s
  end.
Proof.
  unfold getattr. rewrite wp_bind, wp_deref.
  destruct (heap s !! l) as [x|]; [|done]. by destruct (field x).
Qed.

Lemma wp_self_attr {A} name (field : Evolution → option A) Q E s :
  wp (self_attr name field) Q E s ↔
  match field s with Some a => Q a s | None => E (AttributeError name) s end.
Proof.
  unfold self_attr. rewrite wp_bind, wp_get_self. by destruct (field s).
Qed.

Lemma wp_with_rng {A} (f : R → A * R) Q E s :
  wp (with_rng f) Q E s ↔ Q (f (rng s)).1 (set_rng (f (rng s)).2 s).
Proof. unfold wp, with_rng. by destruct (f (rng s)). Qed.

Lemma wp_for_each_nil {A} (body : A → M unit) Q E s :
  wp (for_each [] body) Q E s ↔ Q () s.
Proof. reflexivity. Qed.

Lemma wp_for_each_cons {A} (a : A) xs (body : A → M unit) Q E s :
  wp (for_each (a :: xs) body) Q E s ↔
  wp (body a) (λ _ s', wp (for_each xs body) Q E s') E s.
Proof. simpl. apply wp_bind. Qed.

(** A computation that meets [Q] and cannot raise, returns. *)
Lemma wp_returns {A} (m : M A) Q s :
  wp m Q no_raise s → ∃ a s', m s = (Returned a, s') ∧ Q a s'.
Proof. unfold wp. destruct (m s) as [[a|e] s']; [eauto | done]. Qed.

Lemma wp_of_eq {A} (m : M A) s out s' Q E :
  m s = (out, s') →
  wp m Q E s →
  match out with Returned a => Q a s' | Raised e => E e s' end.
Proof. unfold wp. by intros ->. Qed.

(** An invariant of the body is an invariant of the loop. *)
Lemma wp_for_each_inv {A} (J : Evolution → Prop) (E : PyError → Evolution → Prop)
    (xs : list A) (body : A → M unit) s :
  (∀ a s0, a ∈ xs → J s0 → wp (body a) (λ _, J) E s0) →
  J s →
  wp (for_each xs body) (λ _, J) E s.
Proof.
  revert s. induction xs as [|a xs IH]; intros s Hbody HJ; [done|].
  rewrite wp_for_each_cons. eapply wp_mono.
  - apply Hbody; [apply list_elem_of_here | done].
  - intros [] s' HJ'. apply IH; [|done].
    intros a' s0 Ha'. apply Hbody. by apply list_elem_of_further.
  - done.
Qed.

(** ** Triage: [getValidPopulation] and [getInvalidPopulation] *)

(** ** Reading the fitness values *)

Lemma wp_of_outcome {A} (o : Outcome A) Q E s :
  wp (of_outcome o) Q E s ↔
  match o with Returned a => Q a s | Raised e => E e s end.
Proof. unfold wp, of_outcome. by destruct o. Qed.

Lemma truediv_nonzero v w : is_zero w = false → truediv v w = Returned (fdiv v w).
Proof. unfold truediv. by intros ->. Qed.

(** [tuple(map(truediv, xs, ys))] is the list of the quotients when no
    divisor that is reached is zero, and raises ZeroDivisionError when one
    is. *)
Lemma map_truediv_spec (xs ys : list float) :
  match map_truediv xs ys with
  | Returned qs =>
      qs = zip_with fdiv xs ys ∧
      ∀ (i : nat) v w, xs !! i = Some v → ys !! i = Some w → is_zero w = false
  | Raised e =>
      e = ZeroDivisionError ∧
      ∃ (i : nat) v w, xs !! i = Some v ∧ ys !! i = Some w ∧ is_zero w = true
  end.
Proof.
  revert ys. induction xs as [|v xs IH]; intros [|w ys]; simpl; try done.
  unfold truediv. destruct (is_zero w) eqn:Hw.
  - split; [done|]. by exists 0%nat, v, w.
  - specialize (IH ys). destruct (map_truediv xs ys) as [qs|e].
    + destruct IH as [-> Hnz]. split; [done|].
      intros [|i] v' w' Hv Hw'; simpl in *; [by simplify_eq | by eapply Hnz].
    + destruct IH as (-> & i & v' & w' & Hv & Hw' & Hz). split; [done|].
      by exists (S i), v', w'.
Qed.

Lemma map_truediv_nonzero (xs ys : list float) :
  Forall (λ w, is_zero w = false) ys →
  map_truediv xs ys = Returned (zip_with fdiv xs ys).
Proof.
  intros Hys. pose proof (map_truediv_spec xs ys) as H.
  destruct (map_truediv xs ys) as [qs|e].
  - by destruct H as [-> _].
  - destruct H as (_ & i & v & w & _ & Hw & Hz).
    rewrite Forall_forall in Hys.
    rewrite Hys in Hz by (by eapply list_elem_of_lookup_2). done.
Qed.

Lemma fitness_values_raised x e :
  fitness_values cfg x = Raised e → e = ZeroDivisionError.
Proof.
  unfold fitness_values. intros He.
  pose proof (map_truediv_spec (fitness_wvalues x) (weightList cfg)) as H.
  rewrite He in H. by destruct H.
Qed.

Lemma invalid_fitness_raised x e :
  invalid_fitness cfg x = Raised e → e = ZeroDivisionError.
Proof.
  unfold invalid_fitness. destruct (fitness_values cfg x) eqn:Hv; [done|].
  intros [= <-]. by eapply fitness_values_raised.
Qed.

Lemma existsb_false_iff {A} (f : A → bool) (xs : list A) :
  existsb f xs = false ↔ ∀ a, a ∈ xs → f a = false.
Proof.
  induction xs as [|a xs IH]; simpl.
  - split; [|done]. intros _ a Ha. by apply not_elem_of_nil in Ha.
  - rewrite orb_false_iff, IH. split.
    + intros [Ha Hxs] b Hb. apply elem_of_cons in Hb as [->|Hb]; auto.
    + intros Hall. split; [apply Hall; left | intros b Hb; apply Hall; by right].
Qed.

Lemma existsb_true_iff {A} (f : A → bool) (xs : list A) :
  existsb f xs = true ↔ ∃ a, a ∈ xs ∧ f a = true.
Proof.
  induction xs as [|a xs IH]; simpl.
  - split; [done|]. intros (a & Ha & _). by apply not_elem_of_nil in Ha.
  - rewrite orb_true_iff, IH. split.
    + intros [Ha | (b & Hb & Hfb)].
      * exists a. split; [left | done].
      * exists b. split; [by right | done].
    + intros (b & Hb & Hfb). apply elem_of_cons in Hb as [->|Hb]; eauto.
Qed.

Lemma invalid_fitness_true x vals :
  fitness_values cfg x = Returned vals →
  is_invalid cfg x = true ↔
  ∃ v, v ∈ vals ∧ (isnan v = true ∨ isinf v = true).
Proof.
  intros Hv. unfold is_invalid, invalid_fitness. rewrite Hv.
  rewrite orb_true_iff, !existsb_true_iff. naive_solver.
Qed.

Lemma invalid_fitness_false x vals :
  fitness_values cfg x = Returned vals →
  is_valid cfg x = true ↔
  ∀ v, v ∈ vals → isnan v = false ∧ isinf v = false.
Proof.
  intros Hv. unfold is_valid, invalid_fitness. rewrite Hv.
  rewrite negb_true_iff, orb_false_iff, !existsb_false_iff. naive_solver.
Qed.

Lemma is_valid_not_invalid x vals :
  fitness_values cfg x = Returned vals →
  is_valid cfg x = negb (is_invalid cfg x).
Proof. intros Hv. unfold is_valid, is_invalid, invalid_fitness. by rewrite Hv. Qed.

Lemma readable_at_Some h p :
  readable_at cfg h p ↔
  ∃ x vals, h !! p = Some x ∧ fitness_values cfg x = Returned vals.
Proof.
  unfold readable_at. destruct (h !! p) as [x|]; simpl.
  - destruct (fitness_values cfg x) as [vals|e] eqn:Hv; simpl.
    + split; [eauto | done].
    + split; [done|]. intros (? & ? & ? & ?). congruence.
  - split; [done|]. by intros (? & ? & ? & ?).
Qed.

Lemma readable_live h pop :
  readable cfg h pop → Forall (λ p, is_Some (h !! p)) pop.
Proof.
  intros Hr. eapply Forall_impl; [exact Hr|]. intros p Hp. simpl in Hp.
  apply readable_at_Some in Hp as (x & _ & -> & _). eauto.
Qed.

(** With no zero weight, every fitness can be read. *)
Lemma readable_nonzero_weights h pop :
  Forall (λ w, is_zero w = false) (weightList cfg) →
  Forall (λ p, is_Some (h !! p)) pop →
  readable cfg h pop.
Proof.
  intros Hws Hlive. eapply Forall_impl; [exact Hlive|]. intros p [x Hx]. simpl.
  apply readable_at_Some. exists x, (zip_with fdiv (fitness_wvalues x) (weightList cfg)).
  split; [done|]. by apply map_truediv_nonzero.
Qed.

(** ** The triage *)

Lemma getValidPopulation_readable pop s :
  readable cfg (heap s) pop →
  getValidPopulation cfg pop s = (Returned (filter (valid_at cfg (heap s)) pop), s).
Proof.
  induction 1 as [|p pop Hp _ IH]; [done|].
  apply readable_at_Some in Hp as (x & vals & Hx & Hv).
  unfold getValidPopulation in *. cbn [list_comp_if].
  unfold mbind at 1, M_bind at 1.
  unfold mbind at 1, M_bind at 1, deref at 1. rewrite Hx.
  unfold mbind at 1, M_bind at 1, of_outcome at 1, invalid_fitness at 1.
  rewrite Hv. cbn [mret M_ret].
  unfold mbind at 1, M_bind at 1. rewrite IH. cbn [mret M_ret].
  assert (Hva : valid_at cfg (heap s) p
                = negb (existsb isnan vals || existsb isinf vals)).
  { unfold valid_at. rewrite Hx. simpl. unfold is_valid, invalid_fitness.
    by rewrite Hv. }
  rewrite filter_cons, Hva.
  by destruct (existsb isnan vals || existsb isinf vals).
Qed.

Lemma getInvalidPopulation_readable pop s :
  readable cfg (heap s) pop →
  getInvalidPopulation cfg pop s
  = (Returned (filter (invalid_at cfg (heap s)) pop), s).
Proof.
  induction 1 as [|p pop Hp _ IH]; [done|].
  apply readable_at_Some in Hp as (x & vals & Hx & Hv).
  unfold getInvalidPopulation in *. cbn [list_comp_if].
  unfold mbind at 1, M_bind at 1.
  unfold mbind at 1, M_bind at 1, deref at 1. rewrite Hx.
  unfold of_outcome at 1, invalid_fitness at 1. rewrite Hv.
  unfold mbind at 1, M_bind at 1. rewrite IH. cbn [mret M_ret].
  assert (Hva : invalid_at cfg (heap s) p
                = (existsb isnan vals || existsb isinf vals)).
  { unfold invalid_at. rewrite Hx. simpl. unfold is_invalid, invalid_fitness.
    by rewrite Hv. }
  rewrite filter_cons, Hva.
  by destruct (existsb isnan vals || existsb isinf vals).
Qed.

Lemma getValidPopulation_unreadable pop s :
  Forall (λ p, is_Some (heap s !! p)) pop →
  ¬ readable cfg (heap s) pop →
  getValidPopulation cfg pop s = (Raised ZeroDivisionError, s).
Proof.
  induction 1 as [|p pop [x Hx] _ IH]; intros Hnot.
  - exfalso. apply Hnot. constructor.
  - unfold getValidPopulation in *. cbn [list_comp_if].
    unfold mbind at 1, M_bind at 1.
    unfold mbind at 1, M_bind at 1, deref at 1. rewrite Hx.
    unfold mbind at 1, M_bind at 1, of_outcome at 1.
    destruct (invalid_fitness cfg x) as [b|e] eqn:Hb.
    + cbn [mret M_ret]. unfold mbind at 1, M_bind at 1. rewrite IH; [done|].
      intros Hrest. apply Hnot. constructor; [|done].
      apply readable_at_Some. unfold invalid_fitness in Hb.
      destruct (fitness_values cfg x) as [vals|] eqn:Hv; [eauto | done].
    + by rewrite (invalid_fitness_raised _ _ Hb).
Qed.

Lemma getInvalidPopulation_unreadable pop s :
  Forall (λ p, is_Some (heap s !! p)) pop →
  ¬ readable cfg (heap s) pop →
  getInvalidPopulation cfg pop s = (Raised ZeroDivisionError, s).
Proof.
  induction 1 as [|p pop [x Hx] _ IH]; intros Hnot.
  - exfalso. apply Hnot. constructor.
  - unfold getInvalidPopulation in *. cbn [list_comp_if].
    unfold mbind at 1, M_bind at 1.
    unfold mbind at 1, M_bind at 1, deref at 1. rewrite Hx.
    unfold of_outcome at 1.
    destruct (invalid_fitness cfg x) as [b|e] eqn:Hb.
    + unfold mbind at 1, M_bind at 1. rewrite IH; [done|].
      intros Hrest. apply Hnot. constructor; [|done].
      apply readable_at_Some. unfold invalid_fitness in Hb.
      destruct (fitness_values cfg x) as [vals|] eqn:Hv; [eauto | done].
    + by rewrite (invalid_fitness_raised _ _ Hb).
Qed.

(** The triage as the generation uses it: when it returns, the fitness
    values of the population could be read. *)
Lemma wp_getValidPopulation pop s :
  wp (getValidPopulation cfg pop)
    (λ r s', s' = s ∧ readable cfg (heap s) pop ∧
             r = filter (valid_at cfg (heap s)) pop)
    may_raise s.
Proof.
  unfold getValidPopulation.
  induction pop as [|p pop IH];
    [split; [done|]; split; [constructor | done]|].
  cbn [list_comp_if]. rewrite wp_bind, wp_bind, wp_deref.
  destruct (heap s !! p) as [x|] eqn:Hx; [|done].
  rewrite wp_bind, wp_of_outcome.
  destruct (invalid_fitness cfg x) as [b|e] eqn:Hb; [|done].
  rewrite wp_ret, wp_bind. eapply wp_mono; [exact IH | | done].
  intros ys s' (-> & Hr & ->). rewrite wp_ret. split; [done|].
  assert (Hv : ∃ vals, fitness_values cfg x = Returned vals).
  { unfold invalid_fitness in Hb. destruct (fitness_values cfg x); [eauto | done]. }
  destruct Hv as [vals Hv]. split.
  - constructor; [|done]. apply readable_at_Some. eauto.
  - assert (Hva : valid_at cfg (heap s) p = negb b).
    { unfold valid_at. rewrite Hx. simpl. unfold is_valid. by rewrite Hb. }
    rewrite filter_cons, Hva. by destruct b.
Qed.

Lemma wp_getInvalidPopulation pop s :
  wp (getInvalidPopulation cfg pop)
    (λ r s', s' = s ∧ readable cfg (heap s) pop ∧
             r = filter (invalid_at cfg (heap s)) pop)
    may_raise s.
Proof.
  unfold getInvalidPopulation.
  induction pop as [|p pop IH];
    [split; [done|]; split; [constructor | done]|].
  cbn [list_comp_if]. rewrite wp_bind, wp_bind, wp_deref.
  destruct (heap s !! p) as [x|] eqn:Hx; [|done].
  rewrite wp_of_outcome.
  destruct (invalid_fitness cfg x) as [b|e] eqn:Hb; [|done].
  rewrite wp_bind. eapply wp_mono; [exact IH | | done].
  intros ys s' (-> & Hr & ->). rewrite wp_ret. split; [done|].
  assert (Hv : ∃ vals, fitness_values cfg x = Returned vals).
  { unfold invalid_fitness in Hb. destruct (fitness_values cfg x); [eauto | done]. }
  destruct Hv as [vals Hv]. split.
  - constructor; [|done]. apply readable_at_Some. eauto.
  - assert (Hva : invalid_at cfg (heap s) p = b).
    { unfold invalid_at. rewrite Hx. simpl. unfold is_invalid. by rewrite Hb. }
    rewrite filter_cons, Hva. by destruct b.
Qed.

Lemma valid_at_not_invalid_at h p :
  readable_at cfg h p → (valid_at cfg h p ↔ ¬ invalid_at cfg h p).
Proof.
  intros Hp. apply readable_at_Some in Hp as (x & vals & Hx & Hv).
  unfold valid_at, invalid_at. rewrite Hx. simpl.
  rewrite (is_valid_not_invalid x vals Hv).
  destruct (is_invalid cfg x); simpl; naive_solver.
Qed.

Lemma filter_invalid_complement h pop :
  readable cfg h pop →
  filter (invalid_at cfg h) pop = filter (λ p, ¬ valid_at cfg h p) pop.
Proof.
  induction 1 as [|p pop Hp _ IH]; [done|].
  rewrite !filter_cons, IH.
  apply (valid_at_not_invalid_at h p) in Hp.
  repeat case_decide; naive_solver.
Qed.

(** C10.  On a population of live individuals whose fitness values can be
    read, the two triage functions return, without changing the state, two
    lists that partition the population: a member is in the valid list iff
    no component of its fitness values is NaN or Inf and in the invalid list
    iff some component is; no member is in both; both lists keep the order
    of the population (they are sublists of it); together they are a
    rearrangement of it, and their lengths add up to its length.  The
    fitness values can be read when no weight is zero.  When those of some
    member cannot, because a zero weight meets one of its stored
    components, both functions raise ZeroDivisionError and return no
    list. *)
Theorem getValid_getInvalid_partition pop s :
  Forall (λ p, is_Some (heap s !! p)) pop →
  (readable cfg (heap s) pop →
   ∃ valid invalid,
     getValidPopulation cfg pop s = (Returned valid, s) ∧
     getInvalidPopulation cfg pop s = (Returned invalid, s) ∧
     (∀ p x, p ∈ pop → heap s !! p = Some x →
       ∃ vals, fitness_values cfg x = Returned vals ∧
         (p ∈ valid ↔
            ∀ v, v ∈ vals → isnan v = false ∧ isinf v = false) ∧
         (p ∈ invalid ↔
            ∃ v, v ∈ vals ∧ (isnan v = true ∨ isinf v = true))) ∧
     (∀ p, p ∈ pop → (p ∈ valid ∨ p ∈ invalid) ∧ ¬ (p ∈ valid ∧ p ∈ invalid)) ∧
     valid `sublist_of` pop ∧
     invalid `sublist_of` pop ∧
     valid ++ invalid ≡ₚ pop ∧
     (length valid + length invalid = length pop)%nat) ∧
  (Forall (λ w, is_zero w = false) (weightList cfg) →
     readable cfg (heap s) pop) ∧
  (¬ readable cfg (heap s) pop →
     getValidPopulation cfg pop s = (Raised ZeroDivisionError, s) ∧
     getInvalidPopulation cfg pop s = (Raised ZeroDivisionError, s)) ∧
  (∀ p x, heap s !! p = Some x →
     (readable_at cfg (heap s) p ↔
      ∀ (i : nat) v w, fitness_wvalues x !! i = Some v →
        weightList cfg !! i = Some w → is_zero w = false)).
Proof.
  intros Hlive.
  split; [|split; [|split]].
  - intros Hread.
    exists (filter (valid_at cfg (heap s)) pop), (filter (invalid_at cfg (heap s)) pop).
    split; [by apply getValidPopulation_readable|].
    split; [by apply getInvalidPopulation_readable|].
    assert (Hmem : ∀ p x, p ∈ pop → heap s !! p = Some x →
      ∃ vals, fitness_values cfg x = Returned vals ∧
      (p ∈ filter (valid_at cfg (heap s)) pop ↔ is_valid cfg x = true) ∧
      (p ∈ filter (invalid_at cfg (heap s)) pop ↔ is_invalid cfg x = true)).
    { intros p x Hp Hx.
      assert (Hrp : readable_at cfg (heap s) p).
      { unfold readable in Hread. rewrite Forall_forall in Hread. by apply Hread. }
      apply readable_at_Some in Hrp as (x' & vals & Hx' & Hv).
      assert (x' = x) by congruence. subst x'.
      exists vals. split; [done|]. rewrite !list_elem_of_filter.
      unfold valid_at, invalid_at. rewrite Hx. simpl.
      destruct (is_valid cfg x), (is_invalid cfg x); simpl; naive_solver. }
    split; [|split; [|split; [|split; [|split]]]].
    + intros p x Hp Hx. destruct (Hmem p x Hp Hx) as (vals & Hv & Hva & Hin).
      exists vals. split; [done|].
      by rewrite Hva, Hin, (invalid_fitness_false x vals Hv),
        (invalid_fitness_true x vals Hv).
    + intros p Hp.
      assert (is_Some (heap s !! p)) as [x Hx] by (by eapply Forall_forall in Hlive).
      destruct (Hmem p x Hp Hx) as (vals & Hv & Hva & Hin). rewrite Hva, Hin.
      rewrite (is_valid_not_invalid x vals Hv).
      destruct (is_invalid cfg x); naive_solver.
    + apply sublist_filter.
    + apply sublist_filter.
    + rewrite filter_invalid_complement by done. apply filter_app_complement.
    + rewrite <- length_app.
      rewrite filter_invalid_complement by done.
      by rewrite filter_app_complement.
  - intros Hws. by apply readable_nonzero_weights.
  - intros Hnot. split.
    + by apply getValidPopulation_unreadable.
    + by apply getInvalidPopulation_unreadable.
  - intros p x Hx. unfold readable_at, fitness_values. rewrite Hx. simpl.
    pose proof (map_truediv_spec (fitness_wvalues x) (weightList cfg)) as H.
    destruct (map_truediv (fitness_wvalues x) (weightList cfg)) as [qs|e].
    + destruct H as [_ Hnz]. split; [intros _; exact Hnz | done].
    + destruct H as (_ & i & v & w & Hv & Hw & Hz). split; [done|].
      intros Hnz. rewrite (Hnz i v w Hv Hw) in Hz. done.
Qed.

(** ** Tagging *)

Lemma alter_alter_same {A} (f g : A → A) (i : nat) (xs : list A) :
  alter f i (alter g i xs) = alter (f ∘ g) i xs.
Proof. apply list_alter_alter_eq. Qed.

Lemma alter_ext_at {A} (f g : A → A) (i : nat) (xs : list A) a :
  xs !! i = Some a → f a = g a → alter f i xs = alter g i xs.
Proof.
  intros Hi Hfg. apply list_eq. intros j.
  destruct (decide (i = j)) as [<-|Hne].
  - rewrite !list_lookup_alter_eq, Hi. simpl. by rewrite Hfg.
  - by rewrite !list_lookup_alter_ne.
Qed.

Lemma wp_tagIndividual l s x g Q E :
  heap s !! l = Some x →
  gIdx s = Some g →
  (length (paramNames cfg) ≤ length (genes x))%nat →
  match ind_id x with
  | None =>
      Q () (set_last_id (last_id s + 1)
              (set_heap (alter (tagged cfg (last_id s) g) l (heap s)) s))
  | Some _ => E (AssertionError already_tagged) s
  end →
  wp (tagIndividual cfg l) Q E s.
Proof.
  intros Hl Hg Hlen HQ. unfold tagIndividual.
  rewrite wp_bind, wp_deref, Hl, wp_bind, wp_assert.
  destruct (ind_id x) as [i|] eqn:Hid; [done|]. simpl.
  rewrite wp_bind, wp_get_self, wp_bind, wp_update, wp_bind. rewrite Hg, wp_ret.
  rewrite wp_bind, wp_update, wp_bind, wp_update, wp_bind, wp_deref. simpl.
  rewrite !alter_alter_same, list_lookup_alter_eq, Hl. simpl.
  rewrite wp_bind. unfold individualToDict. simpl.
  rewrite bool_decide_true by (rewrite length_take; lia).
  rewrite wp_ret, wp_bind, wp_update, wp_modify. simpl.
  rewrite alter_alter_same.
  erewrite alter_ext_at; [exact HQ | exact Hl | done].
Qed.

Lemma id_at_tagged h p q x i g :
  h !! p = Some x →
  id_at (alter (tagged cfg i g) p h) q = if decide (p = q) then Some i else id_at h q.
Proof.
  intros Hp. unfold id_at. rewrite list_lookup_alter.
  case_decide; [subst; by rewrite Hp | done].
Qed.

Lemma taggable_cons h p rest x i g :
  h !! p = Some x →
  ind_id x = None →
  taggable (alter (tagged cfg i g) p h) rest ↔ taggable h (p :: rest).
Proof.
  intros Hp Hid. unfold taggable.
  rewrite NoDup_cons, Forall_cons, !Forall_forall.
  assert (id_at h p = None) as Hnone by (unfold id_at; by rewrite Hp).
  split.
  - intros [Hnd Hall].
    assert (p ∉ rest) as Hnotin.
    { intros Hin. apply Hall in Hin. rewrite (id_at_tagged _ _ _ x) in Hin by done.
      by rewrite decide_True in Hin. }
    repeat split; try done.
    intros q Hq. specialize (Hall q Hq).
    rewrite (id_at_tagged _ _ _ x) in Hall by done.
    rewrite decide_False in Hall; [done | by intros ->].
  - intros [[Hnotin Hnd] [_ Hall]]. split; [done|].
    intros q Hq. rewrite (id_at_tagged _ _ _ x) by done.
    rewrite decide_False; [by apply Hall | by intros ->].
Qed.

Lemma tag_loop_gen pop : ∀ s g,
  gIdx s = Some g →
  wp (for_each pop (tagIndividual cfg))
    (λ _ s', taggable (heap s) pop ∧ decodable cfg (heap s) pop ∧
             tag_post cfg s g pop s')
    (λ e s', (¬ taggable (heap s) pop ∧ e = AssertionError already_tagged) ∨
             ¬ decodable cfg (heap s) pop) s.
Proof.
  induction pop as [|p rest IH]; intros s g Hg.
  - rewrite wp_for_each_nil. split; [split; constructor|]. split; [constructor|].
    unfold tag_post. simpl. rewrite Z.add_0_r.
    repeat split; try done. by destruct s.
  - rewrite wp_for_each_cons.
    destruct (heap s !! p) as [x|] eqn:Hx.
    2:{ unfold tagIndividual. rewrite wp_bind, wp_deref, Hx. right.
        intros Hdec. apply Forall_cons in Hdec as [(y & Hy & _) _]. congruence. }
    destruct (ind_id x) as [i|] eqn:Hid.
    { unfold tagIndividual. rewrite wp_bind, wp_deref, Hx, wp_bind, wp_assert, Hid.
      simpl. left. split; [|done]. intros [_ Hall].
      apply Forall_cons in Hall as [Hp _].
      unfold id_at in Hp. rewrite Hx in Hp. simpl in Hp. congruence. }
    destruct (decide (length (paramNames cfg) ≤ length (genes x))%nat) as [Hlen|Hlen].
    2:{ unfold tagIndividual.
        rewrite wp_bind, wp_deref, Hx, wp_bind, wp_assert, Hid. simpl.
        rewrite wp_bind, wp_get_self, wp_bind, wp_update, wp_bind.
        rewrite Hg, wp_ret.
        rewrite wp_bind, wp_update, wp_bind, wp_update, wp_bind, wp_deref. simpl.
        rewrite !alter_alter_same, list_lookup_alter_eq, Hx. simpl.
        rewrite wp_bind. unfold individualToDict. simpl.
        rewrite bool_decide_false by (rewrite length_take; lia).
        rewrite wp_raise. right.
        intros Hdec. apply Forall_cons in Hdec as [(y & Hy & Hleny) _].
        assert (y = x) by congruence. by subst. }
    apply (wp_tagIndividual p s x g); try done. rewrite Hid.
    set (s1 := set_last_id _ _).
    assert (Hh1 : heap s1 = alter (tagged cfg (last_id s) g) p (heap s)) by done.
    assert (Hdec_iff : decodable cfg (heap s1) rest ↔ decodable cfg (heap s) rest).
    { unfold decodable. rewrite Hh1, !Forall_forall.
      split; intros H q Hq; specialize (H q Hq); revert H;
        rewrite list_lookup_alter; case_decide as Hpq; try done; subst q;
        rewrite Hx; simpl; intros (y & Hy & Hleny); simplify_eq; eauto. }
    eapply wp_mono; [apply (IH s1 g) | |].
    + done.
    + intros [] s' (Htag & Hdec & Hpost). rewrite Hh1 in Htag.
      apply (taggable_cons _ _ _ x) in Htag; [|done..].
      split; [done|].
      split; [apply Forall_cons; split; [eauto | by apply Hdec_iff]|].
      destruct Htag as [Hnd _]. apply NoDup_cons in Hnd as [Hnotin _].
      destruct Hpost as (Hlast & Hlenh & Hpop & Hother & Hs').
      assert (Hp1 : heap s1 !! p = Some (tagged cfg (last_id s) g x)).
      { by rewrite Hh1, list_lookup_alter_eq, Hx. }
      assert (Hne : ∀ q, q ≠ p → heap s1 !! q = heap s !! q).
      { intros q Hq. rewrite Hh1. by apply list_lookup_alter_ne. }
      unfold tag_post. split; [|split; [|split; [|split]]].
      * rewrite Hlast. simpl. lia.
      * rewrite Hlenh, Hh1. apply length_alter.
      * intros [|k] q y Hk Hy; simpl in Hk.
        -- assert (q = p) by congruence. subst q.
           assert (y = x) by congruence. subst y.
           rewrite Z.add_0_r, Hother by done. exact Hp1.
        -- assert (q ≠ p).
           { intros ->. apply Hnotin. by eapply list_elem_of_lookup_2. }
           rewrite (Hpop k q y); [| done | by rewrite Hne].
           do 2 f_equal. simpl. lia.
      * intros l Hl. apply not_elem_of_cons in Hl as [Hlp Hlr].
        by rewrite Hother, Hne.
      * rewrite Hs'. by destruct s.
    + intros e s' [[Hnot ->] | Hnot].
      * left. split; [|done].
        intros Htag. apply Hnot. rewrite Hh1.
        by apply (taggable_cons _ _ _ x).
      * right. intros Hdec. apply Forall_cons in Hdec as [_ Hdec].
        by apply Hnot, Hdec_iff.
Qed.


Lemma tag_post_id_at s g pop s' l :
  decodable cfg (heap s) pop →
  tag_post cfg s g pop s' →
  (∃ k : nat, pop !! k = Some l ∧ id_at (heap s') l = Some (last_id s + Z.of_nat k)) ∨
  ((l ∉ pop) ∧ id_at (heap s') l = id_at (heap s) l).
Proof.
  intros Hdec (_ & _ & Hpop & Hother & _).
  destruct (decide (l ∈ pop)) as [Hin|Hnotin].
  - left. apply list_elem_of_lookup in Hin as [k Hk]. exists k. split; [done|].
    unfold decodable in Hdec. rewrite Forall_forall in Hdec.
    destruct (Hdec l) as (x & Hx & _); [by eapply list_elem_of_lookup_2|].
    unfold id_at. by rewrite (Hpop k l x).
  - right. split; [done|]. unfold id_at. by rewrite Hother.
Qed.

Lemma tag_post_ids s g pop s' :
  decodable cfg (heap s) pop →
  tag_post cfg s g pop s' →
  ids_below (heap s) (last_id s) →
  ids_distinct (heap s) →
  ids_below (heap s') (last_id s') ∧ ids_distinct (heap s').
Proof.
  intros Hdec Hpost Hbelow Hdist.
  assert (Hlast : last_id s' = last_id s + Z.of_nat (length pop))
    by apply Hpost.
  split.
  - intros l i Hi.
    destruct (tag_post_id_at s g pop s' l Hdec Hpost)
      as [(k & Hk & Hid) | [_ Hid]].
    + apply lookup_lt_Some in Hk. rewrite Hid in Hi. simplify_eq. lia.
    + rewrite Hid in Hi. apply Hbelow in Hi. lia.
  - intros l1 l2 i H1 H2.
    destruct (tag_post_id_at s g pop s' l1 Hdec Hpost)
      as [(k1 & Hk1 & Hid1) | [_ Hid1]];
    destruct (tag_post_id_at s g pop s' l2 Hdec Hpost)
      as [(k2 & Hk2 & Hid2) | [_ Hid2]];
    rewrite Hid1 in H1; rewrite Hid2 in H2.
    + simplify_eq. assert (k1 = k2) by lia. subst. congruence.
    + apply Hbelow in H2. simplify_eq. lia.
    + apply Hbelow in H1. simplify_eq. lia.
    + by eapply Hdist.
Qed.


(** ** Evaluation *)

Lemma wp_storeResult pop idx ri f o s Q E :
  match pop !! idx with
  | None => E IndexError s
  | Some p =>
      is_Some (heap s !! p) ∧
      Q () (set_heap (alter (evaluated cfg f o) p (heap s)) s)
  end →
  wp (storeResult cfg pop (idx, (ri, Pack2 f o))) Q E s.
Proof.
  intros H. unfold storeResult. rewrite wp_bind, wp_assert. simpl.
  rewrite wp_bind, wp_index.
  destruct (pop !! idx) as [p|] eqn:Hp; [|done].
  destruct H as [[x Hx] HQ].
  rewrite wp_bind, wp_update, wp_bind, wp_index, Hp.
  rewrite wp_bind, wp_update, wp_bind, wp_index, Hp.
  rewrite wp_bind, wp_deref. simpl.
  rewrite alter_alter_same, list_lookup_alter_eq, Hx. simpl.
  rewrite wp_update. simpl. rewrite alter_alter_same.
  erewrite alter_ext_at; [exact HQ | exact Hx | done].
Qed.

Lemma enumerate_from_cons {A} (k : nat) (a : A) (xs : list A) :
  imap (λ i, pair (k + i)%nat) (a :: xs)
  = (k, a) :: imap (λ i, pair (S k + i)%nat) xs.
Proof.
  simpl. rewrite Nat.add_0_r. f_equal.
  apply imap_ext. intros i x _. simpl. f_equal. lia.
Qed.

Lemma store_loop pop (rs : list (Z * Packed Out)) : ∀ k s,
  well_packed rs →
  Forall (λ p, is_Some (heap s !! p)) pop →
  wp (for_each (imap (λ i, pair (k + i)%nat) rs) (storeResult cfg pop))
    (λ _ s', s' = set_heap (written cfg pop k rs (heap s)) s ∧
             (k + length rs ≤ length pop ∨ rs = [])%nat)
    (λ e s', s' = set_heap (written cfg pop k rs (heap s)) s ∧
             e = IndexError ∧ (length pop < k + length rs)%nat) s.
Proof.
  induction rs as [|[ri pk] rs IH]; intros k s Hwp Hlive.
  - rewrite wp_for_each_nil. split; [by destruct s | by right].
  - apply Forall_cons in Hwp as [(f & o & Hpk) Hwp]. simpl in Hpk. subst pk.
    rewrite enumerate_from_cons, wp_for_each_cons.
    apply wp_storeResult. cbn [written].
    destruct (pop !! k) as [p|] eqn:Hp.
    + split; [by eapply Forall_forall in Hlive; [|by eapply list_elem_of_lookup_2]|].
      set (s1 := set_heap (alter (evaluated cfg f o) p (heap s)) s).
      eapply wp_mono; [apply (IH (S k) s1 Hwp) | |].
      * eapply Forall_impl; [exact Hlive|]. simpl. intros q [y Hy].
        rewrite list_lookup_alter. case_decide; [subst; rewrite Hy|]; eauto.
      * intros [] s' [-> Hlen]. split; [by destruct s|]. left.
        apply lookup_lt_Some in Hp. simpl.
        destruct Hlen as [Hlen | ->]; simpl; lia.
      * intros e s' (-> & -> & Hlen). split; [by destruct s|]. split; [done|].
        simpl. lia.
    + split; [by destruct s|]. split; [done|].
      apply lookup_ge_None in Hp. simpl. lia.
Qed.

Lemma list_comp_ids pop s :
  submittable (heap s) pop →
  list_comp (getattr "id" ind_id) pop s = (Returned (ids_of (heap s) pop), s).
Proof.
  induction 1 as [|p pop (x & i & Hx & Hi) _ IH]; [done|].
  assert (Hg : getattr "id" ind_id p s = (Returned i, s)).
  { unfold getattr, mbind, M_bind, deref. by rewrite Hx, Hi. }
  cbn [list_comp]. unfold mbind at 1, M_bind at 1. rewrite Hg.
  unfold mbind at 1, M_bind at 1. rewrite IH.
  assert (Hid : id_at (heap s) p = Some i) by (unfold id_at; by rewrite Hx).
  unfold ids_of. cbn [omap list_omap]. by rewrite Hid.
Qed.

Lemma list_comp_genomes pop s :
  Forall (λ p, is_Some (heap s !! p)) pop →
  list_comp (λ p, x ← deref p; mret (genes x)) pop s
  = (Returned (genomes_of (heap s) pop), s).
Proof.
  induction 1 as [|p pop [x Hx] _ IH]; [done|].
  assert (Hg : (x ← deref p; mret (genes x)) s = (Returned (genes x), s)).
  { unfold mbind, M_bind, deref. by rewrite Hx. }
  cbn [list_comp]. unfold mbind at 1, M_bind at 1. rewrite Hg.
  unfold mbind at 1, M_bind at 1. rewrite IH.
  unfold genomes_of. cbn [omap list_omap]. by rewrite Hx.
Qed.

Lemma submittable_live h pop :
  submittable h pop → Forall (λ p, is_Some (h !! p)) pop.
Proof.
  intros H. eapply Forall_impl; [exact H|]. intros p (x & i & Hx & _). eauto.
Qed.

Lemma wp_eq {A} (m : M A) s a Q E : m s = (Returned a, s) → Q a s → wp m Q E s.
Proof. unfold wp. by intros ->. Qed.

(** What [evalPopulationUsingPypet] does when every result is well packed:
    it returns iff the number of results is between 1 and the size of the
    population; in all cases the results have been written by position for
    as long as the loop ran. *)
Lemma evalPopulation_spec pop g s rs s' :
  submittable (heap s) pop →
  rs = backend_results toolbox g pop s →
  well_packed rs →
  s' = set_heap (written cfg pop 0 rs (heap s)) (submitted toolbox g pop s) →
  (rs = [] ∧
   evalPopulationUsingPypet cfg toolbox pop g s
   = (Raised (AssertionError no_results), s')) ∨
  (rs ≠ [] ∧ (length rs ≤ length pop)%nat ∧
   evalPopulationUsingPypet cfg toolbox pop g s = (Returned pop, s')) ∨
  ((length pop < length rs)%nat ∧
   evalPopulationUsingPypet cfg toolbox pop g s = (Raised IndexError, s')).
Proof.
  intros Hsub Hrs Hwp Hs'.
  pose proof (submittable_live _ _ Hsub) as Hlive.
  assert (Hwp_all : wp (evalPopulationUsingPypet cfg toolbox pop g)
    (λ r s1, r = pop ∧ s1 = s' ∧ rs ≠ [] ∧ (length rs ≤ length pop)%nat)
    (λ e s1, s1 = s' ∧ ((rs = [] ∧ e = AssertionError no_results) ∨
                        ((length pop < length rs)%nat ∧ e = IndexError))) s).
  { unfold evalPopulationUsingPypet.
    rewrite wp_bind. eapply wp_eq; [by apply list_comp_ids|].
    rewrite wp_bind. eapply wp_eq; [by apply list_comp_genomes|].
    rewrite wp_bind, wp_modify, wp_bind, wp_modify, wp_bind, wp_with_rng.
    match goal with
    | |- wp _ ?Q ?E _ =>
        change (wp (py_assert (bool_decide (0 < length (backend_results toolbox g pop s))%nat) no_results
                    ≫= λ _, for_each (enumerate (backend_results toolbox g pop s)) (storeResult cfg pop)
                    ≫= λ _, mret pop) Q E (submitted toolbox g pop s))
    end.
    rewrite <- Hrs. rewrite wp_bind, wp_assert.
    destruct rs as [|r rs0].
    { simpl. split; [|by left]. rewrite Hs'. cbn [written].
      unfold submitted. by destruct s. }
    simpl. rewrite wp_bind. unfold enumerate.
    eapply wp_mono.
    - apply (store_loop pop (r :: rs0) 0); done.
    - intros [] s1 [-> Hlen]. rewrite wp_ret. repeat split; try done.
      destruct Hlen as [Hlen|?]; [simpl in *; lia | done].
    - intros e s1 (-> & -> & Hlen). split; [done|]. right. split; [|done].
      simpl in *. lia. }
  unfold wp in Hwp_all.
  destruct (evalPopulationUsingPypet cfg toolbox pop g s) as [[r|e] s1].
  - destruct Hwp_all as (-> & -> & Hne & Hlen). right. left. done.
  - destruct Hwp_all as (-> & [[Hnil ->] | [Hlen ->]]).
    + by left.
    + right. right. done.
Qed.

Lemma written_length pop (rs : list (Z * Packed Out)) : ∀ k h,
  length (written cfg pop k rs h) = length h.
Proof.
  induction rs as [|[ri [f o|n]] rs IH]; intros k h; simpl; [done| |done].
  destruct (pop !! k); [|done]. by rewrite IH, length_alter.
Qed.

Lemma written_other pop (rs : list (Z * Packed Out)) l : ∀ k h,
  l ∉ pop → written cfg pop k rs h !! l = h !! l.
Proof.
  induction rs as [|[ri [f o|n]] rs IH]; intros k h Hl; simpl; [done| |done].
  destruct (pop !! k) as [p|] eqn:Hp; [|done].
  rewrite IH by done. apply list_lookup_alter_ne.
  intros ->. apply Hl. by eapply list_elem_of_lookup_2.
Qed.

(** With no individual listed twice, the individual at position [j] has
    received result [j - k] if the loop got that far, and is as it was
    otherwise. *)
Lemma written_lookup pop (rs : list (Z * Packed Out)) : ∀ k h j p,
  NoDup pop →
  well_packed rs →
  pop !! j = Some p →
  written cfg pop k rs h !! p =
    match (if decide (k ≤ j)%nat then rs !! (j - k)%nat else None) with
    | Some (_, Pack2 f o) => evaluated cfg f o <$> h !! p
    | _ => h !! p
    end.
Proof.
  induction rs as [|[ri pk] rs IH]; intros k h j p Hnd Hwp Hj.
  { simpl. case_decide; by rewrite ?lookup_nil. }
  apply Forall_cons in Hwp as [(f & o & Hpk) Hwp]. simpl in Hpk. subst pk.
  cbn [written]. destruct (pop !! k) as [q|] eqn:Hq.
  - rewrite (IH (S k) _ j p) by done.
    destruct (decide (j = k)) as [->|Hjk].
    + assert (q = p) by congruence. subst q.
      rewrite decide_False by lia. rewrite decide_True by lia.
      rewrite Nat.sub_diag. simpl. apply list_lookup_alter_eq.
    + assert (q ≠ p).
      { intros ->. apply Hjk. by eapply NoDup_lookup. }
      rewrite !list_lookup_alter_ne by done.
      destruct (decide (k ≤ j)%nat) as [Hle|Hgt].
      * rewrite decide_True by lia.
        replace (j - k)%nat with (S (j - S k)) by lia. done.
      * by rewrite decide_False by lia.
  - apply lookup_ge_None in Hq. apply lookup_lt_Some in Hj.
    by rewrite decide_False by lia.
Qed.

(** ** Floats: weights that are finite and non-zero *)

Lemma proper_weight_nonzero w : proper_weight w = true → is_zero w = false.
Proof. by destruct w. Qed.

(** A NaN or an infinity times a proper weight, divided by the weight
    again, is the same NaN or the same infinity, sign included. *)
Lemma fdiv_fmul_nonfinite v w :
  proper_weight w = true → isfinite v = false → fdiv (fmul v w) w = v.
Proof.
  destruct w as [| | |sw mw ew]; [done..|]. intros _.
  destruct v as [|sv| |]; [done| |done|done]. intros _.
  unfold fmul, fdiv. simpl. by destruct sv, sw.
Qed.

Lemma isfinite_fmul_nonfinite v w :
  proper_weight w = true → isfinite v = false → isfinite (fmul v w) = false.
Proof.
  destruct w as [| | |sw mw ew]; [done..|]. intros _.
  by destruct v as [|sv| |].
Qed.

Lemma length_weighted (f ws : list float) :
  length f = length ws → length (zip_with fmul f ws) = length f.
Proof. intros Hlen. rewrite length_zip_with. lia. Qed.

(** Reading back the values stored for [f], with proper weights. *)
Lemma values_read_back (f ws : list float) :
  Forall (λ w, proper_weight w = true) ws →
  length f = length ws →
  map_truediv (zip_with fmul f ws) ws
  = Returned (zip_with fdiv (zip_with fmul f ws) ws) ∧
  length (zip_with fdiv (zip_with fmul f ws) ws) = length f ∧
  ∀ (i : nat) v w, f !! i = Some v → ws !! i = Some w →
    zip_with fdiv (zip_with fmul f ws) ws !! i = Some (fdiv (fmul v w) w) ∧
    (isfinite v = false →
       zip_with fdiv (zip_with fmul f ws) ws !! i = Some v).
Proof.
  intros Hws Hlen. split; [|split].
  - apply map_truediv_nonzero. eapply Forall_impl; [exact Hws|].
    intros w Hw. by apply proper_weight_nonzero.
  - rewrite !length_zip_with. lia.
  - intros i v w Hv Hw.
    assert (Hi : zip_with fdiv (zip_with fmul f ws) ws !! i
                 = Some (fdiv (fmul v w) w)).
    { apply lookup_zip_with_Some. exists (fmul v w), w. split; [done|].
      split; [|done]. apply lookup_zip_with_Some. by exists v, w. }
    split; [done|]. intros Hnf. rewrite Hi. f_equal.
    apply fdiv_fmul_nonfinite; [|done].
    rewrite Forall_forall in Hws. apply Hws. by eapply list_elem_of_lookup_2.
Qed.

Lemma all_masked_weighted (f ws : list float) :
  Forall (λ w, proper_weight w = true) ws →
  length f = length ws →
  forallb (λ v : float, negb (isfinite v)) f = true →
  forallb (λ v : float, negb (isfinite v)) (zip_with fmul f ws) = true.
Proof.
  intros Hws. revert f. induction Hws as [|w ws Hw _ IH]; intros [|v f] Hlen;
    simpl in *; try done.
  rewrite andb_true_iff, negb_true_iff. intros [Hv Hf].
  rewrite isfinite_fmul_nonfinite by done. simpl. apply IH; [lia | done].
Qed.

Lemma evaluated_fields f o x :
  outputs (evaluated cfg f o x) = Some o ∧
  fitness_wvalues (evaluated cfg f o x) = zip_with fmul f (weightList cfg) ∧
  fitness_score (evaluated cfg f o x)
  = Some (masked_invalid_sum_div_len (zip_with fmul f (weightList cfg))) ∧
  ind_id (evaluated cfg f o x) = ind_id x ∧
  parentIds (evaluated cfg f o x) = parentIds x ∧
  genes (evaluated cfg f o x) = genes x.
Proof. done. Qed.

Lemma ids_of_lookup h pop : ∀ (idx : nat) ri,
  submittable h pop →
  ids_of h pop !! idx = Some ri →
  ∃ p x, pop !! idx = Some p ∧ h !! p = Some x ∧ ind_id x = Some ri.
Proof.
  induction pop as [|q pop IH]; intros idx ri Hsub Hidx; [done|].
  apply Forall_cons in Hsub as [(x & i & Hx & Hi) Hsub].
  unfold ids_of in Hidx. cbn [omap list_omap] in Hidx.
  assert (Hid : id_at h q = Some i) by (unfold id_at; by rewrite Hx).
  rewrite Hid in Hidx. destruct idx as [|idx]; simpl in Hidx.
  - exists q, x. by simplify_eq.
  - destruct (IH idx ri Hsub Hidx) as (p & y & ? & ? & ?). by exists p, y.
Qed.

Lemma written_lookup_0 pop (rs : list (Z * Packed Out)) h (j : nat) p :
  NoDup pop →
  well_packed rs →
  pop !! j = Some p →
  written cfg pop 0 rs h !! p =
    match rs !! j with
    | Some (_, Pack2 f o) => evaluated cfg f o <$> h !! p
    | _ => h !! p
    end.
Proof.
  intros Hnd Hwp Hj. rewrite (written_lookup pop rs 0 h j p) by done.
  rewrite decide_True by lia. by rewrite Nat.sub_0_r.
Qed.

Lemma evalPopulation_positional pop g s :
  submittable (heap s) pop →
  NoDup pop →
  well_packed (backend_results toolbox g pop s) →
  backend_results toolbox g pop s ≠ [] →
  (length (backend_results toolbox g pop s) ≤ length pop)%nat →
  ∃ s', evalPopulationUsingPypet cfg toolbox pop g s = (Returned pop, s') ∧
    ∀ (idx : nat) runIndex f o p x,
      backend_results toolbox g pop s !! idx = Some (runIndex, Pack2 f o) →
      pop !! idx = Some p →
      heap s !! p = Some x →
      heap s' !! p = Some (evaluated cfg f o x).
Proof.
  intros Hsub Hnd Hwp Hne Hlen.
  destruct (evalPopulation_spec pop g s _ _ Hsub eq_refl Hwp eq_refl)
    as [[Hnil _] | [(_ & _ & Heval) | [Hgt _]]]; [done | | lia].
  eexists. split; [exact Heval|].
  intros idx ri f o p x Hidx Hp Hx. simpl.
  rewrite (written_lookup_0 pop _ _ idx p) by done. by rewrite Hidx, Hx.
Qed.

(** C1 (as the code has it).  When the backend returns between one result
    and as many as individuals were submitted, each a (fitness, outputs)
    pair, the evaluation returns and the result at position [idx] of the
    returned sequence has been written (outputs, fitness values, score) onto
    the individual at position [idx] of the population; the work-unit id of
    the result is not looked at.  So each result is on the individual whose
    id equals its work-unit id when the results come back in the order of
    submission. *)
Theorem evalPopulation_writes_by_position pop g s :
  submittable (heap s) pop →
  NoDup pop →
  well_packed (backend_results toolbox g pop s) →
  backend_results toolbox g pop s ≠ [] →
  (length (backend_results toolbox g pop s) ≤ length pop)%nat →
  ∃ s', evalPopulationUsingPypet cfg toolbox pop g s = (Returned pop, s') ∧
    (∀ (idx : nat) runIndex f o p x,
       backend_results toolbox g pop s !! idx = Some (runIndex, Pack2 f o) →
       pop !! idx = Some p →
       heap s !! p = Some x →
       heap s' !! p = Some (evaluated cfg f o x)) ∧
    ((∀ (idx : nat) runIndex pk,
        backend_results toolbox g pop s !! idx = Some (runIndex, pk) →
        ids_of (heap s) pop !! idx = Some runIndex) →
     ∀ (idx : nat) runIndex f o,
       backend_results toolbox g pop s !! idx = Some (runIndex, Pack2 f o) →
       ∃ p x, p ∈ pop ∧ heap s !! p = Some x ∧ ind_id x = Some runIndex ∧
              heap s' !! p = Some (evaluated cfg f o x)).
Proof.
  intros Hsub Hnd Hwp Hne Hlen.
  destruct (evalPopulation_positional pop g s Hsub Hnd Hwp Hne Hlen)
    as (s' & Heval & Hpos).
  exists s'. split; [done|]. split; [exact Hpos|].
  intros Horder idx ri f o Hidx.
  destruct (ids_of_lookup _ _ idx ri Hsub (Horder _ _ _ Hidx))
    as (p & x & Hp & Hx & Hid).
  exists p, x. repeat split; try done.
  - by eapply list_elem_of_lookup_2.
  - by eapply Hpos.
Qed.

(** C2 (as the code has it).  With well-packed results:
    - no result at all: the evaluation fails with the assertion error before
      any individual is written;
    - at least one result and at most as many as individuals: no error, the
      evaluation returns; the individuals at the positions that have a
      result are written, the others are left as they were;
    - more results than individuals: an IndexError, raised after every
      individual has been written. *)
Theorem evalPopulation_result_count pop g s :
  submittable (heap s) pop →
  NoDup pop →
  well_packed (backend_results toolbox g pop s) →
  (backend_results toolbox g pop s = [] →
     ∃ s', evalPopulationUsingPypet cfg toolbox pop g s
           = (Raised (AssertionError no_results), s') ∧
           heap s' = heap s) ∧
  (backend_results toolbox g pop s ≠ [] →
   (length (backend_results toolbox g pop s) ≤ length pop)%nat →
     ∃ s', evalPopulationUsingPypet cfg toolbox pop g s = (Returned pop, s') ∧
       ∀ (idx : nat) p, pop !! idx = Some p →
         heap s' !! p =
           match backend_results toolbox g pop s !! idx with
           | Some (_, Pack2 f o) => evaluated cfg f o <$> heap s !! p
           | _ => heap s !! p
           end) ∧
  ((length pop < length (backend_results toolbox g pop s))%nat →
     ∃ s', evalPopulationUsingPypet cfg toolbox pop g s = (Raised IndexError, s') ∧
       ∀ (idx : nat) p, pop !! idx = Some p →
         ∃ runIndex f o,
           backend_results toolbox g pop s !! idx = Some (runIndex, Pack2 f o) ∧
           heap s' !! p = evaluated cfg f o <$> heap s !! p).
Proof.
  intros Hsub Hnd Hwp.
  pose proof (evalPopulation_spec pop g s _ _ Hsub eq_refl Hwp eq_refl) as Hspec.
  split; [|split].
  - intros Hnil. destruct Hspec as [[_ Heval] | [(Hne & _) | [Hgt _]]].
    + eexists. split; [exact Heval|]. simpl. by rewrite Hnil.
    + done.
    + rewrite Hnil in Hgt. simpl in Hgt. lia.
  - intros Hne Hlen. destruct Hspec as [[Hnil _] | [(_ & _ & Heval) | [Hgt _]]];
      [done | | lia].
    eexists. split; [exact Heval|]. intros idx p Hp. simpl.
    by apply written_lookup_0.
  - intros Hgt. destruct Hspec as [[Hnil _] | [(_ & Hlen & _) | [_ Heval]]].
    + rewrite Hnil in Hgt. simpl in Hgt. lia.
    + lia.
    + eexists. split; [exact Heval|]. intros idx p Hp. simpl.
      rewrite (written_lookup_0 pop _ _ idx p) by done.
      destruct (backend_results toolbox g pop s !! idx) as [[ri pk]|] eqn:Hidx.
      * unfold well_packed in Hwp. rewrite Forall_forall in Hwp.
        destruct (Hwp (ri, pk)) as (f & o & Hpk);
          [by eapply list_elem_of_lookup_2|].
        simpl in Hpk. subst pk. by exists ri, f, o.
      * apply lookup_ge_None in Hidx. apply lookup_lt_Some in Hp. lia.
Qed.

(** C5 (as the code has it).  With objective weights that are finite and
    non-zero, an individual evaluated with a fitness vector [f] of one
    component per objective stores the products of the components by the
    weights, and its fitness values read back as the quotients of these
    products by the weights: a NaN or Inf component of [f] is read back
    unchanged, so the individual is invalid for the triage when [f] has one;
    a finite component is read back as the rounded quotient of the rounded
    product.  Its score is the sum of the weighted components with the NaN
    and Inf ones counted as zero, divided by the number of objectives, if
    some weighted component is finite, and is numpy's masked constant if
    none is, which is the case when every component of [f] is NaN or
    Inf. *)
Theorem evaluated_weighted_score pop g s :
  submittable (heap s) pop →
  NoDup pop →
  well_packed (backend_results toolbox g pop s) →
  backend_results toolbox g pop s ≠ [] →
  (length (backend_results toolbox g pop s) ≤ length pop)%nat →
  Forall (λ w, proper_weight w = true) (weightList cfg) →
  ∃ s', evalPopulationUsingPypet cfg toolbox pop g s = (Returned pop, s') ∧
    ∀ (idx : nat) runIndex f o p,
      backend_results toolbox g pop s !! idx = Some (runIndex, Pack2 f o) →
      pop !! idx = Some p →
      length f = length (weightList cfg) →
      ∃ x' vals, heap s' !! p = Some x' ∧
        fitness_wvalues x' = zip_with fmul f (weightList cfg) ∧
        fitness_values cfg x' = Returned vals ∧
        length vals = length f ∧
        (∀ (i : nat) v w, f !! i = Some v → weightList cfg !! i = Some w →
           vals !! i = Some (fdiv (fmul v w) w) ∧
           (isnan v = true ∨ isinf v = true → vals !! i = Some v)) ∧
        ((∃ v, v ∈ f ∧ (isnan v = true ∨ isinf v = true)) →
           invalid_fitness cfg x' = Returned true) ∧
        fitness_score x' =
          Some (if forallb (λ v : float, negb (isfinite v))
                     (zip_with fmul f (weightList cfg))
                then Masked
                else spec_weighted_score cfg f) ∧
        (forallb (λ v : float, negb (isfinite v)) f = true →
           fitness_score x' = Some Masked).
Proof.
  intros Hsub Hnd Hwp Hne Hlen Hws.
  destruct (evalPopulation_positional pop g s Hsub Hnd Hwp Hne Hlen)
    as (s' & Heval & Hpos).
  exists s'. split; [done|].
  intros idx ri f o p Hidx Hp Hlenf.
  assert (is_Some (heap s !! p)) as [x Hx].
  { apply submittable_live in Hsub. rewrite Forall_forall in Hsub.
    apply Hsub. by eapply list_elem_of_lookup_2. }
  destruct (values_read_back f (weightList cfg) Hws Hlenf) as (Hread & Hlenv & Hcomp).
  assert (Hnonfinite : ∀ v : float,
            isnan v = true ∨ isinf v = true → isfinite v = false).
  { intros v [Hv|Hv]; by destruct v. }
  exists (evaluated cfg f o x), (zip_with fdiv (zip_with fmul f (weightList cfg))
                                   (weightList cfg)).
  split; [by eapply Hpos|].
  split; [done|]. split; [exact Hread|]. split; [exact Hlenv|].
  split; [|split; [|split]].
  - intros i v w Hv Hw. destruct (Hcomp i v w Hv Hw) as [Hq Hsame].
    split; [done|]. intros Hnf. apply Hsame. by apply Hnonfinite.
  - intros (v & Hv & Hnf). unfold invalid_fitness.
    change (fitness_values cfg (evaluated cfg f o x))
      with (map_truediv (zip_with fmul f (weightList cfg)) (weightList cfg)).
    rewrite Hread. f_equal.
    apply list_elem_of_lookup in Hv as [i Hi].
    destruct (lookup_lt_is_Some_2 (weightList cfg) i) as [w Hw].
    { rewrite <- Hlenf. by eapply lookup_lt_Some. }
    destruct (Hcomp i v w Hi Hw) as [_ Hsame].
    specialize (Hsame (Hnonfinite v Hnf)).
    apply list_elem_of_lookup_2 in Hsame.
    apply orb_true_iff. destruct Hnf as [Hn|Hn]; [left | right];
      apply existsb_true_iff; by exists v.
  - simpl. f_equal. unfold masked_invalid_sum_div_len, spec_weighted_score.
    destruct (forallb _ (zip_with fmul f (weightList cfg))); [done|].
    by rewrite length_zip_with, <- Hlenf, Nat.min_id.
  - intros Hall. simpl. f_equal. unfold masked_invalid_sum_div_len.
    by rewrite all_masked_weighted.
Qed.

(** ** Loops and comprehensions with an invariant that follows the progress *)

Lemma wp_for_each_ind {A} (J : list A → Evolution → Prop)
    (E : PyError → Evolution → Prop) (xs : list A) (body : A → M unit) s :
  (∀ pre a suf s0, xs = pre ++ a :: suf → J pre s0 →
     wp (body a) (λ _, J (pre ++ [a])) E s0) →
  J [] s →
  wp (for_each xs body) (λ _, J xs) E s.
Proof.
  intros Hbody.
  assert (Hgen : ∀ suf pre s0, xs = pre ++ suf → J pre s0 →
    wp (for_each suf body) (λ _, J xs) E s0).
  { induction suf as [|a suf IH]; intros pre s0 Hxs HJ.
    - rewrite wp_for_each_nil. rewrite app_nil_r in Hxs. by subst.
    - rewrite wp_for_each_cons. eapply wp_mono.
      + by eapply Hbody.
      + intros [] s1 HJ1. apply (IH (pre ++ [a])); [|done].
        by rewrite <- app_assoc.
      + done. }
  intros HJ. by apply (Hgen xs []).
Qed.

Lemma wp_list_comp_deref pop s :
  wp (list_comp deref pop)
    (λ _ s', s' = s ∧ Forall (λ p, is_Some (heap s !! p)) pop) may_raise s.
Proof.
  induction pop as [|p pop IH]; [by split|].
  cbn [list_comp]. rewrite wp_bind, wp_deref.
  destruct (heap s !! p) as [x|] eqn:Hx; [|done].
  rewrite wp_bind. eapply wp_mono; [exact IH | | done].
  intros ys s' [-> Hlive]. rewrite wp_ret. split; [done|].
  apply Forall_cons. split; [by rewrite Hx | done].
Qed.

(** ** Creating individuals: [toolbox.population] and [toolbox.clone] *)

Lemma wp_toolbox_individual Q E s :
  wp (toolbox_individual toolbox) Q E s ↔
  Q (length (heap s))
    (set_heap (heap s ++ [new_Individual (individualGenerator toolbox (rng s)).1])
       (set_rng (individualGenerator toolbox (rng s)).2 s)).
Proof. unfold toolbox_individual. by rewrite wp_bind, wp_with_rng, wp_alloc. Qed.

Lemma wp_toolbox_clone p Q E s :
  wp (toolbox_clone p) Q E s ↔
  match heap s !! p with
  | Some x => Q (length (heap s)) (set_heap (heap s ++ [deepcopy x]) s)
  | None => E DanglingReference s
  end.
Proof.
  unfold toolbox_clone. rewrite wp_bind, wp_deref.
  by destruct (heap s !! p).
Qed.

Lemma wp_population (n : nat) : ∀ s,
  wp (initRepeat (toolbox_individual toolbox) n)
    (λ r s', r = seq (length (heap s)) n ∧
       ∃ gs, length gs = n ∧
             Forall (λ g0, ∃ r0, g0 = (individualGenerator toolbox r0).1) gs ∧
             heap s' = heap s ++ (new_Individual <$> gs) ∧
             s' = set_rng (rng s') (set_heap (heap s') s))
    no_raise s.
Proof.
  induction n as [|n IH]; intros s.
  - cbn [initRepeat]. rewrite wp_ret. split; [done|]. exists [].
    simpl. rewrite app_nil_r. split; [done|]. split; [constructor|].
    split; [done|]. by destruct s.
  - cbn [initRepeat]. rewrite wp_bind, wp_toolbox_individual, wp_bind.
    set (g := (individualGenerator toolbox (rng s)).1).
    set (s1 := set_heap _ _).
    eapply wp_mono; [apply (IH s1) | | done].
    intros r s' (-> & gs & Hlen & Hgen & Hheap & Hs'). rewrite wp_ret.
    assert (Hh1 : heap s1 = heap s ++ [new_Individual g]) by done.
    split.
    + by rewrite Hh1, length_app, Nat.add_1_r.
    + exists (g :: gs). split; [simpl; lia|].
      split; [constructor; [by exists (rng s) | done]|]. split.
      * rewrite Hheap, Hh1, <- app_assoc. done.
      * rewrite Hs'. by destruct s.
Qed.

Lemma wp_clones parents : ∀ s,
  Forall (λ p, is_Some (heap s !! p)) parents →
  wp (list_comp toolbox_clone parents)
    (λ r s', r = seq (length (heap s)) (length parents) ∧
       ∃ xs, Forall2 (λ p x, heap s !! p = Some x) parents xs ∧
             heap s' = heap s ++ (deepcopy <$> xs) ∧
             s' = set_heap (heap s') s)
    no_raise s.
Proof.
  induction parents as [|p parents IH]; intros s Hlive.
  - cbn [list_comp]. rewrite wp_ret. split; [done|]. exists [].
    rewrite app_nil_r. split; [constructor|]. split; [done|]. by destruct s.
  - apply Forall_cons in Hlive as [[x Hx] Hlive].
    cbn [list_comp]. rewrite wp_bind, wp_toolbox_clone, Hx, wp_bind.
    set (s1 := set_heap _ _).
    assert (Hh1 : heap s1 = heap s ++ [deepcopy x]) by done.
    assert (Hold : ∀ q y, heap s !! q = Some y → heap s1 !! q = Some y).
    { intros q y Hq. rewrite Hh1. by apply lookup_app_l_Some. }
    eapply wp_mono; [apply (IH s1) | | done].
    + eapply Forall_impl; [exact Hlive|]. intros q [y Hy]. simpl. eauto.
    + intros r s' (-> & xs & Hxs & Hheap & Hs'). rewrite wp_ret. split.
      * by rewrite Hh1, length_app, Nat.add_1_r.
      * exists (x :: xs). split; [|split].
        -- constructor; [done|].
           clear -Hxs Hlive Hold Hh1.
           induction Hxs as [|q y parents xs Hq _ IHxs]; [constructor|].
           apply Forall_cons in Hlive as [[z Hz] Hlive].
           constructor; [|by apply IHxs].
           pose proof (Hold _ _ Hz). congruence.
        -- by rewrite Hheap, Hh1, <- app_assoc.
        -- rewrite Hs'. by destruct s.
Qed.

Lemma deepcopy_fields x :
  ind_id (deepcopy x) = ind_id x ∧ genes (deepcopy x) = genes x ∧
  parentIds (deepcopy x) = parentIds x ∧ ind_gIdx (deepcopy x) = ind_gIdx x ∧
  fitness_wvalues (deepcopy x) = fitness_wvalues x ∧
  fitness_score (deepcopy x) = None.
Proof. done. Qed.

(** ** Selection and persistence *)

Lemma wp_call_selection op pop k s :
  wp (call_selection op pop k)
    (λ r s', Forall (λ p, is_Some (heap s !! p)) pop ∧ r ⊆ pop ∧
             s' = set_rng (rng s') s)
    may_raise s.
Proof.
  unfold call_selection. rewrite wp_bind.
  eapply wp_mono; [apply wp_list_comp_deref | | done].
  intros xs s' [-> Hlive]. rewrite wp_bind, wp_with_rng, wp_ret.
  split; [done|]. split; [|by destruct s].
  intros p Hp. apply list_elem_of_omap in Hp as (i & _ & Hi).
  by eapply list_elem_of_lookup_2.
Qed.

Lemma wp_saveToPypet pop g s :
  wp (saveToPypet pop g)
    (λ r s', r = pop ∧
       ∃ rows, s' = set_traj_generations (traj_generations s ++ [(g, rows)]) s)
    may_raise s.
Proof.
  unfold saveToPypet. rewrite wp_bind.
  assert (Hrows : ∀ xs s0,
    wp (list_comp (λ p, x ← deref p; mret (genes x, fitness_score x)) xs)
      (λ _ s1, s1 = s0) may_raise s0).
  { induction xs as [|p xs IH]; intros s0; [done|].
    cbn [list_comp]. rewrite wp_bind, wp_bind, wp_deref.
    destruct (heap s0 !! p); [|done]. rewrite wp_ret, wp_bind.
    eapply wp_mono; [apply IH | | done]. by intros ys s1 ->. }
  eapply wp_mono; [apply Hrows | | done].
  intros rows s' ->. rewrite wp_bind, wp_modify, wp_ret. eauto.
Qed.

(** ** Cross-over *)

Lemma elem_of_odd_positions (n i : nat) :
  i ∈ odd_positions n ↔ ∃ j : nat, i = (2 * j + 1)%nat ∧ (2 * j + 1 < n)%nat.
Proof.
  unfold odd_positions. rewrite list_elem_of_fmap.
  pose proof (Nat.div_mod_eq n 2) as Hdm.
  pose proof (Nat.mod_upper_bound n 2) as Hmod.
  split; intros (j & Hi & Hj); exists j; (split; [done|]).
  - apply elem_of_seq in Hj. lia.
  - apply elem_of_seq. lia.
Qed.

Lemma NoDup_odd_positions (n : nat) : NoDup (odd_positions n).
Proof.
  unfold odd_positions. apply NoDup_fmap_2; [|apply NoDup_seq].
  intros j1 j2. lia.
Qed.

Ltac heap_lookup :=
  repeat first
    [ rewrite list_lookup_alter_eq
    | rewrite list_lookup_alter_ne by done ].

Lemma wp_update_sh l f h s Q E :
  wp (update l f) Q E (set_heap h s) ↔ Q () (set_heap (alter f l h) s).
Proof. reflexivity. Qed.

Lemma wp_getattr_sh {A} name (field : Individual → option A) l h s Q E :
  wp (getattr name field l) Q E (set_heap h s) ↔
  match h !! l with
  | Some x =>
      match field x with
      | Some a => Q a (set_heap h s)
      | None => E (AttributeError name) (set_heap h s)
      end
  | None => E DanglingReference (set_heap h s)
  end.
Proof. by rewrite wp_getattr. Qed.

Lemma wp_crossover offspring (i : nat) a b xa xb ida idb s Q E :
  offspring !! (i - 1)%nat = Some a →
  offspring !! i = Some b →
  a ≠ b →
  heap s !! a = Some xa →
  heap s !! b = Some xb →
  ind_id xa = Some ida →
  ind_id xb = Some idb →
  Q () (set_heap
          (alter (crossed (mate toolbox (genes xa) (genes xb) (rng s)).1.2 ida idb) b
             (alter (crossed (mate toolbox (genes xa) (genes xb) (rng s)).1.1 ida idb) a
                (heap s)))
          (set_rng (mate toolbox (genes xa) (genes xb) (rng s)).2 s)) →
  wp (crossover toolbox offspring i) Q E s.
Proof.
  intros Ha Hb Hab Hxa Hxb Hida Hidb HQ.
  assert (Hba : b ≠ a) by done.
  unfold crossover, del_id.
  rewrite wp_bind, wp_index, Ha, wp_bind, wp_index, Hb.
  rewrite wp_bind, wp_deref, Hxa, wp_bind, wp_deref, Hxb.
  rewrite wp_bind, wp_with_rng. cbv beta.
  set (ch := (mate toolbox (genes xa) (genes xb) (rng s)).1) in *.
  set (s0 := set_rng _ s) in *.
  assert (Hh0 : heap s0 = heap s) by done.
  rewrite wp_bind, wp_update, Hh0.
  rewrite wp_bind, wp_update_sh, wp_bind, wp_update_sh, wp_bind, wp_update_sh.
  rewrite wp_bind, wp_getattr_sh. heap_lookup. rewrite Hxa. simpl. rewrite Hida.
  rewrite wp_bind, wp_getattr_sh. heap_lookup. rewrite Hxb. simpl. rewrite Hidb.
  rewrite wp_bind, wp_update_sh.
  rewrite wp_bind, wp_getattr_sh. heap_lookup. rewrite Hxa. simpl. rewrite Hida.
  rewrite wp_bind, wp_getattr_sh. heap_lookup. rewrite Hxb. simpl. rewrite Hidb.
  rewrite wp_bind, wp_update_sh.
  rewrite wp_bind, wp_bind, wp_getattr_sh. heap_lookup. rewrite Hxa. simpl.
  rewrite Hida, wp_update_sh.
  rewrite wp_bind, wp_getattr_sh. heap_lookup. rewrite Hxb. simpl.
  rewrite Hidb, wp_update_sh.
  match goal with
  | |- Q () (set_heap ?h _) =>
      match type of HQ with
      | Q () (set_heap ?h' _) => replace h with h'; [exact HQ|]
      end
  end.
  apply list_eq. intros l.
  destruct (decide (l = a)) as [->|Hla]; [|destruct (decide (l = b)) as [->|Hlb]].
  - heap_lookup. by rewrite Hxa.
  - heap_lookup. by rewrite Hxb.
  - by heap_lookup.
Qed.

Lemma pair_positions_disjoint offspring (i i' j j' : nat) l :
  NoDup offspring →
  i = (2 * j + 1)%nat →
  i' = (2 * j' + 1)%nat →
  i ≠ i' →
  offspring !! (i - 1)%nat = Some l ∨ offspring !! i = Some l →
  offspring !! (i' - 1)%nat ≠ Some l ∧ offspring !! i' ≠ Some l.
Proof.
  intros Hnd -> -> Hne Hl.
  split; intros Hl'; destruct Hl as [Hl|Hl];
    pose proof (NoDup_lookup _ _ _ _ Hnd Hl Hl'); lia.
Qed.

Lemma crossover_loop offspring s :
  NoDup offspring →
  submittable (heap s) offspring →
  wp (for_each (odd_positions (length offspring)) (crossover toolbox offspring))
    (λ _ s', crossover_post toolbox offspring s s') no_raise s.
Proof.
  intros Hnd Hsub.
  set (J := λ (done : list nat) (s' : @Evolution Out R),
    length (heap s') = length (heap s) ∧
    s' = set_rng (rng s') (set_heap (heap s') s) ∧
    (∀ l, (∀ i : nat, i ∈ done →
             offspring !! (i - 1)%nat ≠ Some l ∧ offspring !! i ≠ Some l) →
          heap s' !! l = heap s !! l) ∧
    (∀ (i : nat) a b xa xb ida idb, i ∈ done →
       offspring !! (i - 1)%nat = Some a → offspring !! i = Some b →
       heap s !! a = Some xa → heap s !! b = Some xb →
       ind_id xa = Some ida → ind_id xb = Some idb →
       ∃ r, heap s' !! a
            = Some (crossed (mate toolbox (genes xa) (genes xb) r).1.1 ida idb xa) ∧
            heap s' !! b
            = Some (crossed (mate toolbox (genes xa) (genes xb) r).1.2 ida idb xb))).
  eapply wp_mono; [apply (wp_for_each_ind J no_raise) | |].
  - (* one pair *)
    intros pre i suf s0 Hxs (Hlen0 & Hs0 & Hkeep0 & Hpairs0).
    assert (Hodd : ∀ i' : nat, i' ∈ pre ++ i :: suf →
      ∃ j' : nat, i' = (2 * j' + 1)%nat ∧ (2 * j' + 1 < length offspring)%nat).
    { intros i' Hi'. rewrite <- Hxs in Hi'. by apply elem_of_odd_positions. }
    assert (Hnd_xs : NoDup (pre ++ i :: suf)).
    { rewrite <- Hxs. apply NoDup_odd_positions. }
    apply NoDup_app in Hnd_xs as (_ & Hpre_i & _).
    assert (Hnotin : i ∉ pre).
    { intros Hin. apply (Hpre_i i Hin). left. }
    destruct (Hodd i) as (j & Hij & Hj); [set_solver|].
    destruct (lookup_lt_is_Some_2 offspring (i - 1)) as [a Ha]; [lia|].
    destruct (lookup_lt_is_Some_2 offspring i) as [b Hb]; [lia|].
    assert (Hab : a ≠ b).
    { intros ->. pose proof (NoDup_lookup _ _ _ _ Hnd Ha Hb). lia. }
    unfold submittable in Hsub. rewrite Forall_forall in Hsub.
    destruct (Hsub a) as (xa & ida & Hxa & Hida); [by eapply list_elem_of_lookup_2|].
    destruct (Hsub b) as (xb & idb & Hxb & Hidb); [by eapply list_elem_of_lookup_2|].
    assert (Hfresh : ∀ l, offspring !! (i - 1)%nat = Some l ∨ offspring !! i = Some l →
      ∀ i' : nat, i' ∈ pre →
        offspring !! (i' - 1)%nat ≠ Some l ∧ offspring !! i' ≠ Some l).
    { intros l Hl i' Hi'.
      destruct (Hodd i') as (j' & Hij' & _); [set_solver|].
      eapply (pair_positions_disjoint offspring i i' j j'); try done.
      intros ->. done. }
    assert (Hxa0 : heap s0 !! a = Some xa).
    { rewrite Hkeep0; [done|]. apply Hfresh. by left. }
    assert (Hxb0 : heap s0 !! b = Some xb).
    { rewrite Hkeep0; [done|]. apply Hfresh. by right. }
    eapply (wp_crossover offspring i a b xa xb ida idb); try done.
    set (ch := (mate toolbox (genes xa) (genes xb) (rng s0)).1).
    split; [|split; [|split]].
    + simpl. by rewrite !length_alter.
    + rewrite Hs0. by destruct s.
    + intros l Hl. simpl.
      assert (l ≠ a).
      { intros ->. destruct (Hl i) as [? _]; [set_solver | done]. }
      assert (l ≠ b).
      { intros ->. destruct (Hl i) as [_ ?]; [set_solver | done]. }
      rewrite !list_lookup_alter_ne by done.
      apply Hkeep0. intros i' Hi'. apply Hl. set_solver.
    + intros i' a' b' xa' xb' ida' idb' Hi' Ha' Hb' Hxa' Hxb' Hida' Hidb'.
      apply elem_of_app in Hi' as [Hi'|Hi'].
      * destruct (Hpairs0 i' a' b' xa' xb' ida' idb') as (r & Hra & Hrb); try done.
        exists r. simpl.
        destruct (Hfresh a (or_introl Ha) i' Hi') as [Ha1 Ha2].
        destruct (Hfresh b (or_intror Hb) i' Hi') as [Hb1 Hb2].
        assert (a ≠ a' ∧ a ≠ b' ∧ b ≠ a' ∧ b ≠ b') as (? & ? & ? & ?).
        { repeat split; intros <-; congruence. }
        by rewrite !list_lookup_alter_ne by done.
      * apply list_elem_of_singleton in Hi'. subst i'.
        assert (a' = a) by congruence. assert (b' = b) by congruence. subst a' b'.
        assert (xa' = xa) by congruence. assert (xb' = xb) by congruence.
        subst xa' xb'.
        assert (ida' = ida) by congruence. assert (idb' = idb) by congruence.
        subst ida' idb'.
        exists (rng s0). simpl. split.
        -- rewrite list_lookup_alter_ne by done.
           by rewrite list_lookup_alter_eq, Hxa0.
        -- by rewrite list_lookup_alter_eq, list_lookup_alter_ne, Hxb0 by done.
  - (* before the first pair *)
    unfold J. split; [done|]. split; [by destruct s|]. split; [done|].
    intros i a b xa xb ida idb Hi. by apply not_elem_of_nil in Hi.
  - (* after the last pair *)
    intros [] s' (Hlen & Hs' & Hkeep & Hpairs). unfold crossover_post.
    split; [done|]. split; [done|]. split.
    + intros l Hl. apply Hkeep. intros i Hi.
      apply elem_of_odd_positions in Hi as (j & -> & Hj).
      pose proof (Nat.div_mod_eq (length offspring) 2) as Hdm.
      pose proof (Nat.mod_upper_bound (length offspring) 2) as Hmod.
      split; intros Hil; apply Hl; apply list_elem_of_lookup;
        [exists (2 * j + 1 - 1)%nat | exists (2 * j + 1)%nat];
        rewrite lookup_take_lt by lia; done.
    + intros j a b xa xb ida idb Ha Hb Hxa Hxb Hida Hidb.
      apply (Hpairs (2 * j + 1)%nat a b xa xb ida idb); try done.
      * apply elem_of_odd_positions. exists j. split; [done|].
        by apply lookup_lt_Some in Hb.
      * by replace (2 * j + 1 - 1)%nat with (2 * j)%nat by lia.
  - done.
Qed.

(** ** Mutation *)

Lemma set_genes_set_genes g1 g2 x : set_genes g2 (set_genes g1 x) = set_genes g2 x.
Proof. done. Qed.

Lemma set_genes_same x : set_genes (genes x) x = x.
Proof. by destruct x. Qed.

Lemma mutate_loop offspring s :
  Forall (λ p, is_Some (heap s !! p)) offspring →
  wp (mutateUntilValid toolbox offspring)
    (λ _ s', length (heap s') = length (heap s) ∧
             s' = set_rng (rng s') (set_heap (heap s') s) ∧
             ∀ l x, heap s !! l = Some x →
               ∃ g', heap s' !! l = Some (set_genes g' x) ∧
                     (l ∉ offspring → heap s' !! l = Some x))
    no_raise s.
Proof.
  intros Hlive. unfold mutateUntilValid.
  apply (wp_for_each_inv
    (λ s', length (heap s') = length (heap s) ∧
           s' = set_rng (rng s') (set_heap (heap s') s) ∧
           ∀ l x, heap s !! l = Some x →
             ∃ g', heap s' !! l = Some (set_genes g' x) ∧
                   (l ∉ offspring → heap s' !! l = Some x))).
  - intros o s0 Ho (Hlen & Hs0 & Hcells).
    rewrite Forall_forall in Hlive. destruct (Hlive o Ho) as [x Hx].
    destruct (Hcells o x Hx) as (g0 & Hx0 & _).
    rewrite wp_bind, wp_deref, Hx0, wp_bind, wp_with_rng, wp_update.
    split; [|split].
    + simpl. by rewrite length_alter.
    + rewrite Hs0. by destruct s.
    + intros l y Hy. simpl. destruct (Hcells l y Hy) as (g1 & Hy0 & Hother).
      destruct (decide (l = o)) as [->|Hlo].
      * rewrite list_lookup_alter_eq, Hy0. simpl. eexists. split; [done|].
        intros Hnotin. done.
      * rewrite list_lookup_alter_ne by done. eauto.
  - split; [done|]. split; [by destruct s|].
    intros l x Hx. exists (genes x). by rewrite set_genes_same.
Qed.



(** ** Evaluation, whatever the backend returns *)

Lemma wp_storeResult_cases pop (ir : nat * (Z * Packed Out)) s Q :
  (∀ f o p x, ir.2.2 = Pack2 f o → pop !! ir.1 = Some p → heap s !! p = Some x →
     Q () (set_heap (alter (evaluated cfg f o) p (heap s)) s)) →
  wp (storeResult cfg pop ir) Q may_raise s.
Proof.
  destruct ir as [idx [ri [f o|n]]]; cbn [fst snd]; intros HQ.
  - destruct (pop !! idx) as [p|] eqn:Hp.
    + destruct (heap s !! p) as [x|] eqn:Hx.
      * apply (wp_storeResult pop idx ri f o). rewrite Hp.
        split; [by rewrite Hx | by eapply HQ].
      * unfold storeResult. rewrite wp_bind, wp_assert. simpl.
        rewrite wp_bind, wp_index, Hp, wp_bind, wp_update, wp_bind, wp_index, Hp.
        rewrite wp_bind, wp_update_sh, wp_bind, wp_index, Hp, wp_bind, wp_deref.
        simpl. by rewrite !list_lookup_alter_eq, Hx.
    + unfold storeResult. rewrite wp_bind, wp_assert. simpl.
      by rewrite wp_bind, wp_index, Hp.
  - unfold storeResult. rewrite wp_bind, wp_assert.
    rewrite bool_decide_false; [done|]. simpl. case_decide; lia.
Qed.

Lemma wp_list_comp_pure {A B} (f : A → M B) (xs : list A) s :
  (∀ a s0, wp (f a) (λ _ s1, s1 = s0) may_raise s0) →
  wp (list_comp f xs) (λ _ s', s' = s) may_raise s.
Proof.
  intros Hf. induction xs as [|a xs IH]; [done|].
  cbn [list_comp]. rewrite wp_bind.
  eapply wp_mono; [apply Hf | | done]. intros b s1 ->.
  rewrite wp_bind. eapply wp_mono; [apply IH | | done].
  by intros bs s1 ->.
Qed.

Lemma keeps_identity_refl x : keeps_identity x x.
Proof. done. Qed.

Lemma keeps_identity_evaluated f o x x0 :
  keeps_identity x0 x → keeps_identity x0 (evaluated cfg f o x).
Proof. by intros (? & ? & ? & ?). Qed.

Lemma eval_frame pop g s :
  wp (evalPopulationUsingPypet cfg toolbox pop g)
    (λ r s', r = pop ∧ eval_post pop s s') may_raise s.
Proof.
  unfold evalPopulationUsingPypet.
  rewrite wp_bind. eapply wp_mono; [apply wp_list_comp_pure | | done].
  { intros p s0. rewrite wp_getattr. destruct (heap s0 !! p) as [x|]; [|done].
    by destruct (ind_id x). }
  intros ids s1 ->.
  rewrite wp_bind. eapply wp_mono; [apply wp_list_comp_pure | | done].
  { intros p s0. rewrite wp_bind, wp_deref. by destruct (heap s0 !! p). }
  intros individuals s1 ->.
  rewrite wp_bind, wp_modify, wp_bind, wp_modify, wp_bind, wp_with_rng.
  set (s1 := set_rng _ _).
  assert (Hs1 : ∃ tr ec r, s1 = set_rng r (set_evaluationCounter ec (set_traj_runs tr s))).
  { by eexists _, _, _. }
  assert (Hh1 : heap s1 = heap s) by done.
  clearbody s1. cbv beta.
  set (rs := (map_evaluate toolbox g (zip ids individuals) _).1). clearbody rs.
  rewrite wp_bind, wp_assert. destruct (bool_decide _); [|done].
  rewrite wp_bind.
  eapply wp_mono;
    [apply (wp_for_each_inv (λ s', eval_post pop s s') may_raise) | | done].
  - intros ir s0 _ (Hlen & (tr & ec & r & Hs0) & Hcells).
    apply wp_storeResult_cases. intros f o p x Hpk Hp Hx.
    split; [|split].
    + simpl. by rewrite length_alter.
    + exists tr, ec, r. rewrite Hs0. by destruct s.
    + intros l y Hy. simpl. destruct (Hcells l y Hy) as (y' & Hy' & Hkeep & Hother).
      destruct (decide (l = p)) as [->|Hlp].
      * rewrite list_lookup_alter_eq, Hy'. simpl. eexists. split; [done|].
        split; [by apply keeps_identity_evaluated|].
        intros Hnotin. exfalso. apply Hnotin. by eapply list_elem_of_lookup_2.
      * rewrite list_lookup_alter_ne by done. eauto.
  - split; [by rewrite Hh1|]. split.
    + destruct Hs1 as (tr & ec & r & ->). exists tr, ec, r. by destruct s.
    + intros l x Hx. exists x. rewrite Hh1. by repeat split.
  - intros [] s' Hpost. by rewrite wp_ret.
Qed.

(** ** One generation *)

Ltac wp_use lem :=
  eapply wp_mono; [apply lem | | first [done | by intros ? ? []]].

Lemma generation_spec g s :
  submittable (heap s) (pop s) →
  wp (generation cfg toolbox g) (λ _ s', generation_post cfg toolbox g s s') may_raise s.
Proof.
  intros Hsub.
  pose proof (submittable_live _ _ Hsub) as Hlive.
  unfold generation.
  rewrite wp_bind, wp_modify, wp_bind, wp_get_self.
  set (s0 := set_self_gIdx (Some g) s).
  assert (Hs0 : s0 = set_self_gIdx (Some g) s) by done.
  assert (Hh0 : heap s0 = heap s) by done.
  assert (Hpop0 : pop s0 = pop s) by done.
  clearbody s0. rewrite Hpop0.
  (* triage *)
  rewrite wp_bind.
  wp_use wp_getValidPopulation.
  intros validpop ? (-> & Hread & Hvalid).
  rewrite wp_bind.
  wp_use wp_getInvalidPopulation.
  intros invalidpop ? (-> & _ & Hinvalid).
  rewrite Hh0 in Hread, Hvalid, Hinvalid.
  set (base := length (heap s)).
  set (n := length invalidpop).
  (* replacements *)
  rewrite wp_bind. unfold toolbox_population. rewrite Nat2Z.id.
  wp_use wp_population.
  intros newpop s2 (Hnewpop & gs & Hgs & Hgen & Hh2 & Hs2).
  rewrite Hh0 in Hnewpop, Hh2. fold base n in Hnewpop, Hgs.
  rewrite wp_bind. unfold tagPopulation at 1. rewrite wp_bind.
  wp_use (tag_loop_gen newpop s2 g).
  { rewrite Hs2, Hs0. done. }
  intros [] s3 (Htag3 & Hdec3 & Hpost3). rewrite wp_ret.
  pose proof Hpost3 as Hpost3'.
  destruct Hpost3 as (Hlast3 & Hlen3 & Htagged3 & Hother3 & Hs3).
  assert (Hlen2 : length (heap s2) = (base + n)%nat).
  { rewrite Hh2, length_app, length_fmap. lia. }
  assert (Hold3 : ∀ l x, heap s !! l = Some x → heap s3 !! l = Some x).
  { intros l x Hl. rewrite Hother3.
    - rewrite Hh2. by apply lookup_app_l_Some.
    - rewrite Hnewpop, elem_of_seq. apply lookup_lt_Some in Hl. fold base in Hl. lia. }
  (* parents *)
  rewrite wp_bind. wp_use wp_call_selection.
  intros parents s4 (_ & Hparents & Hs4).
  assert (Hh4 : heap s4 = heap s3) by (rewrite Hs4; done).
  assert (Hparents_id : ∀ p, p ∈ parents →
    ∃ x i, heap s4 !! p = Some x ∧ ind_id x = Some i).
  { intros p Hp. apply Hparents in Hp.
    unfold submittable in Hsub. rewrite Forall_forall in Hsub.
    destruct (Hsub p Hp) as (x & i & Hx & Hi). exists x, i.
    rewrite Hh4. split; [by apply Hold3 | done]. }
  (* clones *)
  rewrite wp_bind. wp_use wp_clones.
  { apply Forall_forall. intros p Hp.
    destruct (Hparents_id p Hp) as (x & i & Hx & _). by rewrite Hx. }
  intros offspring s5 (Hoffspring & xs & Hxs & Hh5 & Hs5).
  assert (Hlen4 : length (heap s4) = (base + n)%nat) by (rewrite Hh4; lia).
  rewrite Hlen4 in Hoffspring.
  set (m := length parents) in *.
  assert (Hlenxs : length xs = m) by (symmetry; by eapply Forall2_length).
  assert (Hsub5 : submittable (heap s5) offspring).
  { apply Forall_forall. intros o Ho. rewrite Hoffspring in Ho.
    apply elem_of_seq in Ho.
    destruct (lookup_lt_is_Some_2 parents (o - (base + n))) as [p Hp]; [lia|].
    destruct (Forall2_lookup_l _ _ _ _ _ Hxs Hp) as (x & Hx & Hpx).
    destruct (Hparents_id p) as (y & i & Hy & Hi); [by eapply list_elem_of_lookup_2|].
    assert (y = x) by congruence. subst y.
    exists (deepcopy x), i. split; [|done].
    rewrite Hh5, lookup_app_r by lia. by rewrite Hlen4, list_lookup_fmap, Hx. }
  assert (Hnd_off : NoDup offspring) by (rewrite Hoffspring; apply NoDup_seq).
  (* crossover *)
  rewrite wp_bind. wp_use (crossover_loop offspring s5 Hnd_off Hsub5).
  intros [] s6 (Hlen6 & Hs6 & Hkeep6 & _).
  (* mutation *)
  rewrite wp_bind. wp_use (mutate_loop offspring s6).
  { apply Forall_forall. intros o Ho. apply lookup_lt_is_Some. rewrite Hlen6.
    apply lookup_lt_is_Some. apply submittable_live in Hsub5.
    rewrite Forall_forall in Hsub5. by apply Hsub5. }
  intros [] s7 (Hlen7 & Hs7 & Hcells7).
  (* tagging the offspring *)
  rewrite wp_bind. unfold tagPopulation at 1. rewrite wp_bind.
  wp_use (tag_loop_gen offspring s7 g).
  { rewrite Hs7. simpl. rewrite Hs6. simpl. rewrite Hs5. simpl. rewrite Hs4. simpl.
    rewrite Hs3. simpl. rewrite Hs2, Hs0. done. }
  intros [] s8 (Htag8 & Hdec8 & Hpost8). rewrite wp_ret.
  pose proof Hpost8 as Hpost8'.
  destruct Hpost8 as (Hlast8 & Hlen8 & Htagged8 & Hother8 & Hs8).
  (* evaluation *)
  rewrite wp_bind, wp_modify, wp_bind.
  wp_use eval_frame.
  intros ? s10 (_ & Hlen10 & (tr & ec & r & Hs10) & Hcells10).
  rewrite wp_bind, wp_modify, wp_bind.
  wp_use wp_call_selection.
  intros pop' s12 (_ & Hpop' & Hs12).
  rewrite wp_bind, wp_modify, wp_bind.
  wp_use wp_saveToPypet.
  intros ? s13 (-> & rows & Hs13).
  rewrite wp_bind, wp_modify, wp_bind.
  wp_use wp_call_selection.
  intros best s14 (_ & _ & Hs14).
  rewrite wp_bind, wp_index. destruct (best !! 0%nat) as [b|]; [|done].
  rewrite wp_bind, wp_modify, wp_bind, wp_getattr.
  match goal with |- match ?o with _ => _ end => destruct o as [xb|]; [|done] end.
  destruct (fitness_score xb); [|done]. rewrite wp_ret.
  (* what the state is at the end *)
  set (sf := set_best_ind (Some b) s14).
  assert (Hb3 : history s3 = history s ∧ traj_generations s3 = traj_generations s ∧
                gIdx s3 = Some g ∧ last_id s2 = last_id s).
  { rewrite Hs3. simpl. rewrite Hs2, Hs0. done. }
  destruct Hb3 as (Hhist3 & Htraj3 & Hg3 & Hlast2).
  assert (Hb7 : history s7 = history s ∧ traj_generations s7 = traj_generations s ∧
                gIdx s7 = Some g ∧ last_id s7 = last_id s3).
  { rewrite Hs7. simpl. rewrite Hs6. simpl. rewrite Hs5. simpl. by rewrite Hs4. }
  destruct Hb7 as (Hhist7 & Htraj7 & Hg7 & Hlast7).
  assert (Hb10 : history s10 = history s ∧ traj_generations s10 = traj_generations s ∧
                 gIdx s10 = Some g ∧ last_id s10 = last_id s8).
  { rewrite Hs10. simpl. rewrite Hs8. done. }
  destruct Hb10 as (Hhist10 & Htraj10 & Hg10 & Hlast10).
  assert (Hbf : history sf = <[g:=validpop ++ offspring ++ newpop]> (history s) ∧
                traj_generations sf = traj_generations s ++ [(g, rows)] ∧
                gIdx sf = Some g ∧ last_id sf = last_id s8 ∧
                pop sf = pop' ∧ heap sf = heap s10).
  { unfold sf. simpl. rewrite Hs14. simpl. rewrite Hs13. simpl. rewrite Hs12. simpl.
    by rewrite Hhist10, Htraj10, Hg10, Hlast10. }
  destruct Hbf as (Hhistf & Htrajf & Hgf & Hlastf & Hpopf & Hhf).
  clearbody sf.
  (* the cells *)
  assert (Hlen5 : length (heap s5) = (base + n + m)%nat).
  { rewrite Hh5, length_app, length_fmap. lia. }
  assert (Hchain : ∀ l x, heap s3 !! l = Some x → l ∉ offspring →
    heap s8 !! l = Some x).
  { intros l x Hl Hnotin. rewrite Hother8 by done.
    destruct (Hcells7 l x) as (g' & _ & Hsame); [|by apply Hsame].
    rewrite Hkeep6.
    - rewrite Hh5, Hh4. by apply lookup_app_l_Some.
    - intros Hin. apply Hnotin. by eapply subseteq_take. }
  assert (Hold8 : ∀ l x, heap s !! l = Some x → heap s8 !! l = Some x).
  { intros l x Hl. apply Hchain; [by apply Hold3|].
    rewrite Hoffspring, elem_of_seq. apply lookup_lt_Some in Hl. fold base in Hl. lia. }
  assert (Hnew8 : ∀ p, p ∈ newpop →
    ∃ x, heap s8 !! p = Some x ∧ parentIds x = None ∧ ind_gIdx x = Some g ∧
         is_Some (ind_id x) ∧ ∃ r, genes x = (individualGenerator toolbox r).1).
  { intros p Hp. pose proof Hp as Hp'.
    apply list_elem_of_lookup in Hp as [k Hk].
    rewrite Hnewpop in Hp'. apply elem_of_seq in Hp'.
    destruct (lookup_lt_is_Some_2 (heap s2) p) as [x Hx]; [lia|].
    assert (Hxnew : ∃ g0 r0, x = new_Individual g0 ∧
                             g0 = (individualGenerator toolbox r0).1).
    { rewrite Hh2, lookup_app_r in Hx by (fold base; lia).
      apply list_lookup_fmap_Some in Hx as (g0 & -> & Hg0).
      rewrite Forall_forall in Hgen.
      destruct (Hgen g0) as [r0 Hr0]; [by eapply list_elem_of_lookup_2|].
      by exists g0, r0. }
    destruct Hxnew as (g0 & r0 & -> & Hg0).
    eexists. split.
    - apply Hchain; [by eapply Htagged3|].
      rewrite Hoffspring, elem_of_seq. lia.
    - repeat split; try done. by exists r0. }
  assert (Hoff8 : ∀ p, p ∈ offspring →
    ∃ x, heap s8 !! p = Some x ∧ ind_gIdx x = Some g ∧ is_Some (ind_id x)).
  { intros p Hp. pose proof Hp as Hp'.
    apply list_elem_of_lookup in Hp as [k Hk].
    unfold decodable in Hdec8. rewrite Forall_forall in Hdec8.
    destruct (Hdec8 p Hp') as (x & Hx & _).
    eexists. split; [by eapply Htagged8|]. by repeat split. }
  assert (Heval : ∀ l x, heap s8 !! l = Some x →
    ∃ x', heap sf !! l = Some x' ∧ keeps_identity x x' ∧
          (l ∉ offspring ++ newpop → x' = x)).
  { intros l x Hl. rewrite Hhf. by apply Hcells10. }
  assert (Hvalid' : validpop = filter (λ p, valid_at cfg (heap s) p) (pop s))
    by exact Hvalid.
  assert (Hinvalid' : invalidpop = filter (λ p, invalid_at cfg (heap s) p) (pop s))
    by exact Hinvalid.
  assert (Hold_out : ∀ l, is_Some (heap s !! l) → l ∉ offspring ++ newpop).
  { intros l Hl. apply lookup_lt_is_Some in Hl. fold base in Hl.
    rewrite elem_of_app, Hoffspring, Hnewpop, !elem_of_seq. lia. }
  unfold generation_post. exists m. cbv zeta.
  rewrite <- Hvalid', <- Hinvalid'. fold base n.
  rewrite <- Hnewpop, <- Hoffspring.
  split; [done|].
  split; [by rewrite Hpopf|].
  split.
  { rewrite Hpopf. apply Forall_forall. intros p Hp. apply Hpop' in Hp.
    rewrite !elem_of_app in Hp. destruct Hp as [Hp | [Hp | Hp]].
    - rewrite Hvalid' in Hp. apply list_elem_of_filter in Hp as [_ Hp].
      unfold submittable in Hsub. rewrite Forall_forall in Hsub.
      destruct (Hsub p Hp) as (x & i & Hx & Hi).
      destruct (Heval p x (Hold8 _ _ Hx)) as (x' & Hx' & (Hid & _) & _).
      exists x', i. split; [done | congruence].
    - destruct (Hoff8 p Hp) as (x & Hx & _ & [i Hi]).
      destruct (Heval p x Hx) as (x' & Hx' & (Hid & _) & _).
      exists x', i. split; [done | congruence].
    - destruct (Hnew8 p Hp) as (x & Hx & _ & _ & [i Hi] & _).
      destruct (Heval p x Hx) as (x' & Hx' & (Hid & _) & _).
      exists x', i. split; [done | congruence]. }
  split.
  { rewrite Hhf, Hlen10. simpl. by rewrite Hlen8, Hlen7, Hlen6. }
  split.
  { intros l x Hl. destruct (Heval l x (Hold8 _ _ Hl)) as (x' & Hx' & _ & Hsame).
    rewrite Hx', Hsame; [done|]. apply Hold_out. by rewrite Hl. }
  split.
  { intros p Hp. destruct (Hnew8 p Hp) as (x & Hx & Hpar & Hgx & [i Hi] & [r0 Hr0]).
    destruct (Heval p x Hx) as (x' & Hx' & (Hid & Hpar' & Hg' & Hgenes') & _).
    exists x'. split; [done|]. split; [congruence|]. split; [congruence|].
    split; [exists i; congruence|]. exists r0. congruence. }
  split.
  { intros p Hp. destruct (Hoff8 p Hp) as (x & Hx & Hgx & [i Hi]).
    destruct (Heval p x Hx) as (x' & Hx' & (Hid & Hpar' & Hg' & _) & _).
    exists x'. split; [done|]. split; [congruence|]. exists i. congruence. }
  split; [done|].
  split; [by exists rows|].
  (* ids *)
  intros Hbelow Hdist.
  assert (Hid2 : ∀ l, id_at (heap s2) l = id_at (heap s) l).
  { intros l. unfold id_at. rewrite Hh2.
    destruct (decide (l < base)%nat) as [Hlt|Hge].
    - by rewrite lookup_app_l.
    - rewrite lookup_app_r by (fold base; lia).
      rewrite (lookup_ge_None_2 (heap s)) by (fold base; lia).
      rewrite list_lookup_fmap. by destruct (gs !! _). }
  assert (Hok3 : ids_below (heap s3) (last_id s3) ∧ ids_distinct (heap s3)).
  { apply (tag_post_ids s2 g newpop s3 Hdec3 Hpost3').
    - intros l i Hi. rewrite Hid2 in Hi. rewrite Hlast2. by eapply Hbelow.
    - intros l1 l2 i H1 H2. rewrite Hid2 in H1, H2. by eapply Hdist. }
  destruct Hok3 as [Hbelow3 Hdist3].
  assert (Hid7 : ∀ l i, id_at (heap s7) l = Some i → id_at (heap s3) l = Some i).
  { intros l i Hi.
    destruct (decide (l ∈ offspring)) as [Hin|Hnotin].
    - destruct Htag8 as [_ Hnone]. rewrite Forall_forall in Hnone.
      rewrite (Hnone l Hin) in Hi. done.
    - destruct (heap s3 !! l) as [x|] eqn:Hx.
      + assert (Hx7 : heap s7 !! l = Some x).
        { destruct (Hcells7 l x) as (g' & _ & Hsame); [|by apply Hsame].
          rewrite Hkeep6.
          - rewrite Hh5, Hh4. by apply lookup_app_l_Some.
          - intros Hin. apply Hnotin. by eapply subseteq_take. }
        unfold id_at in *. by rewrite Hx7 in Hi; rewrite Hx.
      + apply lookup_ge_None in Hx. rewrite Hlen3, Hlen2 in Hx.
        rewrite Hoffspring, elem_of_seq in Hnotin.
        unfold id_at in Hi. rewrite lookup_ge_None_2 in Hi; [done|].
        rewrite Hlen7, Hlen6, Hlen5. lia. }
  assert (Hok8 : ids_below (heap s8) (last_id s8) ∧ ids_distinct (heap s8)).
  { apply (tag_post_ids s7 g offspring s8 Hdec8 Hpost8').
    - intros l i Hi. rewrite Hlast7. eapply Hbelow3. by apply Hid7.
    - intros l1 l2 i H1 H2. eapply Hdist3; by apply Hid7. }
  destruct Hok8 as [Hbelow8 Hdist8].
  assert (Hidf : ∀ l i, id_at (heap sf) l = Some i → id_at (heap s8) l = Some i).
  { intros l i Hi. destruct (heap s8 !! l) as [x|] eqn:Hx.
    - destruct (Heval l x Hx) as (x' & Hx' & (Hid & _) & _).
      unfold id_at in *. rewrite Hx' in Hi. rewrite Hx. simpl in *. congruence.
    - apply lookup_ge_None in Hx. unfold id_at in Hi.
      rewrite lookup_ge_None_2 in Hi; [done|].
      rewrite Hhf, Hlen10. simpl. lia. }
  split.
  - intros l i Hi. rewrite Hlastf. eapply Hbelow8. by apply Hidf.
  - intros l1 l2 i H1 H2. eapply Hdist8; by apply Hidf.
Qed.

(** What a generation that returns has done. *)
Lemma generation_returned g s s' :
  submittable (heap s) (pop s) →
  generation cfg toolbox g s = (Returned (), s') →
  generation_post cfg toolbox g s s'.
Proof.
  intros Hsub Hgen.
  exact (wp_of_eq _ _ _ _ _ _ Hgen (generation_spec g s Hsub)).
Qed.

(** ** The history is written by the record step only *)

Section KeepsHistory.

Variable g : Z.

Local Abbreviation keeps := (@keeps_history Out R g _).

Lemma keeps_history_ret {A} (a : A) : keeps (mret a : @M Out R A).
Proof. by intros s. Qed.

Lemma keeps_history_raise {A} e : keeps (raise e : @M Out R A).
Proof. by intros s. Qed.

Lemma keeps_history_bind {A B} (m : @M Out R A) (f : A → @M Out R B) :
  keeps m → (∀ a, keeps (f a)) → keeps (m ≫= f).
Proof.
  intros Hm Hf s. rewrite wp_bind. eapply wp_mono; [apply Hm | | done].
  intros a s1 H1. eapply wp_mono; [apply Hf | |]; cbv beta.
  - intros b s2 H2 k Hk. by rewrite H2, H1.
  - intros e s2 H2 k Hk. by rewrite H2, H1.
Qed.

Lemma keeps_history_modify (f : @Evolution Out R → @Evolution Out R) :
  (∀ s k, k ≠ g → history (f s) !! k = history s !! k) →
  keeps (modify f).
Proof. intros Hf s. rewrite wp_modify. apply Hf. Qed.

Lemma keeps_history_get_self : keeps get_self.
Proof. by intros s. Qed.

Lemma keeps_history_assert b msg : keeps (py_assert b msg).
Proof. intros s. rewrite wp_assert. by destruct b. Qed.

Lemma keeps_history_deref l : keeps (deref l).
Proof. intros s. rewrite wp_deref. by destruct (heap s !! l). Qed.

Lemma keeps_history_update l f : keeps (update l f).
Proof. by intros s. Qed.

Lemma keeps_history_alloc x : keeps (alloc x).
Proof. by intros s. Qed.

Lemma keeps_history_index {A} (xs : list A) i : keeps (index xs i).
Proof. intros s. rewrite wp_index. by destruct (xs !! i). Qed.

Lemma keeps_history_getattr {A} name (field : @Individual Out → option A) l :
  keeps (getattr name field l).
Proof.
  intros s. rewrite wp_getattr. destruct (heap s !! l) as [x|]; [|done].
  by destruct (field x).
Qed.

Lemma keeps_history_self_attr {A} name (field : @Evolution Out R → option A) :
  keeps (self_attr name field).
Proof. intros s. rewrite wp_self_attr. by destruct (field s). Qed.

Lemma keeps_history_with_rng {A} (f : R → A * R) : keeps (with_rng f).
Proof. intros s. by rewrite wp_with_rng. Qed.

Lemma keeps_history_of_outcome {A} (o : Outcome A) : keeps (of_outcome o).
Proof. intros s. rewrite wp_of_outcome. by destruct o. Qed.

Lemma keeps_history_for_each {A} (xs : list A) (body : A → @M Out R unit) :
  (∀ a, keeps (body a)) → keeps (for_each xs body).
Proof.
  intros Hbody. induction xs as [|a xs IH]; [by intros s|].
  cbn [for_each]. apply keeps_history_bind; [apply Hbody | by intros _].
Qed.

Lemma keeps_history_list_comp {A B} (f : A → @M Out R B) (xs : list A) :
  (∀ a, keeps (f a)) → keeps (list_comp f xs).
Proof.
  intros Hf. induction xs as [|a xs IH]; [by intros s|].
  cbn [list_comp]. apply keeps_history_bind; [apply Hf|]. intros b.
  apply keeps_history_bind; [apply IH|]. intros bs. apply keeps_history_ret.
Qed.

Lemma keeps_history_list_comp_if {A} (test : A → @M Out R bool) (xs : list A) :
  (∀ a, keeps (test a)) → keeps (list_comp_if test xs).
Proof.
  intros Hf. induction xs as [|a xs IH]; [by intros s|].
  cbn [list_comp_if]. apply keeps_history_bind; [apply Hf|]. intros b.
  apply keeps_history_bind; [apply IH|]. intros bs. apply keeps_history_ret.
Qed.

Lemma keeps_history_initRepeat {A} (func : @M Out R A) (n : nat) :
  keeps func → keeps (initRepeat func n).
Proof.
  intros Hf. induction n as [|n IH]; [by intros s|].
  cbn [initRepeat]. apply keeps_history_bind; [apply Hf|]. intros b.
  apply keeps_history_bind; [apply IH|]. intros bs. apply keeps_history_ret.
Qed.

Create HintDb keeps_history.

#[local] Hint Resolve keeps_history_ret keeps_history_raise keeps_history_get_self
  keeps_history_assert keeps_history_deref keeps_history_update
  keeps_history_alloc keeps_history_index keeps_history_getattr
  keeps_history_self_attr keeps_history_with_rng keeps_history_of_outcome
  : keeps_history.

(** Follows the structure of a computation. *)
Ltac keeps_history_tac :=
  repeat first
    [ match goal with |- ∀ _, _ => intro end
    | solve [auto with keeps_history]
    | apply keeps_history_bind
    | apply keeps_history_for_each
    | apply keeps_history_list_comp
    | apply keeps_history_list_comp_if
    | apply keeps_history_initRepeat
    | apply keeps_history_modify; solve [by intros]
    | match goal with
      | |- keeps_history _ (match ?x with _ => _ end) => destruct x
      | |- keeps_history _ (let '(_, _) := ?x in _) => destruct x
      end ].

Lemma keeps_history_tagPopulation pop : keeps (tagPopulation cfg pop).
Proof. unfold tagPopulation, tagIndividual, individualToDict. keeps_history_tac. Qed.

Lemma keeps_history_eval pop gIdx :
  keeps (evalPopulationUsingPypet cfg toolbox pop gIdx).
Proof. unfold evalPopulationUsingPypet, storeResult. keeps_history_tac. Qed.

Lemma keeps_history_population n : keeps (toolbox_population toolbox n).
Proof. unfold toolbox_population, toolbox_individual. keeps_history_tac. Qed.

Lemma keeps_history_selection op pop k : keeps (call_selection op pop k).
Proof. unfold call_selection. keeps_history_tac. Qed.

Lemma keeps_history_saveToPypet pop gIdx : keeps (saveToPypet pop gIdx).
Proof. unfold saveToPypet. keeps_history_tac. Qed.

Lemma keeps_history_crossover offspring i :
  keeps (crossover toolbox offspring i).
Proof. unfold crossover, del_id. keeps_history_tac. Qed.

Lemma keeps_history_mutate offspring :
  keeps (mutateUntilValid toolbox offspring).
Proof. unfold mutateUntilValid. keeps_history_tac. Qed.

Lemma keeps_history_triage pop :
  keeps (getValidPopulation cfg pop) ∧
  keeps (getInvalidPopulation cfg pop).
Proof. unfold getValidPopulation, getInvalidPopulation. split; keeps_history_tac. Qed.

#[local] Hint Resolve keeps_history_tagPopulation keeps_history_eval
  keeps_history_population keeps_history_selection keeps_history_saveToPypet
  keeps_history_crossover keeps_history_mutate : keeps_history.

Lemma keeps_history_generation : keeps (generation cfg toolbox g).
Proof.
  unfold generation.
  pose proof keeps_history_triage as Htriage.
  keeps_history_tac; try apply Htriage.
  apply keeps_history_modify. intros s k Hk. simpl. by rewrite lookup_insert_ne.
Qed.

End KeepsHistory.

(** Generations write their own entries only. *)
Lemma loop_keeps_history (gens : list Z) : ∀ s out s',
  for_each gens (generation cfg toolbox) s = (out, s') →
  ∀ k, k ∉ gens → history s' !! k = history s !! k.
Proof.
  induction gens as [|g gens IH]; intros s out s' Hrun k Hk.
  - by injection Hrun as <- <-.
  - apply not_elem_of_cons in Hk as [Hkg Hk].
    cbn [for_each] in Hrun. unfold mbind, M_bind in Hrun.
    pose proof (keeps_history_generation g s) as Hg. unfold wp in Hg.
    destruct (generation cfg toolbox g s) as [[[]|e] s1].
    + rewrite (IH _ _ _ Hrun k Hk). by apply Hg.
    + simplify_eq. by apply Hg.
Qed.

Lemma invalid_not_valid h p : invalid_at cfg h p → ¬ valid_at cfg h p.
Proof.
  unfold invalid_at, valid_at. destruct (h !! p) as [x|]; simpl; [|done].
  unfold is_invalid, is_valid.
  destruct (invalid_fitness cfg x) as [[]|]; simpl; tauto.
Qed.

Lemma old_not_in_new h (l a b n m : nat) :
  is_Some (h !! l) → (length h ≤ a)%nat → (length h ≤ b)%nat →
  l ∉ seq a n ++ seq b m.
Proof.
  intros Hl Ha Hb. apply lookup_lt_is_Some in Hl.
  rewrite elem_of_app, !elem_of_seq. lia.
Qed.


(** C4 (as the code has it).  In a generation that returns, run on a tagged
    population, the candidates recorded for the generation are the pool
    given to the survivor selection, the next population is drawn from that
    pool, and
    - no individual of the current population whose fitness values have a
      NaN or Inf component is in the pool or in the next population;
    - every member of the pool that comes from the current population is
      valid.
    (The offspring and the replacements enter the pool as evaluated,
    whatever their fitness values.) *)
Theorem invalid_members_leave_the_pool g s s' :
  submittable (heap s) (pop s) →
  generation cfg toolbox g s = (Returned (), s') →
  ∃ pool, history s' !! g = Some pool ∧
    pop s' ⊆ pool ∧
    (∀ p, p ∈ pop s → invalid_at cfg (heap s) p → (p ∉ pool) ∧ (p ∉ pop s')) ∧
    (∀ p, p ∈ pool → is_Some (heap s !! p) →
       p ∈ pop s ∧ valid_at cfg (heap s) p ∧ valid_at cfg (heap s') p).
Proof.
  intros Hsub Hgen.
  pose proof (submittable_live _ _ Hsub) as Hlive.
  rewrite Forall_forall in Hlive.
  destruct (generation_returned g s s' Hsub Hgen)
    as (m & Hhist & Hpop & _ & _ & Hold & _).
  set (validpop := filter (λ p, valid_at cfg (heap s) p) (pop s)) in *.
  set (n := length (filter (λ p, invalid_at cfg (heap s) p) (pop s))) in *.
  eexists. split; [by rewrite Hhist, lookup_insert_eq|]. split; [done|].
  assert (Hpool : ∀ p, is_Some (heap s !! p) →
    p ∈ validpop ++ seq (length (heap s) + n) m ++ seq (length (heap s)) n →
    p ∈ validpop).
  { intros p Hp Hin. apply elem_of_app in Hin as [Hin|Hin]; [done|].
    exfalso. revert Hin. apply (old_not_in_new (heap s)); [done | lia..]. }
  split.
  - intros p Hp Hinv.
    assert (Hnotin : p ∉ validpop ++ seq (length (heap s) + n) m
                           ++ seq (length (heap s)) n).
    { intros Hin. apply Hpool in Hin; [|by apply Hlive].
      apply list_elem_of_filter in Hin as [Hv _]. by eapply invalid_not_valid. }
    split; [done|]. intros Hin. by apply Hnotin, Hpop.
  - intros p Hin Hp. apply Hpool in Hin; [|done].
    apply list_elem_of_filter in Hin as [Hv Hin].
    split; [done|]. split; [done|].
    destruct Hp as [x Hx]. unfold valid_at in *.
    by rewrite (Hold p x Hx); rewrite Hx in Hv.
Qed.


(** ** The generational loop *)

Lemma length_py_range lo hi : length (py_range lo hi) = Z.to_nat (hi - lo).
Proof. unfold py_range. by rewrite length_fmap, length_seq. Qed.

(** A loop over generations that returns has recorded a history entry and
    handed one generation to the trajectory per iteration, in order, and
    leaves [gIdx] at the last index. *)
Lemma loop_generations (gens : list Z) : ∀ s s',
  submittable (heap s) (pop s) →
  for_each gens (generation cfg toolbox) s = (Returned (), s') →
  submittable (heap s') (pop s') ∧
  (traj_generations s').*1 = (traj_generations s).*1 ++ gens ∧
  (∀ k, is_Some (history s' !! k) ↔ k ∈ gens ∨ is_Some (history s !! k)) ∧
  gIdx s' = from_option Some (gIdx s) (last gens).
Proof.
  induction gens as [|g gens IH]; intros s s' Hsub Hrun.
  - injection Hrun as <-. rewrite app_nil_r. repeat split; try done.
    + by right.
    + intros [Hin|]; [|done]. by apply elem_of_nil in Hin.
  - cbn [for_each] in Hrun. unfold mbind, M_bind in Hrun.
    destruct (generation cfg toolbox g s) as [[[]|e] s1] eqn:Hgen; [|done].
    destruct (generation_returned g s s1 Hsub Hgen)
      as (m & Hhist & _ & Hsub1 & _ & _ & _ & _ & Hg1 & [rows Htraj] & _).
    destruct (IH s1 s' Hsub1 Hrun) as (Hsub' & Htraj' & Hhist' & Hg').
    split; [done|]. split; [|split].
    + rewrite Htraj', Htraj, fmap_app. simpl. by rewrite <- app_assoc.
    + intros k. rewrite Hhist', Hhist, lookup_insert_is_Some, elem_of_cons.
      destruct (decide (g = k)); naive_solver.
    + rewrite Hg', Hg1, last_cons. by destruct (last gens).
Qed.

Lemma buildEvolutionTree_traj s :
  wp buildEvolutionTree
    (λ _ s', traj_generations s' = traj_generations s ∧
             history s' = history s ∧ gIdx s' = gIdx s)
    may_raise s.
Proof.
  unfold buildEvolutionTree. rewrite wp_bind, wp_modify, wp_bind, wp_get_self.
  set (s0 := set_genealogy ∅ ∅ ∅ s).
  assert (Hs0 : traj_generations s0 = traj_generations s ∧
                history s0 = history s ∧ gIdx s0 = gIdx s) by done.
  clearbody s0.
  generalize (history_items (history s0)). intros items.
  apply (wp_for_each_inv
           (λ s', traj_generations s' = traj_generations s ∧
                  history s' = history s ∧ gIdx s' = gIdx s)); [|done].
  intros [gen pop] s1 _ H1.
  apply (wp_for_each_inv
           (λ s', traj_generations s' = traj_generations s ∧
                  history s' = history s ∧ gIdx s' = gIdx s)); [|done].
  intros p s2 _ H2.
  rewrite wp_bind, wp_deref. destruct (heap s2 !! p) as [x|] eqn:Hx; [|done].
  rewrite wp_bind, wp_getattr, Hx. destruct (ind_id x) as [i|]; [|done].
  rewrite wp_bind, wp_modify, wp_bind, wp_getattr. simpl. rewrite Hx.
  destruct (ind_gIdx x) as [gx|]; [|done].
  rewrite wp_bind, wp_modify, wp_bind, wp_getattr. simpl. rewrite Hx.
  destruct (fitness_score x) as [sc|]; [|done].
  by rewrite wp_modify.
Qed.

(** C3 (as the code has it).  A call of [runEvolution] that returns, on a
    tagged population at generation index [g0], has run its loop body once
    for each index of [range(g0 + 1, g0 + NGEN)]: [NGEN - 1] times, and not
    at all when [NGEN] is below 2.  Each body has handed one generation to
    the trajectory and recorded one history entry, under its index, and
    [gIdx] is left at the last index of the range. *)
Theorem runEvolution_generation_count s s' g0 :
  gIdx s = Some g0 →
  submittable (heap s) (pop s) →
  runEvolution cfg toolbox s = (Returned (), s') →
  (traj_generations s').*1
  = (traj_generations s).*1 ++ py_range (g0 + 1) (g0 + NGEN cfg) ∧
  length (py_range (g0 + 1) (g0 + NGEN cfg)) = Z.to_nat (NGEN cfg - 1) ∧
  (∀ k, is_Some (history s' !! k) ↔
        k ∈ py_range (g0 + 1) (g0 + NGEN cfg) ∨ is_Some (history s !! k)) ∧
  gIdx s' = Some (default g0 (last (py_range (g0 + 1) (g0 + NGEN cfg)))).
Proof.
  intros Hg Hsub Hrun.
  assert (Hlen : length (py_range (g0 + 1) (g0 + NGEN cfg))
                 = Z.to_nat (NGEN cfg - 1)).
  { rewrite length_py_range. f_equal. lia. }
  unfold runEvolution in Hrun.
  unfold mbind at 1, M_bind at 1, self_attr at 1 in Hrun.
  unfold mbind at 1, M_bind at 1, get_self at 1 in Hrun.
  rewrite Hg in Hrun. cbn [mret M_ret] in Hrun.
  unfold mbind at 1, M_bind at 1 in Hrun.
  destruct (for_each (py_range (g0 + 1) (g0 + NGEN cfg))
              (generation cfg toolbox) s) as [[[]|e] s1] eqn:Hloop; [|done].
  destruct (loop_generations _ s s1 Hsub Hloop) as (_ & Htraj & Hhist & Hg1).
  unfold mbind at 1, M_bind at 1, self_attr at 1 in Hrun.
  unfold mbind at 1, M_bind at 1, get_self at 1 in Hrun.
  destruct (best_ind s1) as [b|]; [|done]. cbn [mret M_ret] in Hrun.
  pose proof (buildEvolutionTree_traj s1) as Htree.
  apply (wp_of_eq _ _ _ _ _ _ Hrun) in Htree as (Ht & Hh & Hgi).
  rewrite Ht, Hh, Hgi. split; [done|]. split; [done|]. split; [done|].
  rewrite Hg1, Hg. by destruct (last _).
Qed.

(** ** The initial generation *)

Lemma runInitial_spec s :
  wp (runInitial cfg toolbox)
    (λ _ s', submittable (heap s') (pop s') ∧
             gIdx s' = Some 0 ∧
             (ids_below (heap s) (last_id s) → ids_distinct (heap s) →
                ids_below (heap s') (last_id s') ∧ ids_distinct (heap s')))
    may_raise s.
Proof.
  unfold runInitial.
  rewrite wp_bind. unfold toolbox_population.
  wp_use wp_population.
  intros newpop s1 (Hnewpop & gs & Hgs & _ & Hh1 & Hs1).
  rewrite wp_bind, wp_modify, wp_bind, wp_modify, wp_bind.
  set (s2 := set_self_gIdx (Some 0) (set_pop newpop s1)).
  assert (Hh2 : heap s2 = heap s ++ (new_Individual <$> gs)) by done.
  assert (Hlast2 : last_id s2 = last_id s) by (unfold s2; simpl; by rewrite Hs1).
  assert (Hg2 : gIdx s2 = Some 0) by done.
  clearbody s2.
  unfold tagPopulation at 1. rewrite wp_bind.
  wp_use (tag_loop_gen newpop s2 0 Hg2).
  intros [] s3 (Htag3 & Hdec3 & Hpost3). rewrite wp_ret.
  pose proof Hpost3 as (Hlast3 & Hlen3 & Htagged3 & Hother3 & Hs3).
  rewrite wp_bind, wp_modify, wp_bind.
  wp_use eval_frame.
  intros ? s4 (-> & Hlen4 & (tr & ec & r & Hs4) & Hcells4).
  rewrite wp_bind, wp_modify, wp_bind.
  wp_use wp_saveToPypet.
  intros ? s5 (-> & rows & Hs5).
  rewrite wp_bind, wp_modify, wp_bind.
  wp_use wp_call_selection.
  intros pop' s6 (_ & Hpop' & Hs6).
  rewrite wp_bind, wp_modify, wp_bind, wp_modify, wp_modify.
  set (sf := set_history _ _).
  assert (Hbf : pop sf = pop' ∧ heap sf = heap s4 ∧ gIdx sf = Some 0 ∧
                last_id sf = last_id s3).
  { unfold sf. simpl. rewrite Hs6. simpl. rewrite Hs5. simpl. rewrite Hs4. simpl.
    rewrite Hs3. simpl. by rewrite Hg2. }
  destruct Hbf as (Hpopf & Hhf & Hgf & Hlastf). clearbody sf.
  assert (Hid4 : ∀ l, id_at (heap sf) l = id_at (heap s3) l).
  { intros l. rewrite Hhf. destruct (heap s3 !! l) as [x|] eqn:Hx.
    - destruct (Hcells4 l x) as (x' & Hx' & (Hid & _) & _); [done|].
      unfold id_at. by rewrite Hx', Hx; simpl.
    - unfold id_at. rewrite Hx. apply lookup_ge_None in Hx.
      rewrite lookup_ge_None_2; [done|]. rewrite Hlen4. simpl. lia. }
  split; [|split; [done|]].
  - rewrite Hpopf. apply Forall_forall. intros p Hp. apply Hpop' in Hp.
    apply list_elem_of_lookup in Hp as [k Hk].
    unfold decodable in Hdec3. rewrite Forall_forall in Hdec3.
    destruct (Hdec3 p) as (x & Hx & _); [by eapply list_elem_of_lookup_2|].
    pose proof (Htagged3 k p x Hk Hx) as Hx3.
    pose proof (Hid4 p) as Hidp. unfold id_at in Hidp. rewrite Hx3 in Hidp.
    simpl in Hidp.
    destruct (heap sf !! p) as [x'|]; [|done]. simpl in Hidp. eauto.
  - intros Hbelow Hdist.
    assert (Hid2 : ∀ l, id_at (heap s2) l = id_at (heap s) l).
    { intros l. unfold id_at. rewrite Hh2.
      destruct (decide (l < length (heap s))%nat) as [Hlt|Hge].
      - by rewrite lookup_app_l.
      - rewrite lookup_app_r by lia.
        rewrite (lookup_ge_None_2 (heap s)) by lia.
        rewrite list_lookup_fmap. by destruct (gs !! _). }
    destruct (tag_post_ids s2 0 newpop s3 Hdec3 Hpost3) as [Hbelow3 Hdist3].
    + intros l i Hi. rewrite Hid2 in Hi. rewrite Hlast2. by eapply Hbelow.
    + intros l1 l2 i H1 H2. rewrite Hid2 in H1, H2. by eapply Hdist.
    + split.
      * intros l i Hi. rewrite Hid4 in Hi. rewrite Hlastf. by eapply Hbelow3.
      * intros l1 l2 i H1 H2. rewrite Hid4 in H1, H2. by eapply Hdist3.
Qed.

(** ** Ids *)


(** ** What a method leaves as it is, whatever its outcome *)

Section Preserves.

Context {X : Type}.
Variable f : @Evolution Out R → X.
Hypothesis f_heap : ∀ h s, f (set_heap h s) = f s.
Hypothesis f_rng : ∀ r s, f (set_rng r s) = f s.

Local Abbreviation pres := (@preserves Out R X _ f).

Lemma preserves_ret {A} (a : A) : pres (mret a : @M Out R A).
Proof. by intros s. Qed.

Lemma preserves_raise {A} e : pres (raise e : @M Out R A).
Proof. by intros s. Qed.

Lemma preserves_bind {A B} (m : @M Out R A) (k : A → @M Out R B) :
  pres m → (∀ a, pres (k a)) → pres (m ≫= k).
Proof.
  intros Hm Hk s. rewrite wp_bind. eapply wp_mono; [apply Hm | | done].
  intros a s1 H1. eapply wp_mono; [apply Hk | |]; cbv beta.
  - intros b s2 H2. by rewrite H2, H1.
  - intros e s2 H2. by rewrite H2, H1.
Qed.

Lemma preserves_modify (u : @Evolution Out R → @Evolution Out R) :
  (∀ s, f (u s) = f s) → pres (modify u).
Proof. intros Hu s. rewrite wp_modify. apply Hu. Qed.

Lemma preserves_get_self : pres get_self.
Proof. by intros s. Qed.

Lemma preserves_assert b msg : pres (py_assert b msg).
Proof. intros s. rewrite wp_assert. by destruct b. Qed.

Lemma preserves_deref l : pres (deref l).
Proof. intros s. rewrite wp_deref. by destruct (heap s !! l). Qed.

Lemma preserves_update l u : pres (update l u).
Proof. intros s. rewrite wp_update. apply f_heap. Qed.

Lemma preserves_alloc x : pres (alloc x).
Proof. intros s. rewrite wp_alloc. apply f_heap. Qed.

Lemma preserves_index {A} (xs : list A) i : pres (index xs i).
Proof. intros s. rewrite wp_index. by destruct (xs !! i). Qed.

Lemma preserves_getattr {A} name (field : @Individual Out → option A) l :
  pres (getattr name field l).
Proof.
  intros s. rewrite wp_getattr. destruct (heap s !! l) as [x|]; [|done].
  by destruct (field x).
Qed.

Lemma preserves_self_attr {A} name (field : @Evolution Out R → option A) :
  pres (self_attr name field).
Proof. intros s. rewrite wp_self_attr. by destruct (field s). Qed.

Lemma preserves_with_rng {A} (op : R → A * R) : pres (with_rng op).
Proof. intros s. rewrite wp_with_rng. apply f_rng. Qed.

Lemma preserves_of_outcome {A} (o : Outcome A) : pres (of_outcome o).
Proof. intros s. rewrite wp_of_outcome. by destruct o. Qed.

Lemma preserves_for_each {A} (xs : list A) (body : A → @M Out R unit) :
  (∀ a, pres (body a)) → pres (for_each xs body).
Proof.
  intros Hbody. induction xs as [|a xs IH]; [by intros s|].
  cbn [for_each]. apply preserves_bind; [apply Hbody | by intros _].
Qed.

Lemma preserves_list_comp {A B} (k : A → @M Out R B) (xs : list A) :
  (∀ a, pres (k a)) → pres (list_comp k xs).
Proof.
  intros Hk. induction xs as [|a xs IH]; [by intros s|].
  cbn [list_comp]. apply preserves_bind; [apply Hk|]. intros b.
  apply preserves_bind; [apply IH|]. intros bs. apply preserves_ret.
Qed.

Lemma preserves_list_comp_if {A} (test : A → @M Out R bool) (xs : list A) :
  (∀ a, pres (test a)) → pres (list_comp_if test xs).
Proof.
  intros Hk. induction xs as [|a xs IH]; [by intros s|].
  cbn [list_comp_if]. apply preserves_bind; [apply Hk|]. intros b.
  apply preserves_bind; [apply IH|]. intros bs. apply preserves_ret.
Qed.

Lemma preserves_initRepeat {A} (func : @M Out R A) (n : nat) :
  pres func → pres (initRepeat func n).
Proof.
  intros Hk. induction n as [|n IH]; [by intros s|].
  cbn [initRepeat]. apply preserves_bind; [apply Hk|]. intros b.
  apply preserves_bind; [apply IH|]. intros bs. apply preserves_ret.
Qed.

(** A step that preserves [f], in a computation that started in [s0]. *)
Lemma preserves_step {A B} (m : @M Out R A) (k : A → @M Out R B) s0 s Q :
  pres m →
  f s = f s0 →
  (∀ a s1, f s1 = f s0 → wp (k a) Q (λ _ s', f s' = f s0) s1) →
  wp (m ≫= k) Q (λ _ s', f s' = f s0) s.
Proof.
  intros Hm Hs Hk. rewrite wp_bind. eapply wp_mono; [apply Hm | |]; cbv beta.
  - intros a s1 H1. apply Hk. by rewrite H1.
  - intros e s1 H1. by rewrite H1.
Qed.

End Preserves.

Create HintDb preserves.

#[local] Hint Resolve preserves_ret preserves_raise preserves_get_self
  preserves_assert preserves_deref preserves_update
  preserves_alloc preserves_index preserves_getattr
  preserves_self_attr preserves_with_rng preserves_of_outcome : preserves.

(** Follows the structure of a computation; the side conditions on the
    observation are closed by computation. *)
Ltac preserves_tac :=
  repeat first
    [ match goal with |- ∀ _, _ => intro end
    | solve [auto with preserves]
    | apply preserves_bind
    | apply preserves_for_each
    | apply preserves_list_comp
    | apply preserves_list_comp_if
    | apply preserves_initRepeat
    | apply preserves_modify; solve [by intros]
    | match goal with
      | |- preserves _ (match ?x with _ => _ end) => destruct x
      | |- preserves _ (let '(_, _) := ?x in _) => destruct x
      end ].
(** ** A bootstrap that fails *)

Lemma preserves_bootstrap_prefix :
  let pres {A} := @preserves Out R _ A bootstrap_record in
  (∀ n, pres (toolbox_population toolbox n)) ∧
  (∀ pop, pres (tagPopulation cfg pop)) ∧
  (∀ pop g, pres (evalPopulationUsingPypet cfg toolbox pop g)) ∧
  (∀ pop g, pres (saveToPypet pop g)) ∧
  (∀ op pop k, pres (call_selection op pop k)).
Proof.
  intros pres. unfold pres. repeat split.
  - unfold toolbox_population, toolbox_individual. preserves_tac.
  - unfold tagPopulation, tagIndividual, individualToDict. preserves_tac.
  - unfold evalPopulationUsingPypet, storeResult. preserves_tac.
  - unfold saveToPypet. preserves_tac.
  - unfold call_selection. preserves_tac.
Qed.

(** [runInitial] sets [_initialPopulationSimulated] and the history entry of
    generation 0 in its last two statements, which cannot fail.  So a call
    that raises, at any point (a failed tagging, an evaluation without
    results, a malformed or missing result), leaves the flag and the whole
    history as they were; and a call that returns has set the flag. *)
Theorem runInitial_raises_before_recording s :
  (∀ e s', runInitial cfg toolbox s = (Raised e, s') →
     initialPopulationSimulated s' = initialPopulationSimulated s ∧
     history s' = history s) ∧
  (∀ s', runInitial cfg toolbox s = (Returned (), s') →
     initialPopulationSimulated s' = true ∧
     history s' = <[0 := pop s']> (history s)).
Proof.
  destruct preserves_bootstrap_prefix as (Hpop & Htag & Heval & Hsave & Hsel).
  assert (H : wp (runInitial cfg toolbox)
                (λ _ s1, initialPopulationSimulated s1 = true ∧
                         history s1 = <[0 := pop s1]> (history s))
                (λ _ s1, bootstrap_record s1 = bootstrap_record s) s).
  { unfold runInitial.
    apply preserves_step; [apply Hpop | done |]. intros pop0 s1 H1.
    apply preserves_step; [by apply preserves_modify | done |]. intros _ s2 H2.
    apply preserves_step; [by apply preserves_modify | done |]. intros _ s3 H3.
    apply preserves_step; [apply Htag | done |]. intros pop1 s4 H4.
    apply preserves_step; [by apply preserves_modify | done |]. intros _ s5 H5.
    apply preserves_step; [apply Heval | done |]. intros pop2 s6 H6.
    apply preserves_step; [by apply preserves_modify | done |]. intros _ s7 H7.
    apply preserves_step; [apply Hsave | done |]. intros pop3 s8 H8.
    apply preserves_step; [by apply preserves_modify | done |]. intros _ s9 H9.
    apply preserves_step; [apply Hsel | done |]. intros pop4 s10 H10.
    rewrite wp_bind, wp_modify, wp_bind, wp_modify, wp_modify. simpl.
    injection H10 as _ ->. done. }
  split.
  - intros e s' Hrun. apply (wp_of_eq _ _ _ _ _ _ Hrun) in H.
    by injection H as -> ->.
  - intros s' Hrun. by apply (wp_of_eq _ _ _ _ _ _ Hrun) in H.
Qed.

(** ** The bootstrap generation *)

Lemma bind_returned {A B} (m : @M Out R A) (k : A → @M Out R B) s b s' :
  (m ≫= k) s = (Returned b, s') →
  ∃ a s1, m s = (Returned a, s1) ∧ k a s1 = (Returned b, s').
Proof.
  unfold mbind, M_bind. destruct (m s) as [[a|e] s1]; [eauto | done].
Qed.

Lemma modify_returned (u : @Evolution Out R → @Evolution Out R) s b s' :
  modify u s = (Returned b, s') → s' = u s.
Proof. by intros [= _ <-]. Qed.

(** What an evaluation has recorded of its submission once the ids of the
    population have been read, whatever happens next: the evaluation counter
    has advanced by the size of the population, and one run per individual
    has been added to the trajectory. *)
Lemma eval_counts pop g s :
  submittable (heap s) pop →
  let submission := zip (ids_of (heap s) pop) (genomes_of (heap s) pop) in
  let recorded s' :=
    evaluationCounter s' = evaluationCounter s + Z.of_nat (length pop) ∧
    traj_runs s' = traj_runs s ++ ((λ r, (g, r.1, r.2)) <$> submission) in
  wp (evalPopulationUsingPypet cfg toolbox pop g)
    (λ _ s', recorded s') (λ _ s', recorded s') s.
Proof.
  intros Hsub submission recorded. unfold evalPopulationUsingPypet.
  rewrite wp_bind. apply (wp_eq _ _ _ _ _ (list_comp_ids pop s Hsub)).
  rewrite wp_bind.
  apply (wp_eq _ _ _ _ _ (list_comp_genomes pop s (submittable_live _ _ Hsub))).
  rewrite wp_bind, wp_modify, wp_bind, wp_modify, wp_bind, wp_with_rng.
  set (s1 := set_rng _ _).
  assert (H1 : recorded s1) by done.
  clearbody s1.
  assert (Hpres : preserves (λ s0 : @Evolution Out R,
                               (evaluationCounter s0, traj_runs s0))
            (py_assert (bool_decide (0 < length
                 (map_evaluate toolbox g submission (rng s)).1)%nat)
               "No results returned from simulations.";;
             for_each (enumerate (map_evaluate toolbox g submission (rng s)).1)
               (storeResult cfg pop);;
             mret pop)).
  { unfold storeResult. preserves_tac. }
  eapply wp_mono; [apply (Hpres s1) | |]; cbv beta.
  - intros _ s2 [= H2 H3]. destruct H1 as [H1 H1']. split; congruence.
  - intros _ s2 [= H2 H3]. destruct H1 as [H1 H1']. split; congruence.
Qed.

(** [evalPopulationUsingPypet] increments [evaluationCounter] and explores
    the runs of the generation before it calls the backend.  So whatever
    the outcome of the evaluation of a tagged population (results, no
    result, a malformed result, too many results), the counter has advanced
    by the size of the population and the trajectory has one more run per
    individual, with the generation index, the id and the genes of the
    individual, in the order of the population. *)
Theorem evaluation_counts_submissions pop g s out s' :
  submittable (heap s) pop →
  evalPopulationUsingPypet cfg toolbox pop g s = (out, s') →
  evaluationCounter s' = evaluationCounter s + Z.of_nat (length pop) ∧
  traj_runs s'
  = traj_runs s ++ ((λ r, (g, r.1, r.2)) <$>
                      zip (ids_of (heap s) pop) (genomes_of (heap s) pop)) ∧
  length (zip (ids_of (heap s) pop) (genomes_of (heap s) pop)) = length pop.
Proof.
  intros Hsub Hrun.
  pose proof (wp_of_eq _ _ _ _ _ _ Hrun (eval_counts pop g s Hsub)) as H.
  assert (Hrec : evaluationCounter s' = evaluationCounter s + Z.of_nat (length pop) ∧
    traj_runs s' = traj_runs s ++ ((λ r, (g, r.1, r.2)) <$>
                      zip (ids_of (heap s) pop) (genomes_of (heap s) pop)))
    by (by destruct out).
  destruct Hrec as [Hc Ht]. split; [done|]. split; [done|].
  clear -Hsub. induction Hsub as [|p pop (x & i & Hx & Hi) _ IH]; [done|].
  unfold ids_of, genomes_of in *. simpl. unfold id_at at 1. rewrite Hx. simpl.
  rewrite Hi. simpl. f_equal. exact IH.
Qed.

(** What a bootstrap that returns leaves. *)
Lemma runInitial_returned s s' :
  runInitial cfg toolbox s = (Returned (), s') →
  let n := Z.to_nat (POP_INIT_SIZE cfg) in
  let base := length (heap s) in
  length (heap s') = (base + n)%nat ∧
  pop s' ⊆ seq base n ∧
  history s' = <[0 := pop s']> (history s) ∧
  gIdx s' = Some 0 ∧
  initialPopulationSimulated s' = true ∧
  last_id s' = last_id s + Z.of_nat n ∧
  evaluationCounter s' = evaluationCounter s + Z.of_nat n ∧
  (∀ k : nat, (k < n)%nat →
     ∃ x, heap s' !! (base + k)%nat = Some x ∧
          ind_id x = Some (last_id s + Z.of_nat k) ∧
          ind_gIdx x = Some 0 ∧ parentIds x = None) ∧
  (∀ l x, heap s !! l = Some x → heap s' !! l = Some x) ∧
  submittable (heap s') (pop s') ∧
  (∃ rows, traj_generations s' = traj_generations s ++ [(0, rows)]).
Proof.
  intros Hrun n base.
  pose proof (wp_of_eq _ _ _ _ _ _ Hrun (runInitial_spec s)) as (Hsubf & _).
  unfold runInitial in Hrun.
  apply bind_returned in Hrun as (newpop & s1 & Hpop & Hrun).
  unfold toolbox_population in Hpop.
  pose proof (wp_of_eq _ _ _ _ _ _ Hpop (wp_population (Z.to_nat (POP_INIT_SIZE cfg)) s))
    as (Hnewpop & gs & Hgs & _ & Hh1 & Hs1). cbv beta in Hnewpop.
  fold n in Hnewpop, Hgs. fold base in Hnewpop.
  apply bind_returned in Hrun as ([] & ? & ->%modify_returned & Hrun).
  apply bind_returned in Hrun as ([] & s2 & ->%modify_returned & Hrun).
  apply bind_returned in Hrun as (pop1 & s3 & Htag & Hrun).
  unfold tagPopulation in Htag.
  apply bind_returned in Htag as ([] & s3' & Htag & [= <- <-]).
  set (s2 := set_self_gIdx (Some 0) (set_pop newpop s1)) in *.
  assert (Hh2 : heap s2 = heap s ++ (new_Individual <$> gs)) by done.
  assert (Htr2 : traj_generations s2 = traj_generations s).
  { unfold s2. simpl. by rewrite Hs1. }
  assert (Hs2 : last_id s2 = last_id s ∧ evaluationCounter s2 = evaluationCounter s
                ∧ history s2 = history s).
  { unfold s2. simpl. by rewrite Hs1. }
  assert (Hg2 : gIdx s2 = Some 0) by done.
  clearbody s2.
  pose proof (wp_of_eq _ _ _ _ _ _ Htag (tag_loop_gen newpop s2 0 Hg2))
    as (Htaggable & Hdec & Hpost). cbv beta in Hpost.
  pose proof Hpost as (Hlast3 & Hlen3 & Htagged3 & Hother3 & Hs3).
  apply bind_returned in Hrun as ([] & ? & ->%modify_returned & Hrun).
  apply bind_returned in Hrun as (pop2 & s4 & Heval & Hrun).
  set (s3 := set_pop newpop s3') in *.
  assert (Hh3 : heap s3 = heap s3') by done.
  assert (Hsub3 : submittable (heap s3) newpop).
  { rewrite Hh3. apply Forall_forall. intros p Hp.
    apply list_elem_of_lookup in Hp as [k Hk].
    unfold decodable in Hdec. rewrite Forall_forall in Hdec.
    destruct (Hdec p) as (x & Hx & _); [by eapply list_elem_of_lookup_2|].
    rewrite (Htagged3 k p x Hk Hx). eauto. }
  pose proof (wp_of_eq _ _ _ _ _ _ Heval (eval_frame newpop 0 s3))
    as (-> & Hlen4 & _ & Hcells4).
  pose proof (wp_of_eq _ _ _ _ _ _ Heval (eval_counts newpop 0 s3 Hsub3))
    as [Hec4 _].
  assert (Htr4 : traj_generations s4 = traj_generations s).
  { pose proof (wp_of_eq _ _ _ _ _ _ Heval (eval_frame newpop 0 s3))
      as (_ & _ & (tr & ec & r & ->) & _). simpl. rewrite Hs3. simpl. done. }
  assert (Hfields4 : last_id s4 = last_id s3 ∧ history s4 = history s3 ∧
                     gIdx s4 = gIdx s3).
  { pose proof (wp_of_eq _ _ _ _ _ _ Heval (eval_frame newpop 0 s3))
      as (_ & _ & (tr & ec & r & ->) & _). done. }
  apply bind_returned in Hrun as ([] & ? & ->%modify_returned & Hrun).
  apply bind_returned in Hrun as (pop3 & s5 & Hsave & Hrun).
  pose proof (wp_of_eq _ _ _ _ _ _ Hsave (wp_saveToPypet _ _ _))
    as (-> & rows & Hs5). cbv beta in Hs5.
  apply bind_returned in Hrun as ([] & ? & ->%modify_returned & Hrun).
  apply bind_returned in Hrun as (pop4 & s6 & Hsel & Hrun).
  pose proof (wp_of_eq _ _ _ _ _ _ Hsel (wp_call_selection _ _ _ _))
    as (_ & Hsubset & Hs6). cbv beta in Hs6.
  apply bind_returned in Hrun as ([] & ? & ->%modify_returned & Hrun).
  apply bind_returned in Hrun as ([] & ? & ->%modify_returned & Hrun).
  apply modify_returned in Hrun as ->.
  assert (Htrf : traj_generations s6 = traj_generations s ++ [(0, rows)]).
  { rewrite Hs6. simpl. rewrite Hs5. simpl. by rewrite Htr4. }
  assert (Hf : heap s6 = heap s4 ∧ last_id s6 = last_id s4 ∧
               evaluationCounter s6 = evaluationCounter s4 ∧
               history s6 = history s4 ∧ gIdx s6 = gIdx s4).
  { rewrite Hs6. simpl. rewrite Hs5. done. }
  destruct Hf as (Hh6 & Hl6 & He6 & Hhi6 & Hg6).
  destruct Hfields4 as (Hl4 & Hhi4 & Hg4).
  destruct Hs2 as (Hl2 & He2 & Hhi2).
  assert (Hs3' : last_id s3 = last_id s3' ∧ evaluationCounter s3 = evaluationCounter s2
                 ∧ history s3 = history s2 ∧ gIdx s3 = Some 0).
  { unfold s3. simpl. rewrite Hs3. simpl. by rewrite Hg2. }
  destruct Hs3' as (Hl3 & He3 & Hhi3 & Hg3).
  assert (Hlen_newpop : length newpop = n) by (rewrite Hnewpop; apply length_seq).
  simpl in Hsubf. simpl. rewrite Hh6, Hl6, He6, Hhi6, Hg6, Hl4, Hhi4, Hg4, Hl3, Hhi3, Hg3, Hhi2.
  rewrite Hec4, He3, He2, Hlast3, Hl2, Hlen_newpop, Hlen4, Hh3, Hlen3, Hh2.
  rewrite length_app, length_fmap, Hgs.
  split; [done|]. split; [by rewrite <- Hnewpop|].
  do 5 (split; [done|]). split; [|split; [|split; [by rewrite <- Hh6|by exists rows]]].
  - intros k Hk.
    assert (Hkp : newpop !! k = Some (base + k)%nat).
    { rewrite Hnewpop. by apply lookup_seq_lt. }
    destruct (lookup_lt_is_Some_2 gs k) as [g0 Hg0]; [lia|].
    assert (Hx2 : heap s2 !! (base + k)%nat = Some (new_Individual g0)).
    { rewrite Hh2, lookup_app_r by (unfold base; lia).
      replace (base + k - length (heap s))%nat with k by (unfold base; lia).
      by rewrite list_lookup_fmap, Hg0. }
    pose proof (Htagged3 k _ _ Hkp Hx2) as Hx3.
    rewrite <- Hh3 in Hx3.
    destruct (Hcells4 _ _ Hx3) as (x' & Hx' & (Hid & Hpar & Hgi & _) & _).
    exists x'. split; [done|]. rewrite Hid, Hpar, Hgi. simpl. by rewrite Hl2.
  - intros l x Hx.
    assert (Hl : l ∉ newpop).
    { rewrite Hnewpop, elem_of_seq. apply lookup_lt_Some in Hx.
      unfold base. lia. }
    assert (Hx3 : heap s3 !! l = Some x).
    { rewrite Hh3, (Hother3 l Hl), Hh2. by apply lookup_app_l_Some. }
    destruct (Hcells4 _ _ Hx3) as (x' & Hx' & _ & Hsame).
    by rewrite Hx', (Hsame Hl).
Qed.


(** ** [run]: bootstrap once, then continue *)

Lemma preserves_flag_runEvolution :
  @preserves Out R _ _ initialPopulationSimulated (runEvolution cfg toolbox).
Proof.
  unfold runEvolution, buildEvolutionTree, generation, getValidPopulation,
    getInvalidPopulation, toolbox_population, toolbox_individual, toolbox_clone,
    tagPopulation, tagIndividual, individualToDict, call_selection, crossover,
    del_id, mutateUntilValid, evalPopulationUsingPypet, storeResult, saveToPypet.
  preserves_tac.
Qed.

Lemma buildEvolutionTree_frame :
  @preserves Out R _ _ (λ s, (heap s, pop s)) buildEvolutionTree.
Proof. unfold buildEvolutionTree. preserves_tac. Qed.

Lemma self_attr_returned {A} name (field : @Evolution Out R → option A) s a s' :
  self_attr name field s = (Returned a, s') → s' = s ∧ field s = Some a.
Proof.
  intros H. pose proof (wp_of_eq _ _ _ _ _ _ H
    (proj2 (wp_self_attr name field (λ a0 s0, s0 = s ∧ field s = Some a0)
              may_raise s)
       ltac:(by destruct (field s)))) as H'.
  exact H'.
Qed.

(** What a call of [runEvolution] that returns leaves. *)
Lemma runEvolution_returned s s' g0 :
  gIdx s = Some g0 →
  submittable (heap s) (pop s) →
  runEvolution cfg toolbox s = (Returned (), s') →
  let gens := py_range (g0 + 1) (g0 + NGEN cfg) in
  (traj_generations s').*1 = (traj_generations s).*1 ++ gens ∧
  (∀ k, is_Some (history s' !! k) ↔ k ∈ gens ∨ is_Some (history s !! k)) ∧
  gIdx s' = Some (default g0 (last gens)) ∧
  submittable (heap s') (pop s') ∧
  initialPopulationSimulated s' = initialPopulationSimulated s.
Proof.
  intros Hg Hsub Hrun gens.
  pose proof (wp_of_eq _ _ _ _ _ _ Hrun (preserves_flag_runEvolution s)) as Hflag.
  unfold runEvolution in Hrun.
  apply bind_returned in Hrun as (g0' & ? & Hattr & Hrun).
  apply self_attr_returned in Hattr as [-> Hg0]. rewrite Hg in Hg0.
  injection Hg0 as <-.
  apply bind_returned in Hrun as ([] & s1 & Hloop & Hrun).
  fold gens in Hloop.
  destruct (loop_generations _ s s1 Hsub Hloop) as (Hsub1 & Htraj & Hhist & Hg1).
  apply bind_returned in Hrun as (b & s1' & Hattr & Hrun).
  apply self_attr_returned in Hattr as [-> _].
  pose proof (wp_of_eq _ _ _ _ _ _ Hrun (buildEvolutionTree_traj s1))
    as (Ht & Hh & Hgi).
  pose proof (wp_of_eq _ _ _ _ _ _ Hrun (buildEvolutionTree_frame s1)) as [= Hhp Hpp].
  rewrite Ht, Hh, Hgi, Hhp, Hpp. repeat split; try done.
  - by apply Hhist.
  - by apply Hhist.
  - rewrite Hg1, Hg. by destruct (last gens).
Qed.

Lemma elem_of_py_range lo hi k : k ∈ py_range lo hi ↔ lo ≤ k < hi.
Proof.
  unfold py_range. rewrite list_elem_of_fmap. split.
  - intros (i & -> & Hi). apply elem_of_seq in Hi. lia.
  - intros Hk. exists (Z.to_nat (k - lo)). split; [lia|].
    apply elem_of_seq. lia.
Qed.

Lemma py_range_app lo mid hi :
  lo ≤ mid → mid ≤ hi → py_range lo mid ++ py_range mid hi = py_range lo hi.
Proof.
  intros H1 H2. unfold py_range.
  replace (Z.to_nat (hi - lo)) with (Z.to_nat (mid - lo) + Z.to_nat (hi - mid))%nat
    by lia.
  rewrite seq_app, fmap_app. f_equal. simpl.
  replace (seq (Z.to_nat (mid - lo)) (Z.to_nat (hi - mid)))
    with (Nat.add (Z.to_nat (mid - lo)) <$> seq 0 (Z.to_nat (hi - mid)))
    by (rewrite fmap_add_seq; f_equal; lia).
  rewrite <- list_fmap_compose.
  apply list_fmap_ext. intros _ i _. simpl. lia.
Qed.

Lemma py_range_singleton lo : py_range lo (lo + 1) = [lo].
Proof.
  unfold py_range. replace (lo + 1 - lo) with 1 by lia. simpl. f_equal. lia.
Qed.

Lemma last_py_range lo hi : lo < hi → last (py_range lo hi) = Some (hi - 1).
Proof.
  intros H. rewrite <- (py_range_app lo (hi - 1) hi) by lia.
  replace (py_range (hi - 1) hi) with [hi - 1]; [by rewrite last_snoc|].
  rewrite <- (py_range_singleton (hi - 1)). f_equal. lia.
Qed.

Lemma last_py_range_default lo hi :
  lo ≤ hi → default (lo - 1) (last (py_range lo hi)) = hi - 1.
Proof.
  intros H. destruct (decide (lo = hi)) as [->|Hne].
  - unfold py_range. by rewrite Z.sub_diag.
  - by rewrite last_py_range by lia.
Qed.

(** [run] "runs the evolution or continues a previous evolution".  On an
    object whose initial population has not been simulated, with
    [NGEN >= 1], a [run] that returns has done the bootstrap and the
    generations up to [NGEN - 1]; a second [run] that returns does no
    bootstrap and goes on from the generation index where the first one
    stopped, for [NGEN - 1] more generations: after it the generations
    handed to the trajectory and recorded in the history are
    [0 .. 2 * NGEN - 2], each once. *)
Theorem run_continues_previous_evolution s s1 s2 :
  initialPopulationSimulated s = false →
  1 ≤ NGEN cfg →
  run cfg toolbox s = (Returned (), s1) →
  run cfg toolbox s1 = (Returned (), s2) →
  initialPopulationSimulated s1 = true ∧
  gIdx s1 = Some (NGEN cfg - 1) ∧
  gIdx s2 = Some (2 * NGEN cfg - 2) ∧
  (traj_generations s1).*1 = (traj_generations s).*1 ++ py_range 0 (NGEN cfg) ∧
  (traj_generations s2).*1
  = (traj_generations s).*1 ++ py_range 0 (2 * NGEN cfg - 1) ∧
  (∀ k, is_Some (history s1 !! k) ↔
        0 ≤ k < NGEN cfg ∨ is_Some (history s !! k)) ∧
  (∀ k, is_Some (history s2 !! k) ↔
        0 ≤ k < 2 * NGEN cfg - 1 ∨ is_Some (history s !! k)).
Proof.
  intros Hflag Hngen Hrun1 Hrun2.
  unfold run in Hrun1.
  apply bind_returned in Hrun1 as (? & ? & [= <- <-] & Hrun1).
  rewrite Hflag in Hrun1.
  apply bind_returned in Hrun1 as ([] & s0 & Hinit & Hevo1).
  destruct (runInitial_returned s s0 Hinit)
    as (_ & _ & Hhist0 & Hg0 & Hflag0 & _ & _ & _ & _ & Hsub0 & rows & Htraj0).
  destruct (runEvolution_returned s0 s1 0 Hg0 Hsub0 Hevo1)
    as (Htraj1 & Hhist1 & Hg1 & Hsub1 & Hflag1).
  rewrite Hflag0 in Hflag1. simpl in Htraj1, Hhist1, Hg1.
  replace (0 + NGEN cfg) with (NGEN cfg) in * by lia.
  change 0 with (1 - 1) in Hg1 at 1.
  rewrite last_py_range_default in Hg1 by lia.
  unfold run in Hrun2.
  apply bind_returned in Hrun2 as (? & ? & [= <- <-] & Hrun2).
  rewrite Hflag1 in Hrun2.
  apply bind_returned in Hrun2 as ([] & ? & [= <-] & Hevo2).
  destruct (runEvolution_returned s1 s2 _ Hg1 Hsub1 Hevo2)
    as (Htraj2 & Hhist2 & Hg2 & _ & _).
  cbv zeta in Htraj2, Hhist2, Hg2.
  replace (NGEN cfg - 1 + NGEN cfg) with (2 * NGEN cfg - 1) in * by lia.
  replace (NGEN cfg - 1) with (NGEN cfg - 1 + 1 - 1) in Hg2 at 1 by lia.
  rewrite last_py_range_default in Hg2 by lia.
  replace (NGEN cfg - 1 + 1) with (NGEN cfg) in * by lia.
  assert (Ht1 : (traj_generations s1).*1
                = (traj_generations s).*1 ++ py_range 0 (NGEN cfg)).
  { rewrite Htraj1, Htraj0, fmap_app. simpl. rewrite <- app_assoc. f_equal.
    rewrite <- (py_range_app 0 1 (NGEN cfg)) by lia.
    reflexivity. }
  assert (Hh1 : ∀ k, is_Some (history s1 !! k) ↔
                     0 ≤ k < NGEN cfg ∨ is_Some (history s !! k)).
  { intros k. rewrite Hhist1, Hhist0, lookup_insert_is_Some, elem_of_py_range.
    destruct (decide (0 = k)); [subst|]; intuition lia. }
  split; [done|]. split; [done|].
  split; [rewrite Hg2; f_equal; lia|]. split; [done|]. split; [|split; [done|]].
  - rewrite Htraj2, Ht1, <- app_assoc. f_equal. apply py_range_app; lia.
  - intros k. rewrite Hhist2, Hh1, elem_of_py_range. intuition lia.
Qed.

(** ** A result that is not a (fitness, outputs) pair *)

Lemma store_loop_malformed pop (pre : list (Z * Packed Out)) ri n suf : ∀ k s,
  well_packed pre →
  Forall (λ p, is_Some (heap s !! p)) pop →
  (k + length pre ≤ length pop)%nat →
  wp (for_each (imap (λ i, pair (k + i)%nat) (pre ++ (ri, PackOther n) :: suf))
        (storeResult cfg pop))
    (λ _ _, False)
    (λ e s', e = AssertionError bad_shape ∧
             s' = set_heap (written cfg pop k pre (heap s)) s) s.
Proof.
  induction pre as [|[ri0 pk] pre IH]; intros k s Hwp Hlive Hlen.
  - rewrite app_nil_l, enumerate_from_cons, wp_for_each_cons. unfold storeResult.
    rewrite wp_bind, wp_assert, bool_decide_false.
    + split; [done | by destruct s].
    + simpl. case_decide; lia.
  - apply Forall_cons in Hwp as [(f & o & Hpk) Hwp]. simpl in Hpk. subst pk.
    rewrite <- app_comm_cons, enumerate_from_cons, wp_for_each_cons.
    apply wp_storeResult. cbn [written].
    destruct (lookup_lt_is_Some_2 pop k) as [p Hp]; [simpl in Hlen; lia|].
    rewrite Hp.
    split; [by eapply Forall_forall in Hlive; [|by eapply list_elem_of_lookup_2]|].
    set (s1 := set_heap (alter (evaluated cfg f o) p (heap s)) s).
    eapply wp_mono; [apply (IH (S k) s1 Hwp) | |].
    + eapply Forall_impl; [exact Hlive|]. simpl. intros q [y Hy].
      rewrite list_lookup_alter. case_decide; [subst; rewrite Hy|]; eauto.
    + simpl in Hlen. lia.
    + done.
    + intros e s' (-> & ->). split; [done | by destruct s].
Qed.

(** The assertion on the shape of a result is made result by result, inside
    the loop that writes the results.  When the results before the first
    malformed one are (fitness, outputs) pairs and are not more than the
    individuals, the evaluation raises the AssertionError of the shape
    check, and the individuals at the positions of those earlier results
    have already been written; the others are as they were. *)
Theorem evalPopulation_malformed_result pop g s pre ri n suf :
  submittable (heap s) pop →
  NoDup pop →
  backend_results toolbox g pop s = pre ++ (ri, PackOther n) :: suf →
  well_packed pre →
  (length pre ≤ length pop)%nat →
  ∃ s', evalPopulationUsingPypet cfg toolbox pop g s
        = (Raised (AssertionError bad_shape), s') ∧
    ∀ (idx : nat) p, pop !! idx = Some p →
      heap s' !! p =
        match pre !! idx with
        | Some (_, Pack2 f o) => evaluated cfg f o <$> heap s !! p
        | _ => heap s !! p
        end.
Proof.
  intros Hsub Hnd Hrs Hwp Hlen.
  pose proof (submittable_live _ _ Hsub) as Hlive.
  assert (H : wp (evalPopulationUsingPypet cfg toolbox pop g)
    (λ _ _, False)
    (λ e s1, e = AssertionError bad_shape ∧
             s1 = set_heap (written cfg pop 0 pre (heap s))
                    (submitted toolbox g pop s)) s).
  { unfold evalPopulationUsingPypet.
    rewrite wp_bind. eapply wp_eq; [by apply list_comp_ids|].
    rewrite wp_bind. eapply wp_eq; [by apply list_comp_genomes|].
    rewrite wp_bind, wp_modify, wp_bind, wp_modify, wp_bind, wp_with_rng.
    match goal with
    | |- wp _ ?Q ?E _ =>
        change (wp (py_assert (bool_decide (0 < length (backend_results toolbox g pop s))%nat) no_results
                    ≫= λ _, for_each (enumerate (backend_results toolbox g pop s)) (storeResult cfg pop)
                    ≫= λ _, mret pop) Q E (submitted toolbox g pop s))
    end.
    rewrite Hrs, wp_bind, wp_assert, bool_decide_true
      by (rewrite length_app; simpl; lia).
    rewrite wp_bind. unfold enumerate.
    eapply wp_mono; [apply (store_loop_malformed pop pre ri n suf 0); done | done |].
    by intros e s1 (-> & ->). }
  unfold wp in H.
  destruct (evalPopulationUsingPypet cfg toolbox pop g s) as [[r|e] s1]; [done|].
  destruct H as [-> ->]. eexists. split; [done|].
  intros idx p Hp. simpl. by apply written_lookup_0.
Qed.

(** ** A tagging that fails half-way *)

Lemma wp_to_eq {A} (m : @M Out R A) s (out : Outcome A) s0 :
  wp m (λ a s', out = Returned a ∧ s' = s0) (λ e s', out = Raised e ∧ s' = s0) s →
  m s = (out, s0).
Proof. unfold wp. destruct (m s) as [[a|e] s']; by intros [-> ->]. Qed.



(** ** Looking an individual up from a trajectory *)

Lemma self_pop_set s :
  is_Some (gIdx s) → @self_pop Out R s = (Returned (pop s), s).
Proof. intros [g Hg]. unfold self_pop, mbind, M_bind, get_self. by rewrite Hg. Qed.

(** [[p for p in pop if p.id == ind_id]] on a tagged population. *)
Lemma list_comp_if_id (tid : Z) pop s :
  submittable (heap s) pop →
  list_comp_if (λ p, i ← getattr "id" ind_id p; mret (bool_decide (i = tid))) pop s
  = (Returned (filter (λ p, id_at (heap s) p = Some tid) pop), s).
Proof.
  intros Hsub.
  assert (H : wp (list_comp_if
                    (λ p, i ← getattr "id" ind_id p; mret (bool_decide (i = tid))) pop)
                (λ r s', r = filter (λ p, id_at (heap s) p = Some tid) pop ∧ s' = s)
                no_raise s).
  { induction Hsub as [|p pop (x & i & Hx & Hi) _ IH]; [done|].
    cbn [list_comp_if]. rewrite wp_bind. cbv beta.
    rewrite wp_bind, wp_getattr, Hx, Hi, wp_ret, wp_bind.
    eapply wp_mono; [apply IH | | done].
    intros r s' [-> ->]. rewrite wp_ret. split; [|done].
    assert (Hid : id_at (heap s) p = Some i) by (unfold id_at; by rewrite Hx).
    rewrite filter_cons, Hid.
    destruct (decide (i = tid)) as [->|Hne].
    - by rewrite bool_decide_true, decide_True.
    - rewrite bool_decide_false, decide_False by congruence. done. }
  apply wp_returns in H as (r & s' & -> & -> & ->). done.
Qed.

Lemma getIndividualFromTraj_filter s individual tid :
  is_Some (gIdx s) →
  submittable (heap s) (pop s) →
  getIndividualFromTraj (ArgTraj individual tid) s
  = (Returned (match filter (λ p, id_at (heap s) p = Some tid) (pop s) with
               | p :: _ => AnIndividual p
               | [] => EmptyList
               end), s).
Proof.
  intros Hg Hsub. unfold getIndividualFromTraj.
  unfold mbind at 1, M_bind at 1. rewrite (self_pop_set s Hg).
  unfold mbind at 1, M_bind at 1. rewrite (list_comp_if_id tid _ s Hsub).
  by destruct (filter _ _).
Qed.

(** [getIndividualFromTraj] on a pypet trajectory looks the individual up
    in the current population by the id of the run; the genes that the
    trajectory carries are not used.  On a tagged population:
    - if ids are distinct and a member of the population has the id, that
      member is returned;
    - if no member has the id, the result is the empty list of matches, not
      an individual;
    and the state is not changed.  An individual given as the argument is
    returned as it is. *)
Theorem getIndividualFromTraj_by_id s individual tid :
  is_Some (gIdx s) →
  submittable (heap s) (pop s) →
  (ids_distinct (heap s) →
   ∀ p, p ∈ pop s → id_at (heap s) p = Some tid →
     getIndividualFromTraj (ArgTraj individual tid) s
     = (Returned (AnIndividual p), s)) ∧
  ((∀ p, p ∈ pop s → id_at (heap s) p ≠ Some tid) →
     getIndividualFromTraj (ArgTraj individual tid) s = (Returned EmptyList, s)) ∧
  (∀ p, @getIndividualFromTraj Out R (ArgIndividual p) s
        = (Returned (AnIndividual p), s)).
Proof.
  intros Hg Hsub. split; [|split].
  - intros Hdist p Hp Hid. rewrite getIndividualFromTraj_filter by done.
    destruct (filter _ _) as [|q rest] eqn:Hf.
    + assert (p ∈ filter (λ p, id_at (heap s) p = Some tid) (pop s)) as Hin
        by (by apply list_elem_of_filter).
      rewrite Hf in Hin. by apply elem_of_nil in Hin.
    + assert (q ∈ filter (λ p, id_at (heap s) p = Some tid) (pop s)) as Hin
        by (rewrite Hf; apply list_elem_of_here).
      apply list_elem_of_filter in Hin as [Hq _].
      by rewrite (Hdist q p tid Hq Hid).
  - intros Hnone. rewrite getIndividualFromTraj_filter by done.
    destruct (filter _ _) as [|q rest] eqn:Hf; [done|].
    assert (q ∈ filter (λ p, id_at (heap s) p = Some tid) (pop s)) as Hin
      by (rewrite Hf; apply list_elem_of_here).
    apply list_elem_of_filter in Hin as [Hq Hin]. by destruct (Hnone q Hin).
  - done.
Qed.

(** ** The model of an individual *)

Lemma dict_update_cons {V} (of_float : float → V) (d : gmap string V) k v other :
  dict_update of_float d ((k, v) :: other)
  = dict_update of_float (<[k := of_float v]> d) other.
Proof. done. Qed.

Lemma dict_update_other {V} (of_float : float → V) (other : list (string * float)) :
  ∀ (d : gmap string V) k,
    k ∉ other.*1 → dict_update of_float d other !! k = d !! k.
Proof.
  induction other as [|[k0 v0] other IH]; intros d k Hk; [done|].
  apply not_elem_of_cons in Hk as [Hne Hk]. simpl in Hne.
  rewrite dict_update_cons, IH by done. by rewrite lookup_insert_ne.
Qed.

Lemma dict_update_lookup {V} (of_float : float → V) (other : list (string * float)) :
  ∀ (d : gmap string V) k v,
    NoDup other.*1 → (k, v) ∈ other →
    dict_update of_float d other !! k = Some (of_float v).
Proof.
  induction other as [|[k0 v0] other IH]; intros d k v Hnd Hin.
  - by apply elem_of_nil in Hin.
  - apply NoDup_cons in Hnd as [Hnotin Hnd]. simpl in Hnotin.
    rewrite dict_update_cons.
    apply elem_of_cons in Hin as [[= -> ->]|Hin].
    + rewrite (dict_update_other of_float other _ k0 Hnotin).
      by rewrite lookup_insert_eq.
    + by apply IH.
Qed.

(** [getModelFromTraj] for an individual that has a gene for every
    parameter: the dictionary of the model is updated with one entry per
    parameter, the i-th parameter name bound to the i-th gene; the genes
    after the parameters are not used, the other entries of the dictionary
    are kept, and the state of the evolution is not changed. *)
Theorem getModelFromTraj_updates_parameters {V} (of_float : float → V)
    (d : gmap string V) s p x :
  heap s !! p = Some x →
  (length (paramNames cfg) ≤ length (genes x))%nat →
  NoDup (paramNames cfg) →
  ∃ d', getModelFromTraj cfg of_float (Some d) (ArgIndividual p) s
        = (Returned d', s) ∧
    (∀ (i : nat) name v, paramNames cfg !! i = Some name → genes x !! i = Some v →
       d' !! name = Some (of_float v)) ∧
    (∀ name, name ∉ paramNames cfg → d' !! name = d !! name).
Proof.
  intros Hx Hlen Hnd. eexists. split.
  - apply wp_to_eq. unfold getModelFromTraj, getIndividualFromTraj.
    rewrite wp_bind, wp_ret, wp_bind, wp_ret, wp_bind, wp_bind, wp_deref, Hx.
    unfold individualToDict.
    rewrite bool_decide_true by (rewrite length_take; lia).
    rewrite wp_ret, wp_ret. split; reflexivity.
  - assert (Hk : (zip (paramNames cfg)
                    (take (length (paramNames cfg)) (genes x))).*1
                 = paramNames cfg).
    { apply fst_zip. rewrite length_take. lia. }
    split.
    + intros i name v Hname Hv. apply dict_update_lookup; [by rewrite Hk|].
      apply list_elem_of_lookup. exists i. apply lookup_zip_with_Some.
      exists name, v. split; [done|]. split; [done|].
      rewrite lookup_take_lt; [done|]. by eapply lookup_lt_Some.
    + intros name Hname. apply dict_update_other. by rewrite Hk.
Qed.

(** [getModelFromTraj] for a run whose id no individual of the current
    population has: [getIndividualFromTraj] returns the empty list, which
    is sliced and unpacked into the named-tuple constructor, so with at
    least one parameter the call raises a TypeError; with no parameter at
    all the dictionary of the model is returned unchanged.  Without a model
    ([model=None], the default) the call raises an AttributeError before
    the individual is looked up. *)
Theorem getModelFromTraj_unknown_id {V} (of_float : float → V)
    (d : gmap string V) s individual tid :
  is_Some (gIdx s) →
  submittable (heap s) (pop s) →
  (∀ p, p ∈ pop s → id_at (heap s) p ≠ Some tid) →
  getModelFromTraj cfg of_float (Some d) (ArgTraj individual tid) s
  = (if decide (paramNames cfg = []) then Returned d else Raised TypeError, s) ∧
  getModelFromTraj cfg of_float None (ArgTraj individual tid) s
  = (Raised (AttributeError "params"), s).
Proof.
  intros Hg Hsub Hnone. split; [|done].
  assert (Hfilter : filter (λ p, id_at (heap s) p = Some tid) (pop s) = []).
  { destruct (filter _ _) as [|q rest] eqn:Hf; [done|].
    assert (q ∈ filter (λ p, id_at (heap s) p = Some tid) (pop s)) as Hin
      by (rewrite Hf; apply list_elem_of_here).
    apply list_elem_of_filter in Hin as [Hq Hin]. by destruct (Hnone q Hin). }
  pose proof (getIndividualFromTraj_filter s individual tid Hg Hsub) as Hget.
  rewrite Hfilter in Hget.
  apply wp_to_eq. unfold getModelFromTraj.
  rewrite wp_bind, wp_ret, wp_bind. apply (wp_eq _ _ _ _ _ Hget).
  unfold individualToDict. simpl. rewrite take_nil. simpl.
  destruct (paramNames cfg) as [|name names].
  - rewrite bool_decide_true by done. by rewrite wp_bind, wp_ret, wp_ret.
  - rewrite bool_decide_false by done. by rewrite wp_bind, wp_raise, decide_False.
Qed.

(** ** The scores of the valid population *)

(** [[validPop[i].fitness.score for i in range(len(validPop))]], entered at
    position [length pre] of [validPop = pre ++ rest]. *)
Lemma wp_scores_from (pre rest : list loc) s :
  Forall (λ p, is_Some (heap s !! p)) rest →
  wp (list_comp (λ i : nat, p ← index (pre ++ rest) i;
                            getattr "score" fitness_score p)
        (seq (length pre) (length rest)))
    (λ r s', s' = s ∧
       Forall2 (λ p sc, ∃ x, heap s !! p = Some x ∧ fitness_score x = Some sc) rest r)
    (λ e s', s' = s ∧ e = AttributeError "score" ∧
       ∃ p x, p ∈ rest ∧ heap s !! p = Some x ∧ fitness_score x = None) s.
Proof.
  revert pre. induction rest as [|p rest IH]; intros pre Hlive.
  - simpl. rewrite wp_ret. split; [done | constructor].
  - apply Forall_cons in Hlive as [[x Hx] Hlive].
    cbn [length seq list_comp]. rewrite wp_bind. cbv beta.
    rewrite wp_bind, wp_index.
    rewrite lookup_app_r, Nat.sub_diag by lia. simpl.
    rewrite wp_getattr, Hx.
    destruct (fitness_score x) as [sc|] eqn:Hsc.
    + rewrite wp_bind.
      specialize (IH (pre ++ [p]) Hlive).
      rewrite <- app_assoc, length_app, Nat.add_1_r in IH. simpl in IH.
      eapply wp_mono; [exact IH | |]; cbv beta.
      * intros r s' [-> Hr]. rewrite wp_ret. split; [done|].
        constructor; [eauto | done].
      * intros e s' (-> & -> & q & y & Hq & Hy). split; [done|]. split; [done|].
        exists q, y. split; [by apply list_elem_of_further | done].
    + split; [done|]. split; [done|].
      exists p, x. split; [apply list_elem_of_here | done].
Qed.

(** [getScores] on an object that has a population whose individuals
    exist.  The state is not changed.  When the fitness values of the
    population can be read (no zero weight meets a stored component):
    - if every valid individual of the population has a score, the result
      lists the scores of the valid individuals, in the order of the
      population (one entry per valid individual, none for an invalid one);
    - if some valid individual has no score, the call raises an
      AttributeError.
    An individual whose fitness was never set has no NaN or Inf component,
    so it counts as valid: a population with such an individual makes
    [getScores] raise.  When the fitness values of some individual cannot
    be read, the call raises ZeroDivisionError. *)
Theorem getScores_of_valid_population s :
  is_Some (gIdx s) →
  Forall (λ p, is_Some (heap s !! p)) (pop s) →
  let validPop := filter (valid_at cfg (heap s)) (pop s) in
  (readable cfg (heap s) (pop s) →
   ((∀ p x, p ∈ validPop → heap s !! p = Some x → is_Some (fitness_score x)) →
    ∃ scores, getScores cfg s = (Returned scores, s) ∧
      length scores = length validPop ∧
      Forall2 (λ p sc, ∃ x, heap s !! p = Some x ∧ fitness_score x = Some sc)
        validPop scores) ∧
   (∀ p x, p ∈ validPop → heap s !! p = Some x → fitness_score x = None →
      getScores cfg s = (Raised (AttributeError "score"), s)) ∧
   (∀ p x, p ∈ pop s → heap s !! p = Some x →
      fitness_wvalues x = [] → fitness_score x = None →
      p ∈ validPop ∧ getScores cfg s = (Raised (AttributeError "score"), s))) ∧
  (¬ readable cfg (heap s) (pop s) →
   getScores cfg s = (Raised ZeroDivisionError, s)).
Proof.
  intros Hg Hlive validPop. split; [intros Hread | intros Hnot].
  2: { unfold getScores. unfold mbind at 1, M_bind at 1.
       rewrite (self_pop_set s Hg). unfold mbind at 1, M_bind at 1.
       by rewrite (getValidPopulation_unreadable (pop s) s Hlive Hnot). }
  assert (Hvlive : Forall (λ p, is_Some (heap s !! p)) validPop).
  { apply Forall_forall. intros p Hp. apply list_elem_of_filter in Hp as [_ Hp].
    rewrite Forall_forall in Hlive. by apply Hlive. }
  assert (H : wp (getScores cfg)
    (λ r s', s' = s ∧
       Forall2 (λ p sc, ∃ x, heap s !! p = Some x ∧ fitness_score x = Some sc)
         validPop r)
    (λ e s', s' = s ∧ e = AttributeError "score" ∧
       ∃ p x, p ∈ validPop ∧ heap s !! p = Some x ∧ fitness_score x = None) s).
  { unfold getScores. rewrite wp_bind.
    apply (wp_eq _ _ _ _ _ (self_pop_set s Hg)). rewrite wp_bind.
    apply (wp_eq _ _ _ _ _ (getValidPopulation_readable (pop s) s Hread)).
    apply (wp_scores_from [] validPop s Hvlive). }
  assert (Hraise : ∀ p x, p ∈ validPop → heap s !! p = Some x →
            fitness_score x = None →
            getScores cfg s = (Raised (AttributeError "score"), s)).
  { intros p x Hp Hx Hsc. unfold wp in H.
    destruct (getScores cfg s) as [[r|e] s'].
    - destruct H as [_ Hr]. exfalso.
      apply list_elem_of_lookup in Hp as [k Hk].
      destruct (Forall2_lookup_l _ _ _ _ _ Hr Hk) as (sc & _ & y & Hy & Hsc').
      congruence.
    - by destruct H as (-> & -> & _). }
  split; [|split; [exact Hraise|]].
  - intros Hscored. unfold wp in H.
    destruct (getScores cfg s) as [[r|e] s'].
    + destruct H as [-> Hr]. exists r. split; [done|].
      split; [symmetry; by eapply Forall2_length | done].
    + destruct H as (_ & _ & p & x & Hp & Hx & Hsc).
      destruct (Hscored p x Hp Hx) as [sc Hsc']. congruence.
  - intros p x Hp Hx Hw Hsc.
    assert (Hv : p ∈ validPop).
    { apply list_elem_of_filter. split; [|done].
      unfold valid_at, is_valid, invalid_fitness, fitness_values. rewrite Hx. simpl.
      by rewrite Hw. }
    split; [done | by eapply Hraise].
Qed.

(** ** The genealogy *)

Lemma elem_of_history_items (h : gmap Z (list loc)) g pop :
  (g, pop) ∈ history_items h ↔ h !! g = Some pop.
Proof.
  unfold history_items. rewrite merge_sort_Permutation.
  apply elem_of_map_to_list.
Qed.

(** One step of the inner loop of [buildEvolutionTree]: if the three
    dictionaries hold the facts of the individuals [ps], and of no other,
    then after the step they hold those of [ps ++ [p]]. *)
Lemma wp_genealogy_entry h (ps : list loc) p s :
  ids_distinct h →
  heap s = h →
  (∀ q y j, q ∈ ps → h !! q = Some y → ind_id y = Some j →
     tree s !! j = Some (parentIds y) ∧ id_genx s !! j = ind_gIdx y ∧
     id_score s !! j = fitness_score y) →
  (∀ j, is_Some (tree s !! j) ∨ is_Some (id_genx s !! j) ∨ is_Some (id_score s !! j) →
     ∃ q, q ∈ ps ∧ id_at h q = Some j) →
  wp (x ← deref p;
      i ← getattr "id" ind_id p;
      modify (λ s, set_genealogy (<[i := parentIds x]> (tree s)) (id_genx s) (id_score s) s);;
      g ← getattr "gIdx" ind_gIdx p;
      modify (λ s, set_genealogy (tree s) (<[i := g]> (id_genx s)) (id_score s) s);;
      sc ← getattr "score" fitness_score p;
      modify (λ s, set_genealogy (tree s) (id_genx s) (<[i := sc]> (id_score s)) s))
    (λ _ s',
       heap s' = h ∧ history s' = history s ∧
       (∀ q y j, q ∈ ps ++ [p] → h !! q = Some y → ind_id y = Some j →
          tree s' !! j = Some (parentIds y) ∧ id_genx s' !! j = ind_gIdx y ∧
          id_score s' !! j = fitness_score y) ∧
       (∀ j, is_Some (tree s' !! j) ∨ is_Some (id_genx s' !! j)
             ∨ is_Some (id_score s' !! j) →
          ∃ q, q ∈ ps ++ [p] ∧ id_at h q = Some j))
    may_raise s.
Proof.
  intros Hdist Hh Hfacts Hkeys.
  rewrite wp_bind, wp_deref, Hh. destruct (h !! p) as [x|] eqn:Hx; [|done].
  rewrite wp_bind, wp_getattr, Hh, Hx. destruct (ind_id x) as [i|] eqn:Hi; [|done].
  rewrite wp_bind, wp_modify, wp_bind, wp_getattr. simpl. rewrite Hh, Hx.
  destruct (ind_gIdx x) as [g|] eqn:Hgx; [|done].
  rewrite wp_bind, wp_modify, wp_bind, wp_getattr. simpl. rewrite Hh, Hx.
  destruct (fitness_score x) as [sc|] eqn:Hsc; [|done].
  rewrite wp_modify. simpl.
  assert (Hidp : id_at h p = Some i) by (unfold id_at; by rewrite Hx).
  split; [done|]. split; [done|]. split.
  - intros q y j Hq Hy Hj.
    destruct (decide (j = i)) as [->|Hne].
    + assert (q = p) as ->.
      { apply (Hdist q p i); [|done]. unfold id_at. by rewrite Hy. }
      assert (y = x) as -> by congruence.
      rewrite !lookup_insert_eq. by rewrite Hgx, Hsc.
    + rewrite !lookup_insert_ne by done.
      apply elem_of_app in Hq as [Hq|Hq]; [by eapply Hfacts|].
      apply list_elem_of_singleton in Hq as ->. congruence.
  - intros j Hj. destruct (decide (j = i)) as [->|Hne].
    + exists p. split; [|done]. apply elem_of_app. right. apply list_elem_of_here.
    + rewrite !lookup_insert_ne in Hj by done.
      destruct (Hkeys j Hj) as (q & Hq & Hidq).
      exists q. split; [|done]. apply elem_of_app. by left.
Qed.

(** [buildEvolutionTree] that returns, on a store where ids are distinct:
    the genealogy is rebuilt from nothing, from the history alone.  Every
    individual recorded in the history, under any generation, has an entry
    under its id in each of the three dictionaries: its [parentIds] (the
    empty tuple for an individual without parents), its generation index
    and its score; and no dictionary has a key that is not the id of an
    individual of the history.  The store and the history are not
    changed. *)
Theorem buildEvolutionTree_genealogy s s' :
  ids_distinct (heap s) →
  buildEvolutionTree s = (Returned (), s') →
  heap s' = heap s ∧
  history s' = history s ∧
  (∀ g pop p x i, history s !! g = Some pop → p ∈ pop →
     heap s !! p = Some x → ind_id x = Some i →
     tree s' !! i = Some (parentIds x) ∧
     id_genx s' !! i = ind_gIdx x ∧
     id_score s' !! i = fitness_score x) ∧
  (∀ i, is_Some (tree s' !! i) ∨ is_Some (id_genx s' !! i)
        ∨ is_Some (id_score s' !! i) →
     ∃ g pop p, history s !! g = Some pop ∧ p ∈ pop ∧ id_at (heap s) p = Some i).
Proof.
  intros Hdist Hrun.
  set (J := λ (ps : list loc) (st : @Evolution Out R),
    heap st = heap s ∧ history st = history s ∧
    (∀ q y j, q ∈ ps → heap s !! q = Some y → ind_id y = Some j →
       tree st !! j = Some (parentIds y) ∧ id_genx st !! j = ind_gIdx y ∧
       id_score st !! j = fitness_score y) ∧
    (∀ j, is_Some (tree st !! j) ∨ is_Some (id_genx st !! j)
          ∨ is_Some (id_score st !! j) →
       ∃ q, q ∈ ps ∧ id_at (heap s) q = Some j)).
  assert (H : wp buildEvolutionTree
                (λ _ st, J (mjoin (history_items (history s)).*2) st) may_raise s).
  { unfold buildEvolutionTree. rewrite wp_bind, wp_modify, wp_bind, wp_get_self.
    set (s0 := set_genealogy ∅ ∅ ∅ s).
    assert (H0 : J [] s0).
    { unfold J, s0. simpl. split; [done|]. split; [done|]. split.
      - intros q y j Hq. by apply elem_of_nil in Hq.
      - intros j [Hj|[Hj|Hj]]; rewrite lookup_empty in Hj; by destruct Hj. }
    change (history s0) with (history s). clearbody s0.
    generalize (history_items (history s)). intros items.
    apply (wp_for_each_ind (λ pre st, J (mjoin pre.*2) st)); [|done].
    intros pre [gen pop] suf s1 _ H1. cbv beta.
    rewrite fmap_app, join_app. simpl. rewrite app_nil_r.
    apply (wp_for_each_ind (λ pi st, J (mjoin pre.*2 ++ pi) st));
      [|by rewrite app_nil_r].
    intros pi p psuf s2 _ (Hh2 & Hhist2 & Hfacts2 & Hkeys2).
    eapply wp_mono;
      [apply (wp_genealogy_entry (heap s) (mjoin pre.*2 ++ pi) p s2); done | | done].
    intros [] s3 (Hh3 & Hhist3 & Hfacts3 & Hkeys3). unfold J.
    rewrite <- app_assoc in Hfacts3, Hkeys3.
    split; [done|]. split; [congruence|]. split; [exact Hfacts3 | exact Hkeys3]. }
  pose proof (wp_of_eq _ _ _ _ _ _ Hrun H) as (Hh & Hhist & Hfacts & Hkeys).
  split; [done|]. split; [done|]. split.
  - intros g pop p x i Hg Hp Hx Hi. apply (Hfacts p x i); [|done..].
    apply list_elem_of_join. exists pop. split; [done|].
    apply list_elem_of_fmap. exists (g, pop). split; [done|].
    by apply elem_of_history_items.
  - intros i Hi. destruct (Hkeys i Hi) as (p & Hp & Hid).
    apply list_elem_of_join in Hp as (pop & Hp & Hpop).
    apply list_elem_of_fmap in Hpop as ([g pop'] & -> & Hin).
    apply elem_of_history_items in Hin. by exists g, pop', p.
Qed.

(** ** The number of offspring *)

Lemma generation_even_offspring g s :
  submittable (heap s) (pop s) →
  wp (generation cfg toolbox g)
    (λ _ s', ∃ m : nat, Nat.Even m ∧
       length (heap s')
       = (length (heap s)
          + length (filter (λ p, invalid_at cfg (heap s) p) (pop s)) + m)%nat)
    may_raise s.
Proof.
  intros Hsub.
  pose proof (submittable_live _ _ Hsub) as Hlive.
  unfold generation.
  rewrite wp_bind, wp_modify, wp_bind, wp_get_self.
  set (s0 := set_self_gIdx (Some g) s).
  assert (Hs0 : s0 = set_self_gIdx (Some g) s) by done.
  assert (Hh0 : heap s0 = heap s) by done.
  assert (Hpop0 : pop s0 = pop s) by done.
  clearbody s0. rewrite Hpop0.
  (* triage *)
  rewrite wp_bind.
  wp_use wp_getValidPopulation.
  intros validpop ? (-> & Hread & Hvalid).
  rewrite wp_bind.
  wp_use wp_getInvalidPopulation.
  intros invalidpop ? (-> & _ & Hinvalid).
  rewrite Hh0 in Hread, Hvalid, Hinvalid.
  set (base := length (heap s)).
  set (n := length invalidpop).
  (* replacements *)
  rewrite wp_bind. unfold toolbox_population. rewrite Nat2Z.id.
  wp_use wp_population.
  intros newpop s2 (Hnewpop & gs & Hgs & Hgen & Hh2 & Hs2).
  rewrite Hh0 in Hnewpop, Hh2. fold base n in Hnewpop, Hgs.
  rewrite wp_bind. unfold tagPopulation at 1. rewrite wp_bind.
  wp_use (tag_loop_gen newpop s2 g).
  { rewrite Hs2, Hs0. done. }
  intros [] s3 (Htag3 & Hdec3 & Hpost3). rewrite wp_ret.
  pose proof Hpost3 as Hpost3'.
  destruct Hpost3 as (Hlast3 & Hlen3 & Htagged3 & Hother3 & Hs3).
  assert (Hlen2 : length (heap s2) = (base + n)%nat).
  { rewrite Hh2, length_app, length_fmap. lia. }
  assert (Hold3 : ∀ l x, heap s !! l = Some x → heap s3 !! l = Some x).
  { intros l x Hl. rewrite Hother3.
    - rewrite Hh2. by apply lookup_app_l_Some.
    - rewrite Hnewpop, elem_of_seq. apply lookup_lt_Some in Hl. fold base in Hl. lia. }
  (* parents *)
  rewrite wp_bind. wp_use wp_call_selection.
  intros parents s4 (_ & Hparents & Hs4).
  assert (Hh4 : heap s4 = heap s3) by (rewrite Hs4; done).
  assert (Hparents_id : ∀ p, p ∈ parents →
    ∃ x i, heap s4 !! p = Some x ∧ ind_id x = Some i).
  { intros p Hp. apply Hparents in Hp.
    unfold submittable in Hsub. rewrite Forall_forall in Hsub.
    destruct (Hsub p Hp) as (x & i & Hx & Hi). exists x, i.
    rewrite Hh4. split; [by apply Hold3 | done]. }
  (* clones *)
  rewrite wp_bind. wp_use wp_clones.
  { apply Forall_forall. intros p Hp.
    destruct (Hparents_id p Hp) as (x & i & Hx & _). by rewrite Hx. }
  intros offspring s5 (Hoffspring & xs & Hxs & Hh5 & Hs5).
  assert (Hlen4 : length (heap s4) = (base + n)%nat) by (rewrite Hh4; lia).
  rewrite Hlen4 in Hoffspring.
  set (m := length parents) in *.
  assert (Hlenxs : length xs = m) by (symmetry; by eapply Forall2_length).
  assert (Hsub5 : submittable (heap s5) offspring).
  { apply Forall_forall. intros o Ho. rewrite Hoffspring in Ho.
    apply elem_of_seq in Ho.
    destruct (lookup_lt_is_Some_2 parents (o - (base + n))) as [p Hp]; [lia|].
    destruct (Forall2_lookup_l _ _ _ _ _ Hxs Hp) as (x & Hx & Hpx).
    destruct (Hparents_id p) as (y & i & Hy & Hi); [by eapply list_elem_of_lookup_2|].
    assert (y = x) by congruence. subst y.
    exists (deepcopy x), i. split; [|done].
    rewrite Hh5, lookup_app_r by lia. by rewrite Hlen4, list_lookup_fmap, Hx. }
  assert (Hnd_off : NoDup offspring) by (rewrite Hoffspring; apply NoDup_seq).
  (* crossover *)
  rewrite wp_bind. wp_use (crossover_loop offspring s5 Hnd_off Hsub5).
  intros [] s6 (Hlen6 & Hs6 & Hkeep6 & _).
  (* mutation *)
  rewrite wp_bind. wp_use (mutate_loop offspring s6).
  { apply Forall_forall. intros o Ho. apply lookup_lt_is_Some. rewrite Hlen6.
    apply lookup_lt_is_Some. apply submittable_live in Hsub5.
    rewrite Forall_forall in Hsub5. by apply Hsub5. }
  intros [] s7 (Hlen7 & Hs7 & Hcells7).
  (* tagging the offspring *)
  rewrite wp_bind. unfold tagPopulation at 1. rewrite wp_bind.
  wp_use (tag_loop_gen offspring s7 g).
  { rewrite Hs7. simpl. rewrite Hs6. simpl. rewrite Hs5. simpl. rewrite Hs4. simpl.
    rewrite Hs3. simpl. rewrite Hs2, Hs0. done. }
  intros [] s8 (Htag8 & Hdec8 & Hpost8). rewrite wp_ret.
  pose proof Hpost8 as Hpost8'.
  destruct Hpost8 as (Hlast8 & Hlen8 & Htagged8 & Hother8 & Hs8).
  (* the offspring are in even number *)
  assert (Hlen5 : length (heap s5) = (base + n + m)%nat).
  { rewrite Hh5, length_app, length_fmap. lia. }
  assert (Hlen_off : length offspring = m) by (rewrite Hoffspring; apply length_seq).
  assert (Heven : Nat.Even m).
  { destruct (Nat.Even_or_Odd m) as [He|[k Hk]]; [done|]. exfalso.
    destruct (lookup_lt_is_Some_2 offspring (2 * k)) as [o Ho]; [lia|].
    assert (Hnotin : o ∉ take (2 * (length offspring / 2)) offspring).
    { rewrite Hlen_off.
      replace (m / 2)%nat with k
        by (rewrite Hk, Nat.add_comm, Nat.mul_comm, Nat.div_add; simpl; lia).
      intros Hin. apply list_elem_of_lookup in Hin as [j Hj].
      apply lookup_take_Some in Hj as [Hj Hlt].
      pose proof (NoDup_lookup _ _ _ _ Hnd_off Hj Ho). lia. }
    unfold submittable in Hsub5. rewrite Forall_forall in Hsub5.
    destruct (Hsub5 o) as (x & i & Hx & Hi); [by eapply list_elem_of_lookup_2|].
    rewrite <- (Hkeep6 o Hnotin) in Hx.
    destruct (Hcells7 o x Hx) as (g' & Hx7 & _).
    destruct Htag8 as [_ Hnoid]. rewrite Forall_forall in Hnoid.
    specialize (Hnoid o (list_elem_of_lookup_2 _ _ _ Ho)).
    unfold id_at in Hnoid. rewrite Hx7 in Hnoid. simpl in Hnoid. congruence. }
  (* evaluation *)
  rewrite wp_bind, wp_modify, wp_bind.
  wp_use eval_frame.
  intros ? s10 (_ & Hlen10 & _ & _).
  rewrite wp_bind, wp_modify, wp_bind.
  wp_use wp_call_selection.
  intros pop' s12 (_ & _ & Hs12).
  rewrite wp_bind, wp_modify, wp_bind.
  wp_use wp_saveToPypet.
  intros ? s13 (-> & rows & Hs13).
  rewrite wp_bind, wp_modify, wp_bind.
  wp_use wp_call_selection.
  intros best s14 (_ & _ & Hs14).
  rewrite wp_bind, wp_index. destruct (best !! 0%nat) as [b|]; [|done].
  rewrite wp_bind, wp_modify, wp_bind, wp_getattr.
  match goal with |- match ?o with _ => _ end => destruct o as [xb|]; [|done] end.
  destruct (fitness_score xb); [|done]. rewrite wp_ret.
  exists m. split; [done|].
  rewrite Hs14. simpl. rewrite Hs13. simpl. rewrite Hs12. simpl.
  simpl in Hlen10. rewrite Hlen10, Hlen8, Hlen7, Hlen6, Hlen5.
  unfold base, n. by rewrite Hinvalid.
Qed.

(** The cross-over loop runs over [range(1, len(offspring), 2)] and deletes
    the ids of the two clones of each pair; [tagPopulation] then refuses any
    individual that still has an id.  With an odd number of offspring the
    last clone is in no pair and keeps the id of the parent it was cloned
    from, so the generation cannot return: a generation that returns has
    cloned an even number of parents.  (This is what the assertion
    [POP_SIZE % 2 == 0] of the constructor protects, for a parent selection
    that returns [POP_SIZE] individuals.) *)
Theorem generation_returns_even_offspring g s s' :
  submittable (heap s) (pop s) →
  generation cfg toolbox g s = (Returned (), s') →
  let base := length (heap s) in
  let validpop := filter (λ p, valid_at cfg (heap s) p) (pop s) in
  let n := length (filter (λ p, invalid_at cfg (heap s) p) (pop s)) in
  ∃ n_off : nat,
    Nat.Even n_off ∧
    length (heap s') = (base + n + n_off)%nat ∧
    history s' !! g = Some (validpop ++ seq (base + n) n_off ++ seq base n).
Proof.
  intros Hsub Hgen base validpop n.
  pose proof (wp_of_eq _ _ _ _ _ _ Hgen (generation_even_offspring g s Hsub))
    as (m & Heven & Hlen).
  destruct (generation_returned g s s' Hsub Hgen)
    as (n_off & Hhist & _ & _ & Hlen' & _).
  cbv zeta in Hhist, Hlen'.
  exists n_off. fold base n in Hlen, Hlen'.
  assert (n_off = m) as -> by lia.
  split; [done|]. split; [done|]. rewrite Hhist. by rewrite lookup_insert_eq.
Qed.

(** ** A check of the distinctness of ids, for a given store *)

Lemma ids_distinct_check h :
  Forall (λ l1, Forall (λ l2, l1 = l2 ∨ id_at h l1 = None ∨ id_at h l1 ≠ id_at h l2)
                  (seq 0 (length h))) (seq 0 (length h)) →
  ids_distinct h.
Proof.
  intros Hall l1 l2 i H1 H2.
  assert (Hlt : ∀ l, id_at h l = Some i → l ∈ seq 0 (length h)).
  { intros l Hl. apply elem_of_seq. unfold id_at in Hl.
    destruct (h !! l) eqn:Hx; [|done]. apply lookup_lt_Some in Hx. lia. }
  rewrite Forall_forall in Hall. specialize (Hall l1 (Hlt l1 H1)).
  rewrite Forall_forall in Hall.
  destruct (Hall l2 (Hlt l2 H2)) as [?|[?|?]]; [done | congruence..].
Qed.

(** ** The past is not rewritten *)

(** A loop over generations that returns has left every individual that
    existed before it as it was. *)
Lemma loop_keeps_individuals (gens : list Z) : ∀ s s',
  submittable (heap s) (pop s) →
  for_each gens (generation cfg toolbox) s = (Returned (), s') →
  ∀ l x, heap s !! l = Some x → heap s' !! l = Some x.
Proof.
  induction gens as [|g gens IH]; intros s s' Hsub Hrun l x Hx.
  - by injection Hrun as <-.
  - cbn [for_each] in Hrun.
    apply bind_returned in Hrun as ([] & s1 & Hgen & Hrun).
    destruct (generation_returned g s s1 Hsub Hgen)
      as (m & _ & _ & Hsub1 & _ & Hold & _).
    eapply IH; [exact Hsub1 | exact Hrun | by apply Hold].
Qed.

(** [runEvolution] that returns, entered at generation index [g0] on a
    tagged population: the individuals that existed before the call are
    exactly as they were (cross-over and mutation work on clones, the
    evaluation writes to the new individuals only), and the history entries
    of the generations up to [g0] are the same lists as before.  So what the
    history recorded in earlier generations, and the individuals it refers
    to, are not changed by later generations. *)
Theorem runEvolution_keeps_the_past s s' g0 :
  gIdx s = Some g0 →
  submittable (heap s) (pop s) →
  runEvolution cfg toolbox s = (Returned (), s') →
  (∀ l x, heap s !! l = Some x → heap s' !! l = Some x) ∧
  (∀ k, k ≤ g0 → history s' !! k = history s !! k) ∧
  (∀ k pop p x, k ≤ g0 → history s !! k = Some pop → p ∈ pop →
     heap s !! p = Some x →
     history s' !! k = Some pop ∧ heap s' !! p = Some x).
Proof.
  intros Hg Hsub Hrun.
  unfold runEvolution in Hrun.
  apply bind_returned in Hrun as (g0' & ? & Hattr & Hrun).
  apply self_attr_returned in Hattr as [-> Hg0]. rewrite Hg in Hg0.
  injection Hg0 as <-.
  apply bind_returned in Hrun as ([] & s1 & Hloop & Hrun).
  apply bind_returned in Hrun as (b & s1' & Hattr & Hrun).
  apply self_attr_returned in Hattr as [-> _].
  pose proof (wp_of_eq _ _ _ _ _ _ Hrun (buildEvolutionTree_traj s1))
    as (_ & Hh & _).
  pose proof (wp_of_eq _ _ _ _ _ _ Hrun (buildEvolutionTree_frame s1)) as [= Hhp _].
  assert (Hheap : ∀ l x, heap s !! l = Some x → heap s' !! l = Some x).
  { intros l x Hx. rewrite Hhp. by eapply loop_keeps_individuals. }
  assert (Hhist : ∀ k, k ≤ g0 → history s' !! k = history s !! k).
  { intros k Hk. rewrite Hh. eapply loop_keeps_history; [exact Hloop|].
    rewrite elem_of_py_range. lia. }
  split; [done|]. split; [done|].
  intros k pop p x Hk Hpop _ Hx. split; [by rewrite Hhist | by apply Hheap].
Qed.

(** ** Ids and evaluations of a generation *)

Lemma wp_and {A} (m : @M Out R A) Q1 Q2 s :
  wp m Q1 may_raise s → wp m Q2 may_raise s →
  wp m (λ a s', Q1 a s' ∧ Q2 a s') may_raise s.
Proof. unfold wp. by destruct (m s) as [[a|e] s']. Qed.

(** An evaluation that returns has counted its submissions. *)
Lemma eval_counts_returned pop g s :
  wp (evalPopulationUsingPypet cfg toolbox pop g)
    (λ _ s', evaluationCounter s' = evaluationCounter s + Z.of_nat (length pop))
    may_raise s.
Proof.
  unfold evalPopulationUsingPypet. rewrite wp_bind.
  eapply wp_mono; [apply wp_list_comp_pure | | done].
  { intros a s0. rewrite wp_getattr. destruct (heap s0 !! a) as [x|]; [|done].
    by destruct (ind_id x). }
  intros ids ? ->. rewrite wp_bind.
  eapply wp_mono; [apply wp_list_comp_pure | | done].
  { intros a s0. rewrite wp_bind, wp_deref. by destruct (heap s0 !! a). }
  intros gs ? ->.
  rewrite wp_bind, wp_modify, wp_bind, wp_modify, wp_bind, wp_with_rng.
  set (s1 := set_rng _ _).
  assert (H1 : evaluationCounter s1 = evaluationCounter s + Z.of_nat (length pop))
    by done.
  clearbody s1. rewrite <- H1.
  match goal with
  | |- wp ?m _ _ _ =>
      assert (Hpres : @preserves Out R _ _ evaluationCounter m)
        by (unfold storeResult; preserves_tac)
  end.
  eapply wp_mono; [apply (Hpres s1) | done | done].
Qed.

Lemma generation_counts g s :
  submittable (heap s) (pop s) →
  wp (generation cfg toolbox g)
    (λ _ s', ∃ m : nat,
       let n := length (filter (λ p, invalid_at cfg (heap s) p) (pop s)) in
       length (heap s') = (length (heap s) + n + m)%nat ∧
       last_id s' = last_id s + Z.of_nat (n + m) ∧
       evaluationCounter s' = evaluationCounter s + Z.of_nat (n + m))
    may_raise s.
Proof.
  intros Hsub.
  pose proof (submittable_live _ _ Hsub) as Hlive.
  unfold generation.
  rewrite wp_bind, wp_modify, wp_bind, wp_get_self.
  set (s0 := set_self_gIdx (Some g) s).
  assert (Hs0 : s0 = set_self_gIdx (Some g) s) by done.
  assert (Hh0 : heap s0 = heap s) by done.
  assert (Hpop0 : pop s0 = pop s) by done.
  clearbody s0. rewrite Hpop0.
  (* triage *)
  rewrite wp_bind.
  wp_use wp_getValidPopulation.
  intros validpop ? (-> & Hread & Hvalid).
  rewrite wp_bind.
  wp_use wp_getInvalidPopulation.
  intros invalidpop ? (-> & _ & Hinvalid).
  rewrite Hh0 in Hread, Hvalid, Hinvalid.
  set (base := length (heap s)).
  set (n := length invalidpop).
  (* replacements *)
  rewrite wp_bind. unfold toolbox_population. rewrite Nat2Z.id.
  wp_use wp_population.
  intros newpop s2 (Hnewpop & gs & Hgs & Hgen & Hh2 & Hs2).
  rewrite Hh0 in Hnewpop, Hh2. fold base n in Hnewpop, Hgs.
  rewrite wp_bind. unfold tagPopulation at 1. rewrite wp_bind.
  wp_use (tag_loop_gen newpop s2 g).
  { rewrite Hs2, Hs0. done. }
  intros [] s3 (Htag3 & Hdec3 & Hpost3). rewrite wp_ret.
  pose proof Hpost3 as Hpost3'.
  destruct Hpost3 as (Hlast3 & Hlen3 & Htagged3 & Hother3 & Hs3).
  assert (Hlen2 : length (heap s2) = (base + n)%nat).
  { rewrite Hh2, length_app, length_fmap. lia. }
  assert (Hold3 : ∀ l x, heap s !! l = Some x → heap s3 !! l = Some x).
  { intros l x Hl. rewrite Hother3.
    - rewrite Hh2. by apply lookup_app_l_Some.
    - rewrite Hnewpop, elem_of_seq. apply lookup_lt_Some in Hl. fold base in Hl. lia. }
  (* parents *)
  rewrite wp_bind. wp_use wp_call_selection.
  intros parents s4 (_ & Hparents & Hs4).
  assert (Hh4 : heap s4 = heap s3) by (rewrite Hs4; done).
  assert (Hparents_id : ∀ p, p ∈ parents →
    ∃ x i, heap s4 !! p = Some x ∧ ind_id x = Some i).
  { intros p Hp. apply Hparents in Hp.
    unfold submittable in Hsub. rewrite Forall_forall in Hsub.
    destruct (Hsub p Hp) as (x & i & Hx & Hi). exists x, i.
    rewrite Hh4. split; [by apply Hold3 | done]. }
  (* clones *)
  rewrite wp_bind. wp_use wp_clones.
  { apply Forall_forall. intros p Hp.
    destruct (Hparents_id p Hp) as (x & i & Hx & _). by rewrite Hx. }
  intros offspring s5 (Hoffspring & xs & Hxs & Hh5 & Hs5).
  assert (Hlen4 : length (heap s4) = (base + n)%nat) by (rewrite Hh4; lia).
  rewrite Hlen4 in Hoffspring.
  set (m := length parents) in *.
  assert (Hlenxs : length xs = m) by (symmetry; by eapply Forall2_length).
  assert (Hsub5 : submittable (heap s5) offspring).
  { apply Forall_forall. intros o Ho. rewrite Hoffspring in Ho.
    apply elem_of_seq in Ho.
    destruct (lookup_lt_is_Some_2 parents (o - (base + n))) as [p Hp]; [lia|].
    destruct (Forall2_lookup_l _ _ _ _ _ Hxs Hp) as (x & Hx & Hpx).
    destruct (Hparents_id p) as (y & i & Hy & Hi); [by eapply list_elem_of_lookup_2|].
    assert (y = x) by congruence. subst y.
    exists (deepcopy x), i. split; [|done].
    rewrite Hh5, lookup_app_r by lia. by rewrite Hlen4, list_lookup_fmap, Hx. }
  assert (Hnd_off : NoDup offspring) by (rewrite Hoffspring; apply NoDup_seq).
  (* crossover *)
  rewrite wp_bind. wp_use (crossover_loop offspring s5 Hnd_off Hsub5).
  intros [] s6 (Hlen6 & Hs6 & Hkeep6 & _).
  (* mutation *)
  rewrite wp_bind. wp_use (mutate_loop offspring s6).
  { apply Forall_forall. intros o Ho. apply lookup_lt_is_Some. rewrite Hlen6.
    apply lookup_lt_is_Some. apply submittable_live in Hsub5.
    rewrite Forall_forall in Hsub5. by apply Hsub5. }
  intros [] s7 (Hlen7 & Hs7 & Hcells7).
  (* tagging the offspring *)
  rewrite wp_bind. unfold tagPopulation at 1. rewrite wp_bind.
  wp_use (tag_loop_gen offspring s7 g).
  { rewrite Hs7. simpl. rewrite Hs6. simpl. rewrite Hs5. simpl. rewrite Hs4. simpl.
    rewrite Hs3. simpl. rewrite Hs2, Hs0. done. }
  intros [] s8 (Htag8 & Hdec8 & Hpost8). rewrite wp_ret.
  pose proof Hpost8 as Hpost8'.
  destruct Hpost8 as (Hlast8 & Hlen8 & Htagged8 & Hother8 & Hs8).
  (* counters so far *)
  assert (Hlen5 : length (heap s5) = (base + n + m)%nat).
  { rewrite Hh5, length_app, length_fmap. lia. }
  assert (Hlen_off : length offspring = m) by (rewrite Hoffspring; apply length_seq).
  assert (Hlen_new : length newpop = n) by (rewrite Hnewpop; apply length_seq).
  assert (Hb2 : last_id s2 = last_id s ∧ evaluationCounter s3 = evaluationCounter s).
  { rewrite Hs3. simpl. rewrite Hs2, Hs0. done. }
  destruct Hb2 as [Hlast2 Hec3].
  assert (Hb7 : last_id s7 = last_id s3 ∧ evaluationCounter s8 = evaluationCounter s3).
  { rewrite Hs8. simpl. rewrite Hs7. simpl. rewrite Hs6. simpl. rewrite Hs5. simpl.
    by rewrite Hs4. }
  destruct Hb7 as [Hlast7 Hec8].
  (* evaluation *)
  rewrite wp_bind, wp_modify, wp_bind.
  eapply wp_mono; [apply wp_and; [apply eval_frame | apply eval_counts_returned] | | done].
  intros ? s10 [(_ & Hlen10 & (tr & ec & r & Hs10) & _) Hec10].
  rewrite wp_bind, wp_modify, wp_bind.
  wp_use wp_call_selection.
  intros pop' s12 (_ & _ & Hs12).
  rewrite wp_bind, wp_modify, wp_bind.
  wp_use wp_saveToPypet.
  intros ? s13 (-> & rows & Hs13).
  rewrite wp_bind, wp_modify, wp_bind.
  wp_use wp_call_selection.
  intros best s14 (_ & _ & Hs14).
  rewrite wp_bind, wp_index. destruct (best !! 0%nat) as [b|]; [|done].
  rewrite wp_bind, wp_modify, wp_bind, wp_getattr.
  match goal with |- match ?o with _ => _ end => destruct o as [xb|]; [|done] end.
  destruct (fitness_score xb); [|done]. rewrite wp_ret.
  exists m. cbv zeta.
  assert (Hlast10 : last_id s10 = last_id s8) by (rewrite Hs10; done).
  rewrite Hs14. simpl. rewrite Hs13. simpl. rewrite Hs12. simpl.
  simpl in Hlen10, Hec10.
  rewrite Hlen10, Hlen8, Hlen7, Hlen6, Hlen5, Hlast10, Hlast8, Hlast7, Hlast3, Hlast2.
  rewrite Hec10, Hec8, Hec3, length_app, Hlen_off, Hlen_new.
  unfold base, n. rewrite Hinvalid. unfold invalid_at. split; [done|]. split; lia.
Qed.

(** A generation that returns, on a tagged population: with [n] the number
    of invalid individuals of the population and [m] the number of
    offspring, [n + m] new individuals have been created, the id counter
    and the evaluation counter have both advanced by [n + m], and every
    individual that existed before is as it was.  So each new individual
    receives one id and is submitted once, and no individual carried over
    from an earlier generation is tagged or evaluated again. *)
Theorem generation_tags_and_evaluates_the_new g s s' :
  submittable (heap s) (pop s) →
  generation cfg toolbox g s = (Returned (), s') →
  ∃ m : nat,
    let n := length (filter (λ p, invalid_at cfg (heap s) p) (pop s)) in
    length (heap s') = (length (heap s) + n + m)%nat ∧
    last_id s' = last_id s + Z.of_nat (n + m) ∧
    evaluationCounter s' = evaluationCounter s + Z.of_nat (n + m) ∧
    (∀ l x, heap s !! l = Some x → heap s' !! l = Some x).
Proof.
  intros Hsub Hgen.
  pose proof (wp_of_eq _ _ _ _ _ _ Hgen (generation_counts g s Hsub))
    as (m & Hlen & Hlast & Hec).
  destruct (generation_returned g s s' Hsub Hgen) as (? & _ & _ & _ & _ & Hold & _).
  exists m. cbv zeta. by repeat split.
Qed.

(** ** The triage, applied twice *)

Lemma filter_filter_disjoint {A} (P Q : A → Prop)
    `{!∀ a, Decision (P a)} `{!∀ a, Decision (Q a)} (l : list A) :
  (∀ a, P a → Q a → False) → filter P (filter Q l) = [].
Proof.
  intros Hpq. induction l as [|a l IH]; [done|].
  rewrite (filter_cons Q). destruct (decide (Q a)) as [Hq|Hq]; [|done].
  rewrite (filter_cons P). destruct (decide (P a)) as [Hp|Hp]; [|done].
  destruct (Hpq a Hp Hq).
Qed.

(** On a population whose fitness values can be read, the triage
    returns, the valid part of the population has no invalid individual and
    is its own valid part, and likewise for the invalid part. *)
Theorem triage_of_triage pop s :
  readable cfg (heap s) pop →
  ∃ valid invalid,
    getValidPopulation cfg pop s = (Returned valid, s) ∧
    getInvalidPopulation cfg pop s = (Returned invalid, s) ∧
    getValidPopulation cfg valid s = (Returned valid, s) ∧
    getInvalidPopulation cfg valid s = (Returned [], s) ∧
    getInvalidPopulation cfg invalid s = (Returned invalid, s) ∧
    getValidPopulation cfg invalid s = (Returned [], s).
Proof.
  intros Hread.
  assert (Hsub : ∀ (P : loc → Prop) `{!∀ p, Decision (P p)},
            readable cfg (heap s) (filter P pop)).
  { intros P ?. apply Forall_forall. intros p Hp.
    apply list_elem_of_filter in Hp as [_ Hp].
    unfold readable in Hread. rewrite Forall_forall in Hread. by apply Hread. }
  exists (filter (valid_at cfg (heap s)) pop), (filter (invalid_at cfg (heap s)) pop).
  assert (Hexcl : ∀ p, invalid_at cfg (heap s) p → valid_at cfg (heap s) p → False).
  { intros p Hi Hv. by eapply invalid_not_valid. }
  split; [by apply getValidPopulation_readable|].
  split; [by apply getInvalidPopulation_readable|].
  split; [|split; [|split]].
  - rewrite getValidPopulation_readable by apply Hsub.
    by rewrite list_filter_filter_r.
  - rewrite getInvalidPopulation_readable by apply Hsub.
    by rewrite filter_filter_disjoint.
  - rewrite getInvalidPopulation_readable by apply Hsub.
    by rewrite list_filter_filter_r.
  - rewrite getValidPopulation_readable by apply Hsub.
    rewrite filter_filter_disjoint; [done|]. intros p Hv Hi. by eapply Hexcl.
Qed.

(** ** Lineage *)



End Proofs.

(** * The theorems at work on the small run *)

Ltac demo_forall tac :=
  unfold submittable, decodable, well_packed;
  match goal with
  | |- Forall _ ?l => let l' := eval vm_compute in l in change l with l'
  end;
  repeat first [ apply Forall_nil_2 | apply Forall_cons_2; [tac|] ].

Ltac demo_live := demo_forall ltac:(vm_compute; eexists; reflexivity).

Ltac demo_submittable :=
  demo_forall ltac:(vm_compute; do 2 eexists; split; reflexivity).


Ltac demo_well_packed := demo_forall ltac:(vm_compute; do 2 eexists; reflexivity).

Lemma demo_generation1_returns :
  generation (demo_cfg 3) demo_toolbox 1 demo_initial
  = (Returned (), demo_generation1).
Proof. vm_compute. reflexivity. Qed.

Lemma demo_initial_submittable : submittable (heap demo_initial) (pop demo_initial).
Proof. demo_submittable. Qed.

Lemma demo_initial_readable :
  readable (demo_cfg 3) (heap demo_initial) (pop demo_initial).
Proof. apply (bool_decide_unpack _). vm_compute. exact I. Qed.

(** The triage of the population left by the initial generation: the
    individual at address 3 is valid, the one at address 2 (NaN) is not. *)
Lemma getValid_getInvalid_partition_witness :
  Forall (λ p, is_Some (heap demo_initial !! p)) (pop demo_initial) ∧
  readable (demo_cfg 3) (heap demo_initial) (pop demo_initial) ∧
  ∃ valid invalid,
    getValidPopulation (demo_cfg 3) (pop demo_initial) demo_initial
    = (Returned valid, demo_initial) ∧
    getInvalidPopulation (demo_cfg 3) (pop demo_initial) demo_initial
    = (Returned invalid, demo_initial) ∧
    valid ++ invalid ≡ₚ pop demo_initial ∧
    (length valid + length invalid = length (pop demo_initial))%nat.
Proof.
  assert (Hlive : Forall (λ p, is_Some (heap demo_initial !! p)) (pop demo_initial))
    by demo_live.
  destruct (getValid_getInvalid_partition (demo_cfg 3) (pop demo_initial)
              demo_initial Hlive) as (Hpart & Hweights & _).
  assert (Hread : readable (demo_cfg 3) (heap demo_initial) (pop demo_initial)).
  { apply Hweights. repeat constructor. }
  split; [exact Hlive|]. split; [exact Hread|].
  destruct (Hpart Hread)
    as (valid & invalid & Hv & Hi & _ & _ & _ & _ & Hperm & Hlen).
  by exists valid, invalid.
Defined.


Ltac demo_decide := apply (bool_decide_unpack _); vm_compute; exact I.

(** Two results, in the order of the population: each is written at its
    position. *)
Lemma evalPopulation_writes_by_position_witness :
  submittable (heap demo_swapped) (pop demo_swapped) ∧
  NoDup (pop demo_swapped) ∧
  well_packed (backend_results demo_toolbox 0 (pop demo_swapped) demo_swapped) ∧
  backend_results demo_toolbox 0 (pop demo_swapped) demo_swapped ≠ [] ∧
  (length (backend_results demo_toolbox 0 (pop demo_swapped) demo_swapped)
   ≤ length (pop demo_swapped))%nat ∧
  ∃ s' x, evalPopulationUsingPypet (demo_cfg 3) demo_toolbox (pop demo_swapped) 0
            demo_swapped = (Returned (pop demo_swapped), s') ∧
          heap s' !! 0%nat = Some x ∧ outputs x = Some 101.
Proof.
  assert (H1 : submittable (heap demo_swapped) (pop demo_swapped))
    by demo_submittable.
  assert (H2 : NoDup (pop demo_swapped)) by demo_decide.
  assert (H3 : well_packed
    (backend_results demo_toolbox 0 (pop demo_swapped) demo_swapped))
    by demo_well_packed.
  assert (H4 : backend_results demo_toolbox 0 (pop demo_swapped) demo_swapped ≠ [])
    by (vm_compute; discriminate).
  assert (H5 : (length (backend_results demo_toolbox 0 (pop demo_swapped) demo_swapped)
                ≤ length (pop demo_swapped))%nat) by demo_decide.
  repeat (split; [assumption|]).
  destruct (evalPopulation_writes_by_position (demo_cfg 3) demo_toolbox
              (pop demo_swapped) 0 demo_swapped H1 H2 H3 H4 H5)
    as (s' & Hrun & Hpos & _).
  destruct (heap demo_swapped !! 0%nat) as [x|] eqn:Hx; [|by vm_compute in Hx].
  exists s', (evaluated (demo_cfg 3) [float_of_Z 5] 101 x).
  split; [exact Hrun|]. split; [|reflexivity].
  apply (Hpos 0%nat 1 [float_of_Z 5] 101 0%nat x); [|reflexivity | exact Hx].
  vm_compute. reflexivity.
Defined.

(** The results come back in the other order: the result of work unit 1
    carries the outputs 101, and the individual with id 1 has received the
    outputs 100 of work unit 0. *)
Lemma evalPopulation_by_id_counterexample :
  evalPopulationUsingPypet (demo_cfg 3) demo_toolbox (pop demo_swapped) 0
    demo_swapped = (Returned (pop demo_swapped), demo_swapped_evaluated) ∧
  backend_results demo_toolbox 0 (pop demo_swapped) demo_swapped !! 0%nat
  = Some (1, Pack2 [float_of_Z 5] 101) ∧
  ∃ p x, heap demo_swapped_evaluated !! p = Some x ∧
         ind_id x = Some 1 ∧
         outputs x = Some 100 ∧
         outputs x ≠ Some 101.
Proof.
  split; [vm_compute; reflexivity|]. split; [vm_compute; reflexivity|].
  exists 1%nat. eexists. split; [reflexivity|]. by repeat split.
Qed.

(** Three results for four individuals. *)
Lemma evalPopulation_result_count_witness :
  submittable (heap demo_short) (pop demo_short) ∧
  NoDup (pop demo_short) ∧
  well_packed (backend_results demo_toolbox 0 (pop demo_short) demo_short) ∧
  ∃ s', evalPopulationUsingPypet (demo_cfg 3) demo_toolbox (pop demo_short) 0
          demo_short = (Returned (pop demo_short), s') ∧
        heap s' !! 3%nat = heap demo_short !! 3%nat.
Proof.
  assert (H1 : submittable (heap demo_short) (pop demo_short)) by demo_submittable.
  assert (H2 : NoDup (pop demo_short)) by demo_decide.
  assert (H3 : well_packed (backend_results demo_toolbox 0 (pop demo_short) demo_short))
    by demo_well_packed.
  repeat (split; [assumption|]).
  destruct (evalPopulation_result_count (demo_cfg 3) demo_toolbox
              (pop demo_short) 0 demo_short H1 H2 H3) as (_ & Hsome & _).
  destruct Hsome as (s' & Hrun & Hcells);
    [vm_compute; discriminate | demo_decide |].
  exists s'. split; [exact Hrun|].
  by rewrite (Hcells 3%nat 3%nat eq_refl).
Defined.

(** Three results for four individuals: no error is raised, and the first
    three individuals have been written while the fourth has not. *)
Lemma evalPopulation_short_results_counterexample :
  length (backend_results demo_toolbox 0 (pop demo_short) demo_short) = 3%nat ∧
  length (pop demo_short) = 4%nat ∧
  evalPopulationUsingPypet (demo_cfg 3) demo_toolbox (pop demo_short) 0 demo_short
  = (Returned (pop demo_short), demo_short_evaluated) ∧
  (∃ x, heap demo_short_evaluated !! 0%nat = Some x ∧
        outputs x = Some 100 ∧ fitness_score x ≠ None) ∧
  (∃ x, heap demo_short_evaluated !! 3%nat = Some x ∧
        outputs x = None ∧ fitness_score x = None) ∧
  heap demo_short_evaluated ≠ heap demo_short.
Proof.
  split; [reflexivity|]. split; [reflexivity|].
  split; [vm_compute; reflexivity|].
  split; [|split].
  - eexists. split; [reflexivity|]. by split.
  - eexists. split; [reflexivity|]. by split.
  - intros Heq. apply (f_equal (λ h, outputs <$> h !! 0%nat)) in Heq.
    vm_compute in Heq. discriminate.
Qed.

(** A finite fitness [5.0] with the weight [1.0]: the fitness values read
    back as [5.0] and the score is the mean of the weighted components. *)
Lemma evaluated_weighted_score_witness :
  submittable (heap demo_swapped) (pop demo_swapped) ∧
  NoDup (pop demo_swapped) ∧
  well_packed (backend_results demo_toolbox 0 (pop demo_swapped) demo_swapped) ∧
  backend_results demo_toolbox 0 (pop demo_swapped) demo_swapped ≠ [] ∧
  (length (backend_results demo_toolbox 0 (pop demo_swapped) demo_swapped)
   ≤ length (pop demo_swapped))%nat ∧
  Forall (λ w, proper_weight w = true) (weightList (demo_cfg 3)) ∧
  ∃ s' x, evalPopulationUsingPypet (demo_cfg 3) demo_toolbox (pop demo_swapped) 0
            demo_swapped = (Returned (pop demo_swapped), s') ∧
          heap s' !! 0%nat = Some x ∧
          fitness_wvalues x = [float_of_Z 5] ∧
          fitness_values (demo_cfg 3) x = Returned [float_of_Z 5] ∧
          fitness_score x = Some (spec_weighted_score (demo_cfg 3) [float_of_Z 5]) ∧
          fitness_score x = Some (Unmasked (float_of_Z 5)).
Proof.
  assert (H1 : submittable (heap demo_swapped) (pop demo_swapped))
    by demo_submittable.
  assert (H2 : NoDup (pop demo_swapped)) by demo_decide.
  assert (H3 : well_packed
    (backend_results demo_toolbox 0 (pop demo_swapped) demo_swapped))
    by demo_well_packed.
  assert (H4 : backend_results demo_toolbox 0 (pop demo_swapped) demo_swapped ≠ [])
    by (vm_compute; discriminate).
  assert (H5 : (length (backend_results demo_toolbox 0 (pop demo_swapped) demo_swapped)
                ≤ length (pop demo_swapped))%nat) by demo_decide.
  assert (H6 : Forall (λ w, proper_weight w = true) (weightList (demo_cfg 3))).
  { apply Forall_cons_2; [vm_compute; reflexivity | apply Forall_nil_2]. }
  repeat (split; [assumption|]).
  destruct (evaluated_weighted_score (demo_cfg 3) demo_toolbox
              (pop demo_swapped) 0 demo_swapped H1 H2 H3 H4 H5 H6)
    as (s' & Hrun & Hscore).
  destruct (Hscore 0%nat 1 [float_of_Z 5] 101 0%nat)
    as (x & vals & Hx & Hw & Hvalues & Hlen & Hcomp & _ & Hsc & _);
    [vm_compute; reflexivity | reflexivity.. |].
  destruct (Hcomp 0%nat (float_of_Z 5) (float_of_Z 1) eq_refl eq_refl) as [Hv0 _].
  destruct vals as [|v [|? ?]]; [discriminate | | discriminate].
  injection Hv0 as ->.
  exists s', x. split; [done|]. split; [done|].
  split; [rewrite Hw; vm_compute; reflexivity|].
  split; [rewrite Hvalues; vm_compute; reflexivity|].
  split; [exact Hsc|]. rewrite Hsc. vm_compute. reflexivity.
Defined.

(** A fitness vector whose only component is NaN: the score is numpy's
    masked constant, not the mean with the NaN counted as zero. *)
Lemma weighted_score_all_invalid_counterexample :
  evalPopulationUsingPypet (demo_cfg 3) demo_toolbox (pop demo_all_nan) 0
    demo_all_nan = (Returned (pop demo_all_nan), demo_all_nan_evaluated) ∧
  backend_results demo_toolbox 0 (pop demo_all_nan) demo_all_nan
  = [(0, Pack2 [NaN] 100)] ∧
  ∃ x, heap demo_all_nan_evaluated !! 0%nat = Some x ∧
       fitness_values (demo_cfg 3) x = Returned [NaN] ∧
       fitness_score x = Some Masked ∧
       fitness_score x ≠ Some (spec_weighted_score (demo_cfg 3) [NaN]).
Proof.
  split; [vm_compute; reflexivity|]. split; [vm_compute; reflexivity|].
  eexists. split; [reflexivity|]. split; [reflexivity|]. split; [reflexivity|].
  unfold spec_weighted_score. simpl. discriminate.
Qed.

(** Rounding.  The fitness [0.1] with the weight [3.0] is stored as the
    rounded product and read back as the rounded quotient, which is not
    [0.1] but the next float, 0.10000000000000002. *)
Lemma weighted_value_rounded_example :
  let tenth := fdiv (float_of_Z 1) (float_of_Z 10) in
  let cfg := mkConfig [float_of_Z 3] 3 2 ["a"%string] 4 in
  let x := evaluated (Out:=Z) cfg [tenth] 0 (new_Individual []) in
  tenth = S754_finite false 7205759403792794 (-56) ∧
  fitness_values cfg x = Returned [S754_finite false 7205759403792795 (-56)] ∧
  fitness_values cfg x ≠ Returned [tenth] ∧
  invalid_fitness cfg x = Returned false.
Proof.
  cbv zeta. split; [vm_compute; reflexivity|].
  split; [vm_compute; reflexivity|]. split; [|vm_compute; reflexivity].
  vm_compute. discriminate.
Qed.

(** Overflow.  The finite fitness [1e200] with the weight [1e200] is stored
    as an infinity: it reads back as Inf, so the individual is invalid for
    the triage, and its score is the masked constant. *)
Lemma weighted_value_overflow_example :
  let big := float_of_Z (10 ^ 200) in
  let cfg := mkConfig [big] 3 2 ["a"%string] 4 in
  let x := evaluated (Out:=Z) cfg [big] 0 (new_Individual []) in
  isfinite big = true ∧
  fitness_values cfg x = Returned [Inf false] ∧
  invalid_fitness cfg x = Returned true ∧
  fitness_score x = Some Masked.
Proof. cbv zeta. repeat split; vm_compute; reflexivity. Qed.

(** A zero weight.  One individual is evaluated with the fitness [5.0]
    under the weight [0.0]: the evaluation returns and stores the product
    and a score; reading the fitness values then raises ZeroDivisionError,
    and both triage functions raise it on the population of this
    individual, instead of returning a partition. *)
Lemma triage_zero_weight_counterexample :
  evalPopulationUsingPypet demo_cfg_zero demo_toolbox (pop demo_zero_weight) 0
    demo_zero_weight
  = (Returned (pop demo_zero_weight), demo_zero_weight_evaluated) ∧
  pop demo_zero_weight_evaluated = [0%nat] ∧
  (∃ x, heap demo_zero_weight_evaluated !! 0%nat = Some x ∧
        fitness_wvalues x = [float_of_Z 0] ∧
        fitness_score x = Some (Unmasked (float_of_Z 0)) ∧
        fitness_values demo_cfg_zero x = Raised ZeroDivisionError) ∧
  getValidPopulation demo_cfg_zero (pop demo_zero_weight_evaluated)
    demo_zero_weight_evaluated
  = (Raised ZeroDivisionError, demo_zero_weight_evaluated) ∧
  getInvalidPopulation demo_cfg_zero (pop demo_zero_weight_evaluated)
    demo_zero_weight_evaluated
  = (Raised ZeroDivisionError, demo_zero_weight_evaluated).
Proof.
  split; [vm_compute; reflexivity|]. split; [reflexivity|].
  split; [|split; vm_compute; reflexivity].
  eexists. split; [reflexivity|]. repeat split; vm_compute; reflexivity.
Qed.



(** The first generation of the small run: the invalid individual at
    address 2 is neither in the pool nor in the next population. *)
Lemma invalid_members_leave_the_pool_witness :
  submittable (heap demo_initial) (pop demo_initial) ∧
  generation (demo_cfg 3) demo_toolbox 1 demo_initial
  = (Returned (), demo_generation1) ∧
  ∃ pool, history demo_generation1 !! 1 = Some pool ∧
          (2%nat ∉ pool) ∧ (2%nat ∉ pop demo_generation1).
Proof.
  pose proof demo_initial_submittable as H1.
  pose proof demo_generation1_returns as H2.
  repeat (split; [assumption|]).
  destruct (invalid_members_leave_the_pool (demo_cfg 3) demo_toolbox 1
              demo_initial demo_generation1 H1 H2)
    as (pool & Hhist & _ & Hinv & _).
  exists pool. split; [exact Hhist|].
  apply (Hinv 2%nat); [demo_decide | vm_compute; exact I].
Defined.

(** The first generation of the small run: the offspring at address 6 was
    evaluated with a NaN fitness; it is in the pool given to the survivor
    selection, and in the next population. *)
Lemma invalid_offspring_in_pool_counterexample :
  generation (demo_cfg 3) demo_toolbox 1 demo_initial
  = (Returned (), demo_generation1) ∧
  history demo_generation1 !! 1 = Some [3%nat; 5%nat; 6%nat; 4%nat] ∧
  (∃ x, heap demo_generation1 !! 6%nat = Some x ∧
        fitness_values (demo_cfg 3) x = Returned [NaN] ∧
        invalid_fitness (demo_cfg 3) x = Returned true) ∧
  6%nat ∈ pop demo_generation1.
Proof.
  split; [exact demo_generation1_returns|].
  split; [vm_compute; reflexivity|].
  split; [|demo_decide].
  eexists. split; [reflexivity|]. by split.
Qed.


(** The small run, with [NGEN = 3]: the loop of [runEvolution] runs for the
    generations 1 and 2, twice. *)
Lemma runEvolution_generation_count_witness :
  gIdx demo_initial = Some 0 ∧
  submittable (heap demo_initial) (pop demo_initial) ∧
  runEvolution (demo_cfg 3) demo_toolbox demo_initial = (Returned (), demo_final) ∧
  NGEN (demo_cfg 3) = 3 ∧
  (traj_generations demo_final).*1 = [0; 1; 2] ∧
  length (py_range (0 + 1) (0 + NGEN (demo_cfg 3))) = 2%nat.
Proof.
  assert (H1 : gIdx demo_initial = Some 0) by reflexivity.
  pose proof demo_initial_submittable as H2.
  assert (H3 : runEvolution (demo_cfg 3) demo_toolbox demo_initial
               = (Returned (), demo_final)) by (vm_compute; reflexivity).
  repeat (split; [assumption|]). split; [reflexivity|].
  destruct (runEvolution_generation_count (demo_cfg 3) demo_toolbox
              demo_initial demo_final 0 H1 H2 H3) as (Htraj & Hlen & _ & _).
  split; [exact Htraj | exact Hlen].
Defined.

(** The small run, with [NGEN = 3]: after the initial generation the loop
    body has run for the generations 1 and 2 only; no third body has run,
    and no generation 3 is recorded. *)
Lemma runEvolution_ngen_bodies_counterexample :
  NGEN (demo_cfg 3) = 3 ∧
  gIdx demo_initial = Some 0 ∧
  runEvolution (demo_cfg 3) demo_toolbox demo_initial = (Returned (), demo_final) ∧
  (traj_generations demo_final).*1 = (traj_generations demo_initial).*1 ++ [1; 2] ∧
  gIdx demo_final = Some 2 ∧
  history demo_final !! 3 = None ∧
  length (py_range (0 + 1) (0 + NGEN (demo_cfg 3))) ≠ Z.to_nat (NGEN (demo_cfg 3)).
Proof.
  split; [reflexivity|]. split; [reflexivity|].
  split; [vm_compute; reflexivity|].
  split; [vm_compute; reflexivity|].
  split; [reflexivity|].
  split; [vm_compute; reflexivity|].
  vm_compute. discriminate.
Qed.

(** * The further properties on small examples *)

Ltac demo_outcome Hrun :=
  apply (f_equal fst) in Hrun; vm_compute in Hrun; by rewrite <- Hrun.

Lemma demo_initial_ids_distinct : ids_distinct (heap demo_initial).
Proof. apply ids_distinct_check. demo_decide. Qed.

Lemma demo_initial_runs : is_Some (gIdx demo_initial).
Proof. by eexists. Qed.

(** A backend that returns nothing: the bootstrap fails with the assertion
    of the evaluation, with the flag still unset and the history empty. *)
Lemma runInitial_raises_before_recording_witness :
  ∃ s', runInitial (demo_cfg 3) demo_toolbox (init_Evolution [])
        = (Raised (AssertionError no_results), s') ∧
        initialPopulationSimulated s' = false ∧
        history s' = ∅.
Proof.
  destruct (runInitial (demo_cfg 3) demo_toolbox (init_Evolution [])) as [out s']
    eqn:Hrun.
  assert (out = Raised (AssertionError no_results)) as -> by demo_outcome Hrun.
  exists s'. split; [done|].
  destruct (runInitial_raises_before_recording (demo_cfg 3) demo_toolbox
              (init_Evolution [])) as [Hraised _].
  exact (Hraised _ _ Hrun).
Defined.

(** Two tagged individuals and no result: the evaluation fails, and has
    counted the two submissions and explored two runs. *)
Lemma evaluation_counts_submissions_witness :
  submittable (heap demo_unanswered) (pop demo_unanswered) ∧
  ∃ s', evalPopulationUsingPypet (demo_cfg 3) demo_toolbox (pop demo_unanswered) 0
          demo_unanswered = (Raised (AssertionError no_results), s') ∧
        evaluationCounter s' = 2 ∧
        length (traj_runs s') = 2%nat.
Proof.
  assert (H1 : submittable (heap demo_unanswered) (pop demo_unanswered))
    by demo_submittable.
  split; [exact H1|].
  destruct (evalPopulationUsingPypet (demo_cfg 3) demo_toolbox
              (pop demo_unanswered) 0 demo_unanswered) as [out s'] eqn:Hrun.
  assert (out = Raised (AssertionError no_results)) as -> by demo_outcome Hrun.
  exists s'. split; [done|].
  destruct (evaluation_counts_submissions (demo_cfg 3) demo_toolbox
              (pop demo_unanswered) 0 demo_unanswered _ s' H1 Hrun)
    as (Hc & Ht & Hl).
  split; [exact Hc|]. rewrite Ht, length_app, length_fmap, Hl. reflexivity.
Defined.


(** Two runs with [NGEN = 2]: the first does the generations 0 and 1, the
    second the generation 2 only. *)
Lemma run_continues_previous_evolution_witness :
  initialPopulationSimulated (@init_Evolution Z Script demo_script2) = false ∧
  1 ≤ NGEN (demo_cfg 2) ∧
  run (demo_cfg 2) demo_toolbox (init_Evolution demo_script2)
  = (Returned (), demo_run1) ∧
  run (demo_cfg 2) demo_toolbox demo_run1 = (Returned (), demo_run2) ∧
  gIdx demo_run1 = Some 1 ∧
  gIdx demo_run2 = Some 2 ∧
  (traj_generations demo_run2).*1 = [0; 1; 2].
Proof.
  assert (H1 : initialPopulationSimulated (@init_Evolution Z Script demo_script2) = false)
    by reflexivity.
  assert (H2 : 1 ≤ NGEN (demo_cfg 2)) by (simpl; lia).
  assert (H3 : run (demo_cfg 2) demo_toolbox (init_Evolution demo_script2)
               = (Returned (), demo_run1)) by (vm_compute; reflexivity).
  assert (H4 : run (demo_cfg 2) demo_toolbox demo_run1 = (Returned (), demo_run2))
    by (vm_compute; reflexivity).
  repeat (split; [assumption|]).
  destruct (run_continues_previous_evolution (demo_cfg 2) demo_toolbox
              _ _ _ H1 H2 H3 H4) as (_ & Hg1 & Hg2 & _ & Ht2 & _).
  split; [exact Hg1|]. split; [exact Hg2 | exact Ht2].
Defined.

(** Two tagged individuals; the first result is a pair and the second a
    tuple of three: the evaluation fails on the shape, the first individual
    has been written and the second has not. *)
Lemma evalPopulation_malformed_result_witness :
  submittable (heap demo_malformed) (pop demo_malformed) ∧
  NoDup (pop demo_malformed) ∧
  backend_results demo_toolbox 0 (pop demo_malformed) demo_malformed
  = [demo_ok 0 1] ++ (1, PackOther 3) :: [] ∧
  well_packed [demo_ok 0 1] ∧
  (length [demo_ok 0 1] ≤ length (pop demo_malformed))%nat ∧
  ∃ s', evalPopulationUsingPypet (demo_cfg 3) demo_toolbox (pop demo_malformed) 0
          demo_malformed = (Raised (AssertionError bad_shape), s') ∧
        (∃ x, heap s' !! 0%nat = Some x ∧ outputs x = Some 100) ∧
        heap s' !! 1%nat = heap demo_malformed !! 1%nat.
Proof.
  assert (H1 : submittable (heap demo_malformed) (pop demo_malformed))
    by demo_submittable.
  assert (H2 : NoDup (pop demo_malformed)) by demo_decide.
  assert (H3 : backend_results demo_toolbox 0 (pop demo_malformed) demo_malformed
               = [demo_ok 0 1] ++ (1, PackOther 3) :: [])
    by (vm_compute; reflexivity).
  assert (H4 : well_packed [demo_ok 0 1]).
  { apply Forall_cons_2; [by eexists _, _ | apply Forall_nil_2]. }
  assert (H5 : (length [demo_ok 0 1] ≤ length (pop demo_malformed))%nat)
    by demo_decide.
  repeat (split; [assumption|]).
  destruct (evalPopulation_malformed_result (demo_cfg 3) demo_toolbox
              (pop demo_malformed) 0 demo_malformed _ _ _ _ H1 H2 H3 H4 H5)
    as (s' & Hrun & Hcells).
  exists s'. split; [exact Hrun|]. split.
  - rewrite (Hcells 0%nat 0%nat eq_refl). simpl.
    destruct (heap demo_malformed !! 0%nat) as [x|] eqn:Hx; [|by vm_compute in Hx].
    eexists. split; reflexivity.
  - by rewrite (Hcells 1%nat 1%nat eq_refl).
Defined.


(** The population left by the bootstrap has the individuals with the ids
    2 and 3: the run with id 3 is found, a run with id 99 is not. *)
Lemma getIndividualFromTraj_by_id_witness :
  is_Some (gIdx demo_initial) ∧
  submittable (heap demo_initial) (pop demo_initial) ∧
  getIndividualFromTraj (ArgTraj [] 3) demo_initial
  = (Returned (AnIndividual 3), demo_initial) ∧
  getIndividualFromTraj (ArgTraj [] 99) demo_initial
  = (Returned EmptyList, demo_initial).
Proof.
  pose proof demo_initial_runs as H1.
  pose proof demo_initial_submittable as H2.
  repeat (split; [assumption|]).
  destruct (getIndividualFromTraj_by_id demo_initial [] 3 H1 H2) as (Hfound & _).
  destruct (getIndividualFromTraj_by_id demo_initial [] 99 H1 H2) as (_ & Habsent & _).
  split.
  - apply (Hfound demo_initial_ids_distinct 3%nat); [demo_decide | reflexivity].
  - apply Habsent. intros p Hp.
    change (pop demo_initial) with [2%nat; 3%nat] in Hp.
    apply elem_of_cons in Hp as [->|Hp]; [by vm_compute|].
    apply elem_of_cons in Hp as [->|Hp]; [by vm_compute|].
    by apply elem_of_nil in Hp.
Defined.

(** The model of the individual at address 3: its one gene is bound to the
    parameter "a", and no other entry appears. *)
Lemma getModelFromTraj_updates_parameters_witness :
  ∃ x, heap demo_initial !! 3%nat = Some x ∧
       (length (paramNames (demo_cfg 3)) ≤ length (genes x))%nat ∧
       NoDup (paramNames (demo_cfg 3)) ∧
       ∃ d' : gmap string float,
         getModelFromTraj (demo_cfg 3) id (Some ∅) (ArgIndividual 3) demo_initial
         = (Returned d', demo_initial) ∧
         is_Some (d' !! "a"%string) ∧
         d' !! "b"%string = None.
Proof.
  destruct (heap demo_initial !! 3%nat) as [x|] eqn:Hx; [|by vm_compute in Hx].
  assert (Hlen : (length (paramNames (demo_cfg 3)) ≤ length (genes x))%nat).
  { assert (H : (length ∘ genes) <$> heap demo_initial !! 3%nat
                = Some (length (genes x))) by (by rewrite Hx).
    vm_compute in H. injection H as H.
    change (1%nat = length (genes x)) in H. rewrite <- H. simpl. lia. }
  assert (Hnd : NoDup (paramNames (demo_cfg 3))) by demo_decide.
  exists x. split; [done|]. split; [exact Hlen|]. split; [exact Hnd|].
  destruct (getModelFromTraj_updates_parameters (demo_cfg 3) id ∅ demo_initial
              3%nat x Hx Hlen Hnd) as (d' & Hrun & Hset & Hkept).
  exists d'. split; [exact Hrun|]. split.
  - destruct (lookup_lt_is_Some_2 (genes x) 0) as [v Hv]; [simpl in Hlen; lia|].
    rewrite (Hset 0%nat "a"%string v eq_refl Hv). by eexists.
  - rewrite Hkept; [apply lookup_empty|].
    simpl. intros Hin. apply list_elem_of_singleton in Hin. discriminate.
Defined.

(** A run with an id that nobody has: with one parameter, a TypeError. *)
Lemma getModelFromTraj_unknown_id_witness :
  is_Some (gIdx demo_initial) ∧
  submittable (heap demo_initial) (pop demo_initial) ∧
  (∀ p, p ∈ pop demo_initial → id_at (heap demo_initial) p ≠ Some 99) ∧
  getModelFromTraj (demo_cfg 3) id (Some (∅ : gmap string float)) (ArgTraj [] 99)
    demo_initial = (Raised TypeError, demo_initial).
Proof.
  pose proof demo_initial_runs as H1.
  pose proof demo_initial_submittable as H2.
  assert (H3 : ∀ p, p ∈ pop demo_initial → id_at (heap demo_initial) p ≠ Some 99).
  { intros p Hp. change (pop demo_initial) with [2%nat; 3%nat] in Hp.
    apply elem_of_cons in Hp as [->|Hp]; [by vm_compute|].
    apply elem_of_cons in Hp as [->|Hp]; [by vm_compute|].
    by apply elem_of_nil in Hp. }
  repeat (split; [assumption|]).
  destruct (getModelFromTraj_unknown_id (demo_cfg 3) id (∅ : gmap string float)
              demo_initial [] 99 H1 H2 H3) as [Hsome _].
  exact Hsome.
Defined.

(** The population left by the bootstrap: one valid individual, one score. *)
Lemma getScores_of_valid_population_witness :
  is_Some (gIdx demo_initial) ∧
  Forall (λ p, is_Some (heap demo_initial !! p)) (pop demo_initial) ∧
  readable (demo_cfg 3) (heap demo_initial) (pop demo_initial) ∧
  ∃ scores, getScores (demo_cfg 3) demo_initial = (Returned scores, demo_initial) ∧
            length scores = 1%nat.
Proof.
  pose proof demo_initial_runs as H1.
  assert (H2 : Forall (λ p, is_Some (heap demo_initial !! p)) (pop demo_initial))
    by demo_live.
  pose proof demo_initial_readable as H3.
  repeat (split; [assumption|]).
  pose proof (getScores_of_valid_population (demo_cfg 3) demo_initial H1 H2) as H.
  cbv zeta in H. destruct H as (Hread & _).
  destruct (Hread H3) as (Hscored & _).
  destruct Hscored as (scores & Hrun & Hlen & _).
  - intros p x Hp Hx.
    assert (p = 3%nat) as ->.
    { vm_compute in Hp. apply elem_of_cons in Hp as [->|Hp]; [done|].
      by apply elem_of_nil in Hp. }
    assert (Hs : fitness_score <$> heap demo_initial !! 3%nat
                 = Some (fitness_score x)) by (by rewrite Hx).
    vm_compute in Hs. injection Hs as Hs.
    match type of Hs with ?a = _ => change (a = fitness_score x) in Hs end.
    rewrite <- Hs. by eexists.
  - exists scores. split; [exact Hrun|]. rewrite Hlen. by vm_compute.
Defined.

(** The genealogy at the end of the small run: the individual with the id 5
    is a child of the individuals 2 and 3. *)
Lemma buildEvolutionTree_genealogy_witness :
  ids_distinct (heap demo_final) ∧
  ∃ s', buildEvolutionTree demo_final = (Returned (), s') ∧
        tree s' !! 5 = Some (Some (2, 3)).
Proof.
  assert (H1 : ids_distinct (heap demo_final))
    by (apply ids_distinct_check; demo_decide).
  split; [exact H1|].
  destruct (buildEvolutionTree demo_final) as [out s'] eqn:Hrun.
  assert (out = Returned ()) as -> by demo_outcome Hrun.
  exists s'. split; [done|].
  destruct (buildEvolutionTree_genealogy demo_final s' H1 Hrun)
    as (_ & _ & Hfacts & _).
  destruct (heap demo_final !! 5%nat) as [x|] eqn:Hx; [|by vm_compute in Hx].
  assert (Hf : (λ y, (ind_id y, parentIds y)) <$> heap demo_final !! 5%nat
               = Some (ind_id x, parentIds x)) by (by rewrite Hx).
  vm_compute in Hf. injection Hf as Hid Hpar.
  destruct (Hfacts 1 [3%nat; 5%nat; 6%nat; 4%nat] 5%nat x 5) as (Htree & _).
  - by vm_compute.
  - demo_decide.
  - exact Hx.
  - exact (eq_sym Hid).
  - rewrite Htree. f_equal. exact (eq_sym Hpar).
Defined.

(** The first generation of the small run has two offspring. *)
Lemma generation_returns_even_offspring_witness :
  submittable (heap demo_initial) (pop demo_initial) ∧
  generation (demo_cfg 3) demo_toolbox 1 demo_initial
  = (Returned (), demo_generation1) ∧
  ∃ n_off : nat, Nat.Even n_off ∧
    length (heap demo_generation1) = (4 + 1 + n_off)%nat.
Proof.
  pose proof demo_initial_submittable as H1.
  pose proof demo_generation1_returns as H2.
  repeat (split; [assumption|]).
  pose proof (generation_returns_even_offspring (demo_cfg 3) demo_toolbox 1
                demo_initial demo_generation1 H1 H2) as H.
  cbv zeta in H. destruct H as (n_off & Heven & Hlen & _).
  exists n_off. split; [exact Heven | exact Hlen].
Defined.

(** The small run: the history entry of generation 0 and the individual at
    address 3 are the same after the run as after the bootstrap. *)
Lemma runEvolution_keeps_the_past_witness :
  gIdx demo_initial = Some 0 ∧
  submittable (heap demo_initial) (pop demo_initial) ∧
  runEvolution (demo_cfg 3) demo_toolbox demo_initial = (Returned (), demo_final) ∧
  history demo_final !! 0 = history demo_initial !! 0 ∧
  heap demo_final !! 3%nat = heap demo_initial !! 3%nat.
Proof.
  assert (H1 : gIdx demo_initial = Some 0) by reflexivity.
  pose proof demo_initial_submittable as H2.
  assert (H3 : runEvolution (demo_cfg 3) demo_toolbox demo_initial
               = (Returned (), demo_final)) by (vm_compute; reflexivity).
  repeat (split; [assumption|]).
  destruct (runEvolution_keeps_the_past (demo_cfg 3) demo_toolbox
              demo_initial demo_final 0 H1 H2 H3) as (Hheap & Hhist & _).
  split; [apply Hhist; lia|].
  destruct (heap demo_initial !! 3%nat) as [x|] eqn:Hx; [|by vm_compute in Hx].
  by apply Hheap.
Defined.

(** The first generation of the small run: the two counters advance by the
    number of new individuals. *)
Lemma generation_tags_and_evaluates_the_new_witness :
  submittable (heap demo_initial) (pop demo_initial) ∧
  generation (demo_cfg 3) demo_toolbox 1 demo_initial
  = (Returned (), demo_generation1) ∧
  ∃ m : nat,
    length (heap demo_generation1)
    = (length (heap demo_initial)
       + length (filter (λ p, invalid_at (demo_cfg 3) (heap demo_initial) p)
                   (pop demo_initial)) + m)%nat ∧
    last_id demo_generation1 - last_id demo_initial
    = evaluationCounter demo_generation1 - evaluationCounter demo_initial.
Proof.
  pose proof demo_initial_submittable as H1.
  pose proof demo_generation1_returns as H2.
  repeat (split; [assumption|]).
  destruct (generation_tags_and_evaluates_the_new (demo_cfg 3) demo_toolbox 1
              demo_initial demo_generation1 H1 H2) as (m & Hlen & Hlast & Hec & _).
  exists m. split; [exact Hlen|]. rewrite Hlast, Hec. lia.
Defined.

(** The triage of the population left by the bootstrap, applied again to
    its valid part. *)
Lemma triage_of_triage_witness :
  readable (demo_cfg 3) (heap demo_initial) (pop demo_initial) ∧
  ∃ valid,
    getValidPopulation (demo_cfg 3) (pop demo_initial) demo_initial
    = (Returned valid, demo_initial) ∧
    getValidPopulation (demo_cfg 3) valid demo_initial
    = (Returned valid, demo_initial) ∧
    getInvalidPopulation (demo_cfg 3) valid demo_initial
    = (Returned [], demo_initial).
Proof.
  pose proof demo_initial_readable as H1.
  split; [exact H1|].
  destruct (triage_of_triage (demo_cfg 3) (pop demo_initial) demo_initial H1)
    as (valid & invalid & Hv & _ & Hvv & Hiv & _).
  exists valid. split; [exact Hv|]. split; [exact Hvv | exact Hiv].
Defined.

